(** * The unread-messages model of zulip-mobile ([src/unread/unreadModel.js])

    A shallow embedding of the stream-unreads reducer and of the helpers it
    is built from, together with the properties of the model that the
    specification states.

    The JavaScript code works on persistent collections of Immutable.js and
    tells "same instance" apart from "equal contents" with [===].  Object
    identity is therefore part of the model: every collection carries the
    tag it was allocated with, tags are drawn from a counter kept in the
    heap, and [===] on collections is equality of the tagged values.  The
    heap also keeps the warnings passed to [logging.warn]; a failed
    [invariant] is an error result. *)

From stdpp Require Import gmap strings list fin_maps sorting.

Open Scope Z_scope.

(** ** Effects: allocation, logging, failure *)

Record Heap := mkHeap {
  next : N;                (* next unused object tag *)
  log : list string;       (* warnings, most recent last *)
}.

Inductive failure :=
  | InvariantViolation (msg : string)   (* thrown by [invariant(cond, msg)] *)
  | TypeError                           (* a method called on [undefined] *)
  | OutOfFuel.                          (* a loop of the model ran out of fuel *)

Inductive Res (A : Type) :=
  | Ok (a : A) (h : Heap)
  | Fail (e : failure).
Arguments Ok {A} a h.
Arguments Fail {A} e.

Definition M (A : Type) : Type := Heap → Res A.

Definition ret {A} (a : A) : M A := λ h, Ok a h.

Definition bind {A B} (m : M A) (f : A → M B) : M B :=
  λ h, match m h with
       | Ok a h' => f a h'
       | Fail e => Fail e
       end.

Notation "'let*' x ':=' m 'in' k" := (bind m (λ x, k))
  (at level 10, x binder, m at level 100, k at level 200).

Definition throw {A} (e : failure) : M A := λ _, Fail e.

(** A fresh object tag. *)
Definition fresh : M N :=
  λ h, Ok (next h) (mkHeap (N.succ (next h)) (log h)).

(** [logging.warn(msg)] *)
Definition warn (msg : string) : M () :=
  λ h, Ok () (mkHeap (next h) (log h ++ [msg])).

(** [invariant(cond, msg)] of the npm package [invariant]: throws when the
    condition is falsy. *)
Definition invariant (cond : bool) (msg : string) : M () :=
  if cond then ret () else throw (InvariantViolation msg).

(** A loop over an array or over the entries of a collection. *)
Fixpoint foldM {X Acc} (f : X → Acc → M Acc) (l : list X) (acc : Acc) : M Acc :=
  match l with
  | [] => ret acc
  | x :: l' => let* acc' := f x acc in foldM f l' acc'
  end.

Fixpoint mapM {X Y} (f : X → M Y) (l : list X) : M (list Y) :=
  match l with
  | [] => ret []
  | x :: l' => let* y := f x in let* ys := mapM f l' in ret (y :: ys)
  end.

(** ** Immutable.js collections

    The part of Immutable.js (version 4, the npm package [immutable]) that
    the reducer calls.  The library is not part of the repository; the
    definitions below follow its sources.  Each operation returns the
    instance Immutable.js returns: the receiver itself when nothing changes
    ([updateMap] and [updateList] return [this] unless a node was altered,
    and [withMutations] returns [this] unless the mutable copy
    [wasAltered]), the one shared empty collection when the result is empty
    ([emptyMap()], [emptyList()]), a newly allocated collection otherwise.

    A collection is a tag together with its contents.  Two collections are
    the same instance when they are equal: no operation below gives a tag
    already in use to different contents, as long as the heap's counter is
    ahead of the tags in use. *)

Module Immutable.

(** [Immutable.List<number>] *)
Record List := mkList { list_tag : N; items : list Z }.

(** [Immutable.Map<K, V>]; [===] on the values is equality of [V]. *)
Record Map (K : Type) `{Countable K} (V : Type) :=
  mkMap { map_tag : N; entries : gmap K V }.
Arguments mkMap {K _ _ V} map_tag entries.
Arguments map_tag {K _ _ V} m.
Arguments entries {K _ _ V} m.

#[global] Instance List_eq_dec : EqDecision List.
Proof. solve_decision. Defined.

#[global] Instance Map_eq_dec `{Countable K} `{EqDecision V} : EqDecision (Map K V).
Proof. solve_decision. Defined.

(** [Immutable.List()]: the one empty list. *)
Definition emptyList : List := mkList 0 [].

(** [Immutable.List(array)] *)
Definition List_of (xs : list Z) : M List :=
  match xs with
  | [] => ret emptyList
  | _ => let* t := fresh in ret (mkList t xs)
  end.

Definition size (l : List) : nat := length (items l).

(** [list.get(i)]: [undefined] past the end. *)
Definition get_at (l : List) (i : nat) : option Z := items l !! i.

(** [list.push(...values)] *)
Definition push (l : List) (values : list Z) : M List :=
  match values with
  | [] => ret l
  | _ => List_of (items l ++ values)
  end.

(** [list.filter(pred)]: always a new list, even when nothing is
    filtered out. *)
Definition filter_ (pred : Z → bool) (l : List) : M List :=
  List_of (filter (λ id, pred id = true) (items l)).

(** [list.filterNot(pred)] *)
Definition filterNot (pred : Z → bool) (l : List) : M List :=
  filter_ (λ id, negb (pred id)) l.

(** [list.find(pred)]: the first element satisfying [pred]. *)
Fixpoint find_in (pred : Z → bool) (xs : list Z) : option Z :=
  match xs with
  | [] => None
  | x :: xs' => if pred x then Some x else find_in pred xs'
  end.

Definition find (pred : Z → bool) (l : List) : option Z := find_in pred (items l).

(** [list.sort()]: a stable sort with the default comparator, which
    compares numbers numerically. *)
Definition sort (l : List) : M List := List_of (merge_sort Z.le (items l)).

Section map.
Context `{Countable K} `{EqDecision V}.

(** [Immutable.Map()]: the one empty map. *)
Definition emptyMap : Map K V := mkMap 0 ∅.

(** The immutable map holding [e]: what a construction or a finished
    batch of mutations returns. *)
Definition Map_of (e : gmap K V) : M (Map K V) :=
  if decide (e = ∅) then ret emptyMap
  else let* t := fresh in ret (mkMap t e).

(** [Immutable.Map(pairs)]: the pairs are set in order, so a later
    pair wins over an earlier one with the same key. *)
Definition Map_ofPairs (pairs : list (K * V)) : M (Map K V) :=
  Map_of (foldl (λ e kv, <[kv.1 := kv.2]> e) ∅ pairs).

(** [map.get(key)] *)
Definition get (m : Map K V) (key : K) : option V := entries m !! key.

(** [map.set(key, value)] *)
Definition set (m : Map K V) (key : K) (value : V) : M (Map K V) :=
  if decide (entries m !! key = Some value) then ret m
  else Map_of (<[key := value]> (entries m)).

(** [map.delete(key)] *)
Definition delete_ (m : Map K V) (key : K) : M (Map K V) :=
  match entries m !! key with
  | None => ret m
  | Some _ => Map_of (delete key (entries m))
  end.

(** The mutable copy that [withMutations] hands to its callback. *)
Record MapMut := mkMut { mut_entries : gmap K V; altered : bool }.

Definition mut_set (mm : MapMut) (key : K) (value : V) : MapMut :=
  if decide (mut_entries mm !! key = Some value) then mm
  else mkMut (<[key := value]> (mut_entries mm)) true.

Definition mut_delete (mm : MapMut) (key : K) : MapMut :=
  match mut_entries mm !! key with
  | None => mm
  | Some _ => mkMut (delete key (mut_entries mm)) true
  end.

(** [map.withMutations(fn)] *)
Definition withMutations (m : Map K V) (fn : MapMut → M MapMut) : M (Map K V) :=
  let* mm := fn (mkMut (entries m) false) in
  if altered mm then Map_of (mut_entries mm) else ret m.

(** [map.forEach((value, key) => ...)], the callback acting on [Acc]. *)
Definition forEach {Acc} (m : Map K V) (f : V → K → Acc → M Acc) (acc : Acc) : M Acc :=
  foldM (λ kv, f kv.2 kv.1) (map_to_list (entries m)) acc.

(** [map.map(mapper)]: every entry is set to the mapped value. *)
Definition map_ (m : Map K V) (mapper : V → M V) : M (Map K V) :=
  withMutations m (λ mm,
    forEach m (λ value key mm,
      let* value' := mapper value in ret (mut_set mm key value')) mm).

(** [map.mergeWith(merger, other)] *)
Definition mergeWith (m : Map K V) (merger : V → V → M V) (other : Map K V)
  : M (Map K V) :=
  if decide (entries other = ∅) then ret m
  else if decide (entries m = ∅) then ret other
  else withMutations m (λ mm,
    forEach other (λ value key mm,
      match mut_entries mm !! key with
      | None => ret (mut_set mm key value)
      | Some oldVal =>
          let* value' := merger oldVal value in ret (mut_set mm key value')
      end) mm).
End map.

Arguments MapMut K {_ _} V.

(** [map.updateIn([k1, k2], notSetValue, updater)] on a map of maps.  The
    updater receives the value found at the path, or [notSetValue]
    ([None] for [undefined]) when the path is not set. *)
Definition updateIn `{Countable K1} `{Countable K2} `{EqDecision V}
    (m : Map K1 (Map K2 V)) (k1 : K1) (k2 : K2) (notSetValue : option V)
    (updater : option V → M V) : M (Map K1 (Map K2 V)) :=
  let existing1 := get m k1 in
  let existing2 := existing1 ≫= (λ inner, get inner k2) in
  let existingValue := match existing2 with Some v => Some v | None => notSetValue end in
  let* newValue := updater existingValue in
  if decide (Some newValue = existingValue) then ret m
  else
    let* inner' := set (default emptyMap existing1) k2 newValue in
    if decide (Some inner' = existing1) then ret m
    else set m k1 inner'.

(** [map.getIn([k1, k2], notSetValue)] *)
Definition getIn `{Countable K1} `{Countable K2} {V}
    (m : Map K1 (Map K2 V)) (k1 : K1) (k2 : K2) (notSetValue : V) : V :=
  default notSetValue (get m k1 ≫= (λ inner, get inner k2)).

End Immutable.

Import Immutable.

(** ** The model's own helpers *)

Definition UnreadStreamsState : Type := Map Z (Map string List).

(** [initialStreamsState] *)
Definition initialStreamsState : UnreadStreamsState := emptyMap.

Section helpers.
Context `{Countable K} `{EqDecision V}.

(** [updateAndPrune(map, zero, key, updater)] *)
Definition updateAndPrune (map : Map K V) (zero : V) (key : K)
    (updater : option V → M V) : M (Map K V) :=
  let value := get map key in
  let* newValue := updater value in
  if decide (newValue = zero) then delete_ map key
  else if decide (Some newValue = value) then ret map
  else set map key newValue.

(** [updateAllAndPrune(map, zero, updater)] *)
Definition updateAllAndPrune (map : Map K V) (zero : V) (updater : V → M V)
    : M (Map K V) :=
  withMutations map (λ mapMut,
    forEach map (λ value key mapMut,
      let* newValue := updater value in
      if decide (newValue = zero) then ret (mut_delete mapMut key)
      else if decide (newValue = value) then ret mapMut
      else ret (mut_set mapMut key newValue)) mapMut).
End helpers.

(** ** Union of sorted lists *)

(** The local variables of [setUnion]. *)
Record Cursor := mkCursor {
  i : nat; x : option Z;
  j : nat; y : option Z;
  result : list Z;
}.

(** [while (x !== undefined && y !== undefined) { ... }] *)
Fixpoint while_both (fuel : nat) (xs ys : List) (c : Cursor) : option Cursor :=
  match fuel with
  | O => None
  | S fuel' =>
      match x c, y c with
      | Some xv, Some yv =>
          if decide (xv < yv) then
            while_both fuel' xs ys
              (mkCursor (S (i c)) (get_at xs (i c)) (j c) (y c) (result c ++ [xv]))
          else if decide (xv ≠ yv) then
            while_both fuel' xs ys
              (mkCursor (i c) (x c) (S (j c)) (get_at ys (j c)) (result c ++ [yv]))
          else
            while_both fuel' xs ys
              (mkCursor (S (i c)) (get_at xs (i c)) (S (j c)) (get_at ys (j c))
                        (result c ++ [xv]))
      | _, _ => Some c
      end
  end.

(** [while (x !== undefined) { result.push(x); x = xs.get(i++); }] *)
Fixpoint while_x (fuel : nat) (xs : List) (c : Cursor) : option Cursor :=
  match fuel with
  | O => None
  | S fuel' =>
      match x c with
      | Some xv =>
          while_x fuel' xs
            (mkCursor (S (i c)) (get_at xs (i c)) (j c) (y c) (result c ++ [xv]))
      | None => Some c
      end
  end.

(** [while (y !== undefined) { result.push(y); y = ys.get(j++); }] *)
Fixpoint while_y (fuel : nat) (ys : List) (c : Cursor) : option Cursor :=
  match fuel with
  | O => None
  | S fuel' =>
      match y c with
      | Some yv =>
          while_y fuel' ys
            (mkCursor (i c) (x c) (S (j c)) (get_at ys (j c)) (result c ++ [yv]))
      | None => Some c
      end
  end.

(** The body of [setUnion] up to its [return]: the array [result]. *)
Definition setUnion_array (fuel : nat) (xs ys : List) : option (list Z) :=
  let c := mkCursor 1 (get_at xs 0) 1 (get_at ys 0) [] in
  c ← while_both fuel xs ys c;
  c ← while_x fuel xs c;
  c ← while_y fuel ys c;
  Some (result c).

(** Every iteration of the three loops consumes an element of [xs] or of
    [ys], so this many iterations are enough. *)
Definition setUnion_fuel (xs ys : List) : nat := S (size xs + size ys).

(** [setUnion(xs, ys)] *)
Definition setUnion (xs ys : List) : M List :=
  match setUnion_array (setUnion_fuel xs ys) xs ys with
  | Some result => List_of result
  | None => throw OutOfFuel
  end.

(** ** Deleting messages *)

(** [ids.has(id)] on a JavaScript [Set] of numbers. *)
Definition has (ids : gset Z) (id : Z) : bool := bool_decide (id ∈ ids).

(** Whether [list.find(...)] gave a truthy value: a number other than 0. *)
Definition truthy (found : option Z) : bool :=
  match found with
  | Some v => bool_decide (v ≠ 0)
  | None => false
  end.

(** [deleteMessagesIn(state, streamId, topic, ids)] *)
Definition deleteMessagesIn (state : UnreadStreamsState) (streamId : Z)
    (topic : string) (ids : gset Z) : M UnreadStreamsState :=
  updateAndPrune state emptyMap streamId (λ perStream,
    updateAndPrune (default emptyMap perStream) emptyList topic (λ perTopic,
      filter_ (λ id, negb (has ids id)) (default emptyList perTopic))).

(** [deleteMessages(state, ids)] *)
Definition deleteMessages (state : UnreadStreamsState) (ids : list Z)
    : M UnreadStreamsState :=
  let idSet : gset Z := list_to_set ids in
  let toDelete := has idSet in
  updateAllAndPrune state emptyMap (λ perStream,
    updateAllAndPrune perStream emptyList (λ perTopic,
      if truthy (find toDelete perTopic) then filterNot toDelete perTopic
      else ret perTopic)).

(** ** Actions

    The fields of the actions that the unread model reads. *)

(** A message of an [EVENT_NEW_MESSAGE] action; [flags] can be missing. *)
Inductive Message :=
  | StreamMessage (id : Z) (stream_id : Z) (subject : string)
                  (flags : option (list string))     (* [type: 'stream'] *)
  | PmMessage (id : Z) (flags : option (list string)). (* [type: 'private'] *)

(** A value of the [message_details] map of an update-message-flags event. *)
Inductive MessageDetails :=
  | StreamDetails (stream_id : Z) (topic : string)   (* [type: 'stream'] *)
  | PmDetails.                                        (* [type: 'private'] *)

#[global] Instance MessageDetails_eq_dec : EqDecision MessageDetails.
Proof. solve_decision. Defined.

(** An element of [unread_msgs.streams] in the initial data. *)
Record UnreadStream := mkUnreadStream {
  us_stream_id : Z;
  us_topic : string;
  unread_message_ids : list Z;
}.

(** The [move] of an [EVENT_UPDATE_MESSAGE] action. *)
Record MessageMove := mkMove {
  orig_stream_id : Z;
  orig_topic : string;
  new_stream_id : Z;
  new_topic : string;
}.

Inductive Action :=
  | RESET_ACCOUNT_DATA
  | REGISTER_COMPLETE (unread_msgs_streams : option (list UnreadStream))
  | MESSAGE_FETCH_COMPLETE
  | EVENT_NEW_MESSAGE (message : Message)
  | EVENT_MESSAGE_DELETE (messageIds : list Z)
  | EVENT_UPDATE_MESSAGE_FLAGS (flag : string) (all : bool) (op : string)
      (messages : list Z) (message_details : option (gmap Z MessageDetails))
  | EVENT_UPDATE_MESSAGE (message_ids : list Z) (move : option MessageMove)
  | OTHER_ACTION.        (* any action type the [switch] has no case for *)

(** ** The streams reducer *)

(** Modelled from the spec: [DefaultMap] (src/utils/DefaultMap.js), "an
    explicit mapping with an explicit get-or-insert-default operation".  The
    mapping keeps its keys in insertion order;
    [byStream.getOrCreate(stream_id).push(entry)] appends [entry] to the
    array of [stream_id], which starts out empty. *)
Fixpoint getOrCreate_push {E} (byStream : list (Z * list E)) (stream_id : Z) (entry : E)
    : list (Z * list E) :=
  match byStream with
  | [] => [(stream_id, [entry])]
  | (k, arr) :: rest =>
      if decide (k = stream_id) then (k, arr ++ [entry]) :: rest
      else (k, arr) :: getOrCreate_push rest stream_id entry
  end.

(** [flags.includes(flag)] *)
Definition includes (flags : list string) (flag : string) : bool :=
  bool_decide (flag ∈ flags).

(** The [REGISTER_COMPLETE] case. *)
Definition registerComplete (data : list UnreadStream) : M UnreadStreamsState :=
  let* byStream :=
    foldM (λ item byStream,
             let* ids := List_of (unread_message_ids item) in
             ret (getOrCreate_push byStream (us_stream_id item) (us_topic item, ids)))
          data [] in
  let* perStream :=
    mapM (λ entry : Z * list (string * List),
            let* topics := Map_ofPairs entry.2 in ret (entry.1, topics))
         byStream in
  Map_ofPairs perStream.

(** The part of the [EVENT_UPDATE_MESSAGE_FLAGS] case that handles messages
    marked as unread again, once [message_details] is known to be there. *)
Definition markUnread (state : UnreadStreamsState) (messages : list Z)
    (message_details : gmap Z MessageDetails) : M UnreadStreamsState :=
  let* newlyUnreadState :=
    foldM (λ id (newlyUnreadState : UnreadStreamsState),
             match message_details !! id with
             | Some (StreamDetails stream_id topic) =>
                 updateIn newlyUnreadState stream_id topic (Some emptyList)
                   (λ messages,
                      match messages with
                      | Some messages => push messages [id]
                      | None => throw TypeError
                      end)
             | _ => ret newlyUnreadState
             end)
          messages emptyMap in
  let* newlyUnreadState :=
    map_ newlyUnreadState (λ e, map_ e (λ messages, sort messages)) in
  mergeWith state
    (λ oldTopicsMap newTopicsMap,
       mergeWith oldTopicsMap
         (λ oldUnreadMessages newUnreadMessages,
            setUnion oldUnreadMessages newUnreadMessages)
         newTopicsMap)
    newlyUnreadState.

(** The [EVENT_UPDATE_MESSAGE] case for an event that moves messages. *)
Definition moveMessages (state : UnreadStreamsState) (message_ids : list Z)
    (move : MessageMove) : M UnreadStreamsState :=
  let eventIds : gset Z := list_to_set message_ids in
  let* matchingIds :=
    filter_ (has eventIds)
            (getIn state (orig_stream_id move) (orig_topic move) emptyList) in
  if decide (size matchingIds = 0%nat) then ret state
  else
    let* state' :=
      deleteMessagesIn state (orig_stream_id move) (orig_topic move) eventIds in
    updateIn state' (new_stream_id move) (new_topic move) None
      (λ messages,
         let* messages := push (default emptyList messages) (items matchingIds) in
         sort messages).

(** [streamsReducer(state, action, globalState)].  The third argument is not
    used by the function and is left out. *)
Definition streamsReducer (state : option UnreadStreamsState) (action : Action)
    : M UnreadStreamsState :=
  let state := default initialStreamsState state in
  match action with
  | RESET_ACCOUNT_DATA => ret initialStreamsState
  | REGISTER_COMPLETE unread_msgs_streams =>
      registerComplete (default [] unread_msgs_streams)
  | MESSAGE_FETCH_COMPLETE => ret state
  | EVENT_NEW_MESSAGE message =>
      match message with
      | PmMessage _ _ => ret state
      | StreamMessage id stream_id subject flags =>
          let* _ := invariant (bool_decide (is_Some flags))
                      "message in EVENT_NEW_MESSAGE must have flags" in
          if includes (default [] flags) "read" then ret state
          else
            updateIn state stream_id subject None
              (λ perTopic, push (default emptyList perTopic) [id])
      end
  | EVENT_MESSAGE_DELETE messageIds => deleteMessages state messageIds
  | EVENT_UPDATE_MESSAGE_FLAGS flag all op messages message_details =>
      if decide (flag ≠ "read") then ret state
      else if all then ret initialStreamsState
      else if decide (op = "remove") then
        match message_details with
        | None =>
            let* _ := warn "Got update_message_flags/remove/read event without message_details." in
            ret state
        | Some message_details => markUnread state messages message_details
        end
      else deleteMessages state messages
  | EVENT_UPDATE_MESSAGE message_ids move =>
      match move with
      | None => ret state
      | Some move => moveMessages state message_ids move
      end
  | OTHER_ACTION => ret state
  end.

(** ** The reducer of the whole unread state *)

Section reducer.
(** The other three parts of the state and their reducers live in files of
    their own; [===] on their states is equality of the values here. *)
Context {UnreadPmsState UnreadHuddlesState UnreadMentionsState PerAccountState : Type}.
Context `{EqDecision UnreadPmsState} `{EqDecision UnreadHuddlesState}
        `{EqDecision UnreadMentionsState}.
Variable unreadPmsReducer :
  option UnreadPmsState → Action → PerAccountState → M UnreadPmsState.
Variable unreadHuddlesReducer :
  option UnreadHuddlesState → Action → PerAccountState → M UnreadHuddlesState.
Variable unreadMentionsReducer :
  option UnreadMentionsState → Action → M UnreadMentionsState.

(** [UnreadState]: a plain object, with the tag it was allocated with. *)
Record UnreadState := mkUnreadState {
  state_tag : N;
  streams : UnreadStreamsState;
  pms : UnreadPmsState;
  huddles : UnreadHuddlesState;
  mentions : UnreadMentionsState;
}.

(** [Object.keys(nextState).every(key => nextState[key] === state[key])] *)
Definition every_key_same (nextState state : UnreadState) : bool :=
  bool_decide (streams nextState = streams state)
  && bool_decide (pms nextState = pms state)
  && bool_decide (huddles nextState = huddles state)
  && bool_decide (mentions nextState = mentions state).

(** [reducer(state, action, globalState)] *)
Definition reducer (state : option UnreadState) (action : Action)
    (globalState : PerAccountState) : M UnreadState :=
  let* streams' := streamsReducer (streams <$> state) action in
  let* pms' := unreadPmsReducer (pms <$> state) action globalState in
  let* huddles' := unreadHuddlesReducer (huddles <$> state) action globalState in
  let* mentions' := unreadMentionsReducer (mentions <$> state) action in
  let* tag := fresh in
  let nextState := mkUnreadState tag streams' pms' huddles' mentions' in
  match state with
  | Some state => if every_key_same nextState state then ret state else ret nextState
  | None => ret nextState
  end.
End reducer.

(** ** Reading the state *)

(** The unread ids held for a topic: [state.getIn([streamId, topic], List())]. *)
Definition idsAt (state : UnreadStreamsState) (streamId : Z) (topic : string) : list Z :=
  items (getIn state streamId topic emptyList).

(** A heap to start from: tag 0 is taken by the empty collections. *)
Definition heap0 : Heap := mkHeap 1 [].

(** ** What the specification says, in its own words *)

(** The merge of section 4.1: "advance whichever of the two current heads
    is smaller, emit ties once and advance both pointers past them". *)
Fixpoint two_pointer_merge (xs : list Z) : list Z → list Z :=
  fix merge_ys (ys : list Z) : list Z :=
    match xs, ys with
    | [], _ => ys
    | _, [] => xs
    | x :: xs', y :: ys' =>
        if decide (x < y) then x :: two_pointer_merge xs' ys
        else if decide (x ≠ y) then y :: merge_ys ys'
        else x :: two_pointer_merge xs' ys'
    end.

(** Strictly ascending, hence without duplicates. *)
Definition ascending (l : list Z) : Prop := StronglySorted Z.lt l.

(** The states that sequences of actions lead to from the empty index, when
    each action satisfies [pre] in the state it is applied to. *)
Inductive reachable (pre : UnreadStreamsState → Action → Prop)
    : UnreadStreamsState → Prop :=
  | reachable_init : reachable pre initialStreamsState
  | reachable_step s a h s' h' :
      reachable pre s → pre s a →
      streamsReducer (Some s) a h = Ok s' h' →
      reachable pre s'.

(** Every id list of the index satisfies [P]. *)
Definition all_lists (P : list Z → Prop) (state : UnreadStreamsState) : Prop :=
  ∀ streamId perStream topic perTopic,
    get state streamId = Some perStream →
    get perStream topic = Some perTopic →
    P (items perTopic).

(** No stream of the index has an empty map of topics. *)
Definition no_empty_stream (state : UnreadStreamsState) : Prop :=
  ∀ streamId perStream, get state streamId = Some perStream → entries perStream ≠ ∅.

(** The ids of [messages] that [message_details] places in the given topic,
    in the order of [messages]. *)
Definition routed_to (message_details : gmap Z MessageDetails) (streamId : Z)
    (topic : string) (messages : list Z) : list Z :=
  filter (λ id, message_details !! id = Some (StreamDetails streamId topic)) messages.

(** The ids of an update-message event that are unread in the topic the
    messages are moved from, and the ids of that topic the event leaves
    alone. *)
Definition matching_ids (state : UnreadStreamsState) (message_ids : list Z)
    (move : MessageMove) : list Z :=
  filter (λ id, id ∈ message_ids) (idsAt state (orig_stream_id move) (orig_topic move)).

Definition remaining_ids (state : UnreadStreamsState) (message_ids : list Z)
    (move : MessageMove) : list Z :=
  filter (λ id, id ∉ message_ids) (idsAt state (orig_stream_id move) (orig_topic move)).

(** What section 4.3 of the specification asks of an action: the lists of a
    registration snapshot are sorted, the id of a new message exceeds every
    id of the index, and an event that marks messages as unread has details
    for each of its messages. *)
Definition stated_pre (state : UnreadStreamsState) (action : Action) : Prop :=
  match action with
  | REGISTER_COMPLETE unread_msgs_streams =>
      ∀ item, item ∈ default [] unread_msgs_streams →
        ascending (unread_message_ids item)
  | EVENT_NEW_MESSAGE (StreamMessage id _ _ _) =>
      ∀ streamId topic id', id' ∈ idsAt state streamId topic → id' < id
  | EVENT_UPDATE_MESSAGE_FLAGS _ _ _ messages (Some message_details) =>
      ∀ id, id ∈ messages → is_Some (message_details !! id)
  | _ => True
  end.

(** What the sortedness of the index needs on top of that: an event that
    marks messages as unread lists each message once, *)
Definition distinct_messages_pre (state : UnreadStreamsState) (action : Action) : Prop :=
  match action with
  | EVENT_UPDATE_MESSAGE_FLAGS _ _ op messages _ => op = "remove" → NoDup messages
  | _ => True
  end.

(** and a move does not bring ids to another topic that holds them
    already. *)
Definition fresh_destination_pre (state : UnreadStreamsState) (action : Action) : Prop :=
  match action with
  | EVENT_UPDATE_MESSAGE message_ids (Some move) =>
      (orig_stream_id move, orig_topic move) ≠ (new_stream_id move, new_topic move) →
      ∀ id, id ∈ matching_ids state message_ids move →
        id ∉ idsAt state (new_stream_id move) (new_topic move)
  | _ => True
  end.

Definition sorted_pre (state : UnreadStreamsState) (action : Action) : Prop :=
  stated_pre state action
  ∧ distinct_messages_pre state action
  ∧ fresh_destination_pre state action.

(** A registration snapshot without empty lists. *)
Definition non_empty_pre (state : UnreadStreamsState) (action : Action) : Prop :=
  match action with
  | REGISTER_COMPLETE unread_msgs_streams =>
      ∀ item, item ∈ default [] unread_msgs_streams → unread_message_ids item ≠ []
  | _ => True
  end.

(** A new stream message carries its flags. *)
Definition has_flags (action : Action) : Prop :=
  match action with
  | EVENT_NEW_MESSAGE (StreamMessage _ _ _ flags) => is_Some flags
  | _ => True
  end.

(** Whether [message_details] has an entry of type ['stream'] for [id]. *)
Definition is_routed (message_details : gmap Z MessageDetails) (id : Z) : bool :=
  match message_details !! id with
  | Some (StreamDetails _ _) => true
  | _ => false
  end.

(** The outcome of one action, for building example states. *)
Definition after (state : UnreadStreamsState) (h : Heap) (action : Action)
    : UnreadStreamsState * Heap :=
  match streamsReducer (Some state) action h with
  | Ok state' h' => (state', h')
  | Fail _ => (state, h)
  end.

(** ** The rest of the model: getters and the helper kept for comparison *)

Section more_helpers.
Context `{Countable K} `{EqDecision V}.

(** [updateAll(map, updater)] *)
Definition updateAll (map : Map K V) (updater : V → M V) : M (Map K V) :=
  withMutations map (λ mapMut,
    forEach map (λ value key mapMut,
      let* newValue := updater value in
      if decide (newValue ≠ value) then ret (mut_set mapMut key newValue)
      else ret mapMut) mapMut).
End more_helpers.

(** [array.find(pred)] on a JavaScript array: the first element satisfying
    [pred], [None] for [undefined]. *)
Fixpoint Array_find {A} (pred : A → bool) (xs : list A) : option A :=
  match xs with
  | [] => None
  | x :: xs' => if pred x then Some x else Array_find pred xs'
  end.

(** Modelled from the spec: the elements of [UnreadPmsState] and of
    [UnreadHuddlesState] (src/unread/unreadModelTypes.js), "each record for
    PMs holds sender_id and unread_message_ids; each huddle record holds
    user_ids_string and unread_message_ids". *)
Record PmsUnreadItem := mkPmsUnreadItem {
  sender_id : Z;
  pm_unread_message_ids : list Z;
}.

Record HuddlesUnreadItem := mkHuddlesUnreadItem {
  user_ids_string : string;
  huddle_unread_message_ids : list Z;
}.

Section getters.
Context {UnreadPmsState UnreadHuddlesState UnreadMentionsState : Type}.

(** [getUnreadCountForTopic(unread, streamId, topic)]:
    [unread.streams.get(streamId)?.get(topic)?.size ?? 0] *)
Definition getUnreadCountForTopic
    (unread : @UnreadState UnreadPmsState UnreadHuddlesState UnreadMentionsState)
    (streamId : Z) (topic : string) : nat :=
  match get (streams unread) streamId with
  | Some perStream =>
      match get perStream topic with
      | Some perTopic => size perTopic
      | None => 0%nat
      end
  | None => 0%nat
  end.
End getters.

Section pm_narrow.
(** The narrows and the two helpers of src/utils are taken as they come:
    [userIdsOfPmNarrow] gives the user ids of a PM narrow,
    [pmUnreadsKeyFromPmKeyIds] the key of a group conversation. *)
Context {Narrow UnreadMentionsState : Type}.
Variable userIdsOfPmNarrow : Narrow → list Z.
Variable pmUnreadsKeyFromPmKeyIds : list Z → Z → string.

(** [getUnreadIdsForPmNarrow(unread, narrow, ownUserId)] *)
Definition getUnreadIdsForPmNarrow
    (unread : @UnreadState (list PmsUnreadItem) (list HuddlesUnreadItem)
                           UnreadMentionsState)
    (narrow : Narrow) (ownUserId : Z) : list Z :=
  let userIds := userIdsOfPmNarrow narrow in
  if decide (1 < length userIds)%nat then
    let unreadsKey := pmUnreadsKeyFromPmKeyIds userIds ownUserId in
    let unreadItem :=
      Array_find (λ x, bool_decide (user_ids_string x = unreadsKey)) (huddles unread) in
    default [] (huddle_unread_message_ids <$> unreadItem)
  else
    let senderId := userIds !! 0%nat in
    let unreadItem :=
      Array_find (λ x, bool_decide (Some (sender_id x) = senderId)) (pms unread) in
    default [] (pm_unread_message_ids <$> unreadItem).
End pm_narrow.

(** The list at a path of the index, if there is one:
    [state.getIn([streamId, topic])]. *)
Definition entryAt (state : UnreadStreamsState) (streamId : Z) (topic : string)
    : option List :=
  get state streamId ≫= (λ perStream, get perStream topic).

(** The ids that a registration snapshot gives for a topic: those of the
    last element of the snapshot for that stream and topic. *)
Definition snapshot_ids (data : list UnreadStream) (streamId : Z) (topic : string)
    : list Z :=
  default []
    (unread_message_ids
       <$> last (filter (λ item, us_stream_id item = streamId ∧ us_topic item = topic)
                        data)).

(** What [deleteMessages] does to the list [l] at a path: [o] is what the
    path holds afterwards. *)
Definition deleted_at (ids : list Z) (l : List) (o : option List) : Prop :=
  if truthy (find (has (list_to_set ids)) l) then
    match o with
    | None => filter (λ id, id ∉ ids) (items l) = []
    | Some l' => items l' = filter (λ id, id ∉ ids) (items l) ∧ items l' ≠ []
    end
  else o = if decide (l = emptyList) then None else Some l.

(** The array that a [DefaultMap] with the given entries holds for a key. *)
Fixpoint arrayOf {E} (byStream : list (Z * list E)) (stream_id : Z) : option (list E) :=
  match byStream with
  | [] => None
  | (k, arr) :: rest => if decide (k = stream_id) then Some arr else arrayOf rest stream_id
  end.

(** A pair of a topic and a list, as the first loop of [registerComplete]
    makes it from an element of the snapshot. *)
Definition made_from (tl : string * List) (item : UnreadStream) : Prop :=
  tl.1 = us_topic item ∧ items tl.2 = unread_message_ids item.

(** ** Notions used in the proofs *)

(** [returns m Q]: from every heap, [m] finishes without failure and without
    logging, and its result satisfies [Q]. *)
Definition returns {A} (m : M A) (Q : A → Prop) : Prop :=
  ∀ h, ∃ a h', m h = Ok a h' ∧ log h' = log h ∧ Q a.

(** The cursor when [x] and [y] hold the elements at [i0] and [j0]. *)
Definition cursor_at (xs ys : List) (i0 j0 : nat) (res : list Z) : Cursor :=
  mkCursor (S i0) (items xs !! i0) (S j0) (items ys !! j0) res.

Section map_relations.
Context `{Countable K} {V : Type}.

(** A result that is the receiver or else was built anew, in which case
    it is the shared empty map whenever it is empty. *)
Definition kept_or_built (m r : Map K V) : Prop :=
  r = m ∨ (entries r = ∅ → r = emptyMap).

(** One mutation of a mutable copy leaves [altered] unset only when the
    entries stay as they were. *)
Definition mut_step (mm mm' : MapMut K V) : Prop :=
  altered mm' = false → altered mm = false ∧ mut_entries mm' = mut_entries mm.
End map_relations.

(** [state'] is [state] with the list of the topic replaced by [perTopic]. *)
Definition put_at (state : UnreadStreamsState) (streamId : Z) (topic : string)
    (perTopic : List) (state' : UnreadStreamsState) : Prop :=
  ∃ perStream',
    entries state' = <[streamId := perStream']> (entries state)
    ∧ entries perStream'
      = <[topic := perTopic]> (entries (default emptyMap (get state streamId))).

(** A property of id lists that filtering keeps, as long as something is
    left. *)
Definition filter_closed (P : list Z → Prop) : Prop :=
  ∀ (pred : Z → bool) l,
    P l → filter (λ id, pred id = true) l ≠ [] → P (filter (λ id, pred id = true) l).

(** What a property [P] of id lists has to satisfy for the lists that the
    action writes. *)
Definition step_obligation (P : list Z → Prop) (state : UnreadStreamsState)
    (action : Action) : Prop :=
  match action with
  | REGISTER_COMPLETE unread_msgs_streams =>
      ∀ item, item ∈ default [] unread_msgs_streams → P (unread_message_ids item)
  | EVENT_NEW_MESSAGE (StreamMessage id stream_id subject _) =>
      P (idsAt state stream_id subject ++ [id])
  | EVENT_UPDATE_MESSAGE_FLAGS _ _ op messages (Some message_details) =>
      op = "remove" →
      ∀ a b, routed_to message_details a b messages ≠ [] →
        P (two_pointer_merge (idsAt state a b)
             (merge_sort Z.le (routed_to message_details a b messages)))
  | EVENT_UPDATE_MESSAGE message_ids (Some move) =>
      matching_ids state message_ids move ≠ [] →
      P (merge_sort Z.le
           ((if decide (new_stream_id move = orig_stream_id move
                        ∧ new_topic move = orig_topic move)
             then remaining_ids state message_ids move
             else idsAt state (new_stream_id move) (new_topic move))
            ++ matching_ids state message_ids move))
  | _ => True
  end.

(** * Proofs *)

(** ** Reasoning about computations *)

Lemma returns_ret {A} (a : A) (Q : A → Prop) : Q a → returns (ret a) Q.
Proof. intros HQ h. by exists a, h. Qed.

Lemma returns_bind {A B} (m : M A) (f : A → M B) (P : A → Prop) (Q : B → Prop) :
  returns m P → (∀ a, P a → returns (f a) Q) → returns (bind m f) Q.
Proof.
  intros Hm Hf h. destruct (Hm h) as (a & h1 & E1 & L1 & Pa).
  destruct (Hf a Pa h1) as (b & h2 & E2 & L2 & Qb).
  exists b, h2. unfold bind. rewrite E1. split; [done|]. split; [congruence|done].
Qed.

Lemma returns_mono {A} (m : M A) (P Q : A → Prop) :
  returns m P → (∀ a, P a → Q a) → returns m Q.
Proof.
  intros Hm HPQ h. destruct (Hm h) as (a & h1 & E1 & L1 & Pa). exists a, h1. auto.
Qed.

Lemma returns_fresh : returns fresh (λ _, True).
Proof. intros h. by exists (next h), (mkHeap (N.succ (next h)) (log h)). Qed.

Lemma returns_run {A} (m : M A) (Q : A → Prop) h a h' :
  returns m Q → m h = Ok a h' → Q a ∧ log h' = log h.
Proof.
  intros Hm E. destruct (Hm h) as (a1 & h1 & E1 & L1 & Qa). rewrite E in E1.
  by simplify_eq.
Qed.

(** The loop rule: [Inv done acc] holds of the accumulator once the
    elements [done] have been handled. *)
Lemma returns_foldM {X Acc} (f : X → Acc → M Acc) (Inv : list X → Acc → Prop)
    (l : list X) (acc : Acc) :
  Inv [] acc →
  (∀ done x rest a, l = done ++ x :: rest → Inv done a →
     returns (f x a) (Inv (done ++ [x]))) →
  returns (foldM f l acc) (Inv l).
Proof.
  intros H0 Hstep.
  cut (∀ rest done a, l = done ++ rest → Inv done a → returns (foldM f rest a) (Inv l)).
  { intros Hgen. by apply (Hgen l [] acc). }
  induction rest as [|x rest IH]; intros done a El Ha; simpl.
  - apply returns_ret. by rewrite El, app_nil_r.
  - eapply returns_bind; [by eapply Hstep|].
    intros a' Ha'. apply (IH (done ++ [x])); [|done]. by rewrite <- app_assoc.
Qed.

Lemma returns_mapM {X Y} (f : X → M Y) (R : X → Y → Prop) (l : list X) :
  (∀ x, x ∈ l → returns (f x) (R x)) →
  returns (mapM f l) (Forall2 R l).
Proof.
  induction l as [|x l IH]; intros Hf; simpl.
  - by apply returns_ret.
  - eapply returns_bind; [apply Hf; left|]. intros y Hy.
    eapply returns_bind; [apply IH; intros; apply Hf; by right|].
    intros ys Hys. apply returns_ret. by constructor.
Qed.

(** ** [setUnion] computes the two-pointer merge *)

Lemma two_pointer_merge_nil_r xs : two_pointer_merge xs [] = xs.
Proof. by destruct xs. Qed.

Lemma two_pointer_merge_nil_l ys : two_pointer_merge [] ys = ys.
Proof. by destruct ys. Qed.

Lemma two_pointer_merge_cons x xs y ys :
  two_pointer_merge (x :: xs) (y :: ys) =
    if decide (x < y) then x :: two_pointer_merge xs (y :: ys)
    else if decide (x ≠ y) then y :: two_pointer_merge (x :: xs) ys
    else x :: two_pointer_merge xs ys.
Proof. done. Qed.

Lemma while_x_spec xs fuel : ∀ i0 res jj yy,
  (length (items xs) - i0 < fuel)%nat →
  ∃ i', while_x fuel xs (mkCursor (S i0) (items xs !! i0) jj yy res)
        = Some (mkCursor i' None jj yy (res ++ drop i0 (items xs))).
Proof.
  induction fuel as [|fuel IH]; intros i0 res jj yy Hfuel; [lia|].
  simpl. destruct (items xs !! i0) as [xv|] eqn:E.
  - apply lookup_lt_Some in E as Hlt.
    destruct (IH (S i0) (res ++ [xv]) jj yy) as [i' Hi']; [lia|].
    exists i'. unfold get_at. rewrite Hi'. f_equal. f_equal.
    rewrite (drop_S _ _ _ E), <- app_assoc. done.
  - exists (S i0). apply lookup_ge_None in E. rewrite drop_ge, app_nil_r; [done|lia].
Qed.

Lemma while_y_spec ys fuel : ∀ j0 res ii xx,
  (length (items ys) - j0 < fuel)%nat →
  ∃ j', while_y fuel ys (mkCursor ii xx (S j0) (items ys !! j0) res)
        = Some (mkCursor ii xx j' None (res ++ drop j0 (items ys))).
Proof.
  induction fuel as [|fuel IH]; intros j0 res ii xx Hfuel; [lia|].
  simpl. destruct (items ys !! j0) as [yv|] eqn:E.
  - apply lookup_lt_Some in E as Hlt.
    destruct (IH (S j0) (res ++ [yv]) ii xx) as [j' Hj']; [lia|].
    exists j'. unfold get_at. rewrite Hj'. f_equal. f_equal.
    rewrite (drop_S _ _ _ E), <- app_assoc. done.
  - exists (S j0). apply lookup_ge_None in E. rewrite drop_ge, app_nil_r; [done|lia].
Qed.

Lemma while_both_spec xs ys fuel : ∀ i0 j0 res,
  ((length (items xs) - i0) + (length (items ys) - j0) < fuel)%nat →
  ∃ i1 j1 res1,
    while_both fuel xs ys (cursor_at xs ys i0 j0 res) = Some (cursor_at xs ys i1 j1 res1)
    ∧ (items xs !! i1 = None ∨ items ys !! j1 = None)
    ∧ res1 ++ two_pointer_merge (drop i1 (items xs)) (drop j1 (items ys))
      = res ++ two_pointer_merge (drop i0 (items xs)) (drop j0 (items ys))
    ∧ (i0 ≤ i1)%nat ∧ (j0 ≤ j1)%nat.
Proof.
  induction fuel as [|fuel IH]; intros i0 j0 res Hfuel; [lia|].
  unfold cursor_at in *. simpl.
  destruct (items xs !! i0) as [xv|] eqn:Ex;
    [|exists i0, j0, res; rewrite Ex; auto 10].
  destruct (items ys !! j0) as [yv|] eqn:Ey;
    [|exists i0, j0, res; rewrite Ex, Ey; auto 10].
  apply lookup_lt_Some in Ex as Hi. apply lookup_lt_Some in Ey as Hj.
  rewrite (drop_S _ _ _ Ex), (drop_S _ _ _ Ey), two_pointer_merge_cons.
  unfold get_at. repeat case_decide.
  - destruct (IH (S i0) j0 (res ++ [xv])) as (i1 & j1 & r1 & E & Hend & Hres & ? & ?); [lia|].
    rewrite Ey in E. exists i1, j1, r1. rewrite E, Hres, (drop_S _ _ _ Ey), <- app_assoc.
    repeat split; auto with lia.
  - destruct (IH i0 (S j0) (res ++ [yv])) as (i1 & j1 & r1 & E & Hend & Hres & ? & ?); [lia|].
    rewrite Ex in E. exists i1, j1, r1. rewrite E, Hres, (drop_S _ _ _ Ex), <- app_assoc.
    repeat split; auto with lia.
  - destruct (IH (S i0) (S j0) (res ++ [xv])) as (i1 & j1 & r1 & E & Hend & Hres & ? & ?); [lia|].
    exists i1, j1, r1. rewrite E, Hres, <- app_assoc.
    repeat split; auto with lia.
Qed.

(** With the fuel [setUnion] is given, the loops run to their end. *)
Lemma setUnion_array_merge xs ys :
  setUnion_array (setUnion_fuel xs ys) xs ys
  = Some (two_pointer_merge (items xs) (items ys)).
Proof.
  unfold setUnion_array, setUnion_fuel, size, get_at.
  set (fuel := S (length (items xs) + length (items ys))).
  assert (Hfuel : (length (items xs) + length (items ys) < fuel)%nat) by (unfold fuel; lia).
  clearbody fuel.
  destruct (while_both_spec xs ys fuel 0 0 [])
    as (i1 & j1 & r1 & E & Hend & Hres & _ & _); [lia|].
  unfold cursor_at in E. rewrite E. simpl.
  destruct (while_x_spec xs fuel i1 r1 (S j1) (items ys !! j1)) as [i' Ex]; [lia|].
  rewrite Ex. simpl.
  destruct (while_y_spec ys fuel j1 (r1 ++ drop i1 (items xs)) i' None) as [j' Ey]; [lia|].
  rewrite Ey. simpl. f_equal. etrans; [|exact Hres].
  destruct Hend as [Hend|Hend]; apply lookup_ge_None in Hend.
  - rewrite (drop_ge (items xs)), two_pointer_merge_nil_l by lia. by rewrite app_nil_r.
  - rewrite (drop_ge (items ys)), two_pointer_merge_nil_r, app_nil_r by lia. done.
Qed.

Lemma returns_List_of xs :
  returns (List_of xs) (λ r, items r = xs ∧ (xs = [] → r = emptyList)).
Proof.
  destruct xs as [|x xs]; simpl.
  - by apply returns_ret.
  - eapply returns_bind; [apply returns_fresh|]. intros t _. by apply returns_ret.
Qed.

Lemma returns_setUnion xs ys :
  returns (setUnion xs ys) (λ r, items r = two_pointer_merge (items xs) (items ys)).
Proof.
  unfold setUnion. rewrite setUnion_array_merge.
  eapply returns_mono; [apply returns_List_of|]. by intros r [? _].
Qed.

(** ** Properties of the merge *)

Lemma elem_of_two_pointer_merge xs : ∀ ys z,
  z ∈ two_pointer_merge xs ys ↔ z ∈ xs ∨ z ∈ ys.
Proof.
  induction xs as [|x xs IHx]; intros ys z.
  - rewrite two_pointer_merge_nil_l, elem_of_nil. tauto.
  - induction ys as [|y ys IHy].
    + rewrite two_pointer_merge_nil_r, elem_of_nil. tauto.
    + rewrite two_pointer_merge_cons. repeat case_decide.
      * rewrite elem_of_cons, IHx, !elem_of_cons. tauto.
      * rewrite elem_of_cons, IHy, !elem_of_cons. tauto.
      * assert (x = y) by lia. subst. rewrite elem_of_cons, IHx, !elem_of_cons. tauto.
Qed.

Lemma ascending_cons x l : ascending (x :: l) ↔ Forall (Z.lt x) l ∧ ascending l.
Proof.
  unfold ascending. split.
  - intros H. by apply StronglySorted_inv in H as [? ?].
  - intros [? ?]. by constructor.
Qed.

Lemma ascending_two_pointer_merge xs : ∀ ys,
  ascending xs → ascending ys → ascending (two_pointer_merge xs ys).
Proof.
  induction xs as [|x xs IHx]; intros ys Hxs Hys.
  - by rewrite two_pointer_merge_nil_l.
  - induction ys as [|y ys IHy].
    + by rewrite two_pointer_merge_nil_r.
    + apply ascending_cons in Hxs as [Hx Hxs']. apply ascending_cons in Hys as [Hy Hys'].
      rewrite Forall_forall in Hx, Hy.
      rewrite two_pointer_merge_cons. repeat case_decide; apply ascending_cons.
      * split; [|apply IHx; [done|by apply ascending_cons; rewrite Forall_forall]].
        apply Forall_forall. intros z Hz. apply elem_of_two_pointer_merge in Hz.
        rewrite elem_of_cons in Hz. destruct Hz as [Hz|[->|Hz]]; [auto|lia|].
        apply Hy in Hz. lia.
      * split; [|by apply IHy].
        apply Forall_forall. intros z Hz. apply elem_of_two_pointer_merge in Hz.
        rewrite elem_of_cons in Hz. destruct Hz as [[->|Hz]|Hz]; [lia| |auto].
        apply Hx in Hz. lia.
      * assert (x = y) by lia. subst y. split; [|by apply IHx].
        apply Forall_forall. intros z Hz. apply elem_of_two_pointer_merge in Hz.
        destruct Hz; auto.
Qed.

Lemma two_pointer_merge_diag xs : two_pointer_merge xs xs = xs.
Proof.
  induction xs as [|x xs IH]; [done|].
  rewrite two_pointer_merge_cons. repeat case_decide; try lia. by rewrite IH.
Qed.

Lemma ascending_NoDup l : ascending l → NoDup l.
Proof.
  induction l as [|x l IH]; intros H; [constructor|].
  apply ascending_cons in H as [Hx Hl]. constructor; [|auto].
  intros Hin. rewrite Forall_forall in Hx. specialize (Hx x Hin). lia.
Qed.

Lemma ascending_Sorted l : ascending l ↔ Sorted Z.lt l.
Proof.
  split; [apply StronglySorted_Sorted|]. apply Sorted_StronglySorted. intros ???; lia.
Qed.

(** ** What the Immutable.js operations return *)

Lemma returns_push l vs : returns (push l vs) (λ r, items r = items l ++ vs).
Proof.
  destruct vs as [|v vs]; simpl.
  - apply returns_ret. by rewrite app_nil_r.
  - eapply returns_mono; [apply returns_List_of|]. by intros r [? _].
Qed.

Lemma returns_filter pred l :
  returns (filter_ pred l)
    (λ r, items r = filter (λ id, pred id = true) (items l) ∧ (items r = [] → r = emptyList)).
Proof.
  eapply returns_mono; [apply returns_List_of|]. intros r [E1 E2]. split; [done|].
  intros E. apply E2. by rewrite <- E1.
Qed.

Lemma returns_sort l :
  returns (sort l)
    (λ r, items r = merge_sort Z.le (items l) ∧ (items r = [] → r = emptyList)).
Proof.
  eapply returns_mono; [apply returns_List_of|]. intros r [E1 E2]. split; [done|].
  intros E. apply E2. by rewrite <- E1.
Qed.

Section map_facts.
Context `{Countable K} `{EqDecision V}.
Implicit Types (m : Map K V) (mm : MapMut K V) (e : gmap K V).

Lemma returns_Map_of e :
  returns (Map_of e) (λ r, entries r = e ∧ (e = ∅ → r = emptyMap)).
Proof.
  unfold Map_of. case_decide as He.
  - apply returns_ret. by subst.
  - eapply returns_bind; [apply returns_fresh|]. intros t _. by apply returns_ret.
Qed.

Lemma returns_set m k v :
  returns (set m k v) (λ r, entries r = <[k := v]> (entries m)).
Proof.
  unfold set. case_decide as He.
  - apply returns_ret. by rewrite insert_id.
  - eapply returns_mono; [apply returns_Map_of|]. by intros r [? _].
Qed.

Lemma returns_delete m k :
  returns (delete_ m k)
    (λ r, entries r = delete k (entries m) ∧ kept_or_built m r).
Proof.
  unfold delete_, kept_or_built. destruct (entries m !! k) eqn:E.
  - eapply returns_mono; [apply returns_Map_of|]. intros r [E1 E2].
    split; [done|]. right. intros E'. apply E2. by rewrite <- E1.
  - apply returns_ret. split; [|by left]. by rewrite delete_id.
Qed.

Lemma mut_step_refl mm : mut_step mm mm.
Proof. by intros ?. Qed.

Lemma mut_step_trans mm1 mm2 mm3 : mut_step mm1 mm2 → mut_step mm2 mm3 → mut_step mm1 mm3.
Proof.
  intros H12 H23 H3. destruct (H23 H3) as [H2 E23]. destruct (H12 H2) as [H1 E12].
  split; [done|congruence].
Qed.

Lemma mut_set_entries mm k v : mut_entries (mut_set mm k v) = <[k := v]> (mut_entries mm).
Proof. unfold mut_set. case_decide; [by rewrite insert_id|done]. Qed.

Lemma mut_set_step mm k v : mut_step mm (mut_set mm k v).
Proof. unfold mut_set. case_decide; [apply mut_step_refl|by intros ?]. Qed.

Lemma mut_delete_entries mm k : mut_entries (mut_delete mm k) = delete k (mut_entries mm).
Proof. unfold mut_delete. destruct (_ !! k) eqn:E; [done|by rewrite delete_id]. Qed.

Lemma mut_delete_step mm k : mut_step mm (mut_delete mm k).
Proof. unfold mut_delete. destruct (_ !! k); [by intros ?|apply mut_step_refl]. Qed.

Lemma returns_withMutations m fn (Q : gmap K V → Prop) :
  returns (fn (mkMut (entries m) false))
    (λ mm, mut_step (mkMut (entries m) false) mm ∧ Q (mut_entries mm)) →
  returns (withMutations m fn) (λ r, Q (entries r) ∧ kept_or_built m r).
Proof.
  intros Hfn. unfold withMutations, kept_or_built.
  eapply returns_bind; [exact Hfn|]. intros mm [Hstep HQ].
  destruct (altered mm) eqn:Ea.
  - eapply returns_mono; [apply returns_Map_of|]. intros r [E1 E2].
    split; [by rewrite E1|]. right. intros E'. apply E2. by rewrite <- E1.
  - apply returns_ret. destruct (Hstep Ea) as [_ E]. simpl in E.
    split; [by rewrite <- E|by left].
Qed.
End map_facts.

(** A loop over the entries of [src] whose body changes the mutable copy at
    the key it is called with only: afterwards every key of [src] is related
    by [T] to what was there before, every other key is as before. *)
Lemma returns_forEach_pointwise `{Countable K} `{EqDecision V} {V'}
    (src : Map K V') (f : V' → K → MapMut K V → M (MapMut K V))
    (T : K → V' → option V → option V → Prop) (mm0 : MapMut K V) :
  (∀ k v mm, entries src !! k = Some v →
     mut_entries mm !! k = mut_entries mm0 !! k →
     returns (f v k mm) (λ mm',
       mut_step mm mm'
       ∧ T k v (mut_entries mm !! k) (mut_entries mm' !! k)
       ∧ ∀ k', k' ≠ k → mut_entries mm' !! k' = mut_entries mm !! k')) →
  returns (forEach src f mm0) (λ mm',
    mut_step mm0 mm'
    ∧ ∀ k, match entries src !! k with
           | Some v => T k v (mut_entries mm0 !! k) (mut_entries mm' !! k)
           | None => mut_entries mm' !! k = mut_entries mm0 !! k
           end).
Proof.
  intros Hf. unfold forEach.
  pose proof (NoDup_fst_map_to_list (entries src)) as Hnd.
  set (Inv := λ (done : list (K * V')) (mm : MapMut K V),
    mut_step mm0 mm
    ∧ ∀ k, (∀ v, (k, v) ∈ done → T k v (mut_entries mm0 !! k) (mut_entries mm !! k))
           ∧ (k ∉ done.*1 → mut_entries mm !! k = mut_entries mm0 !! k)).
  eapply returns_mono.
  - apply (returns_foldM _ Inv).
    + split; [apply mut_step_refl|]. intros k. split; [|done].
      intros v Hin. by apply elem_of_nil in Hin.
    + intros done [k v] rest mm El [Hstep Hinv]. simpl.
      rewrite El, fmap_app, fmap_cons in Hnd. simpl in Hnd.
      apply NoDup_app in Hnd as (Hnd1 & Hnd2 & Hnd3).
      assert (Hk : k ∉ done.*1).
      { intros Hin. apply (Hnd2 k Hin). left. }
      assert (Hsrc : entries src !! k = Some v).
      { apply elem_of_map_to_list. rewrite El. apply elem_of_app. right. left. }
      destruct (Hinv k) as [_ Hsame]. specialize (Hsame Hk).
      eapply returns_mono; [by apply Hf|].
      intros mm' (Hstep' & HT & Hother). split; [by eapply mut_step_trans|].
      intros k'. split.
      * intros v' Hin. apply elem_of_app in Hin as [Hin|Hin].
        -- assert (k' ≠ k).
           { intros ->. apply Hk. apply list_elem_of_fmap. by exists (k, v'). }
           rewrite Hother by done. by apply Hinv.
        -- apply list_elem_of_singleton in Hin. simplify_eq.
           by rewrite <- Hsame.
      * intros Hnot. rewrite fmap_app, elem_of_app in Hnot. simpl in Hnot.
        assert (k' ≠ k) by (intros ->; apply Hnot; right; left).
        rewrite Hother by done. apply Hinv. tauto.
  - intros mm' [Hstep Hinv]. split; [done|]. intros k.
    destruct (entries src !! k) as [v|] eqn:E.
    + apply Hinv. by apply elem_of_map_to_list.
    + apply Hinv. intros Hin. apply list_elem_of_fmap in Hin as ([k' v] & -> & Hin).
      apply elem_of_map_to_list in Hin. simpl in E. congruence.
Qed.

Section helper_facts.
Context `{Countable K} `{EqDecision V}.
Implicit Types (m : Map K V).

Lemma returns_updateAndPrune m zero k updater (R : V → Prop) :
  returns (updater (get m k)) R →
  returns (updateAndPrune m zero k updater) (λ r,
    kept_or_built m r
    ∧ ∃ v, R v
        ∧ entries r = if decide (v = zero) then delete k (entries m)
                      else <[k := v]> (entries m)).
Proof.
  intros Hup. unfold updateAndPrune.
  eapply returns_bind; [exact Hup|]. intros v Hv. simpl.
  destruct (decide (v = zero)) as [Hz|Hz].
  - eapply returns_mono; [apply returns_delete|]. intros r [E Hk].
    split; [done|]. exists v. by rewrite decide_True.
  - case_decide as Hsame.
    + apply returns_ret. split; [by left|]. exists v. rewrite decide_False by done.
      split; [done|]. unfold get in Hsame. by rewrite insert_id.
    + unfold set. rewrite decide_False by (unfold get in Hsame; congruence).
      eapply returns_mono; [apply returns_Map_of|]. intros r [E1 E2].
      split; [right; intros E'; apply E2; by rewrite <- E1|].
      exists v. by rewrite decide_False.
Qed.

Lemma returns_updateAllAndPrune m zero updater (R : V → V → Prop) :
  (∀ k v, entries m !! k = Some v → returns (updater v) (R v)) →
  returns (updateAllAndPrune m zero updater) (λ r,
    (∀ k, match entries m !! k with
          | Some v => ∃ v', R v v'
              ∧ entries r !! k = if decide (v' = zero) then None else Some v'
          | None => entries r !! k = None
          end)
    ∧ kept_or_built m r).
Proof.
  intros Hup. unfold updateAllAndPrune.
  apply (returns_withMutations m _ (λ e, ∀ k,
    match entries m !! k with
    | Some v => ∃ v', R v v' ∧ e !! k = if decide (v' = zero) then None else Some v'
    | None => e !! k = None
    end)).
  eapply returns_mono.
  - apply (returns_forEach_pointwise m _
      (λ k v old new, old = Some v →
         ∃ v', R v v' ∧ new = if decide (v' = zero) then None else Some v')).
    intros k v mm Hk _. eapply returns_bind; [by eapply Hup|]. intros v' Hv'. simpl.
    destruct (decide (v' = zero)) as [Hz|Hz]; [|case_decide as Hsame].
    + apply returns_ret. split; [apply mut_delete_step|]. rewrite mut_delete_entries.
      split.
      * intros _. exists v'. rewrite decide_True by done. by rewrite lookup_delete_eq.
      * intros k' Hne. by rewrite lookup_delete_ne.
    + apply returns_ret. split; [apply mut_step_refl|]. split; [|done].
      intros Hold. exists v'. rewrite decide_False by done. by subst v'.
    + apply returns_ret. split; [apply mut_set_step|]. rewrite mut_set_entries.
      split.
      * intros _. exists v'. rewrite decide_False by done. by rewrite lookup_insert_eq.
      * intros k' Hne. by rewrite lookup_insert_ne.
  - intros mm [Hstep Hall]. split; [done|]. intros k. specialize (Hall k). simpl in Hall.
    destruct (entries m !! k) as [v|] eqn:E; [by apply Hall|done].
Qed.

Lemma returns_map m mapper (R : V → V → Prop) :
  (∀ k v, entries m !! k = Some v → returns (mapper v) (R v)) →
  returns (map_ m mapper) (λ r,
    (∀ k, match entries m !! k with
          | Some v => ∃ v', R v v' ∧ entries r !! k = Some v'
          | None => entries r !! k = None
          end)
    ∧ kept_or_built m r).
Proof.
  intros Hmap. unfold map_.
  apply (returns_withMutations m _ (λ e, ∀ k,
    match entries m !! k with
    | Some v => ∃ v', R v v' ∧ e !! k = Some v'
    | None => e !! k = None
    end)).
  eapply returns_mono.
  - apply (returns_forEach_pointwise m _ (λ k v old new, ∃ v', R v v' ∧ new = Some v')).
    intros k v mm Hk _. eapply returns_bind; [by eapply Hmap|]. intros v' Hv'. simpl.
    apply returns_ret. split; [apply mut_set_step|]. rewrite mut_set_entries. split.
    + exists v'. by rewrite lookup_insert_eq.
    + intros k' Hne. by rewrite lookup_insert_ne.
  - intros mm [Hstep Hall]. split; [done|]. intros k. specialize (Hall k). simpl in Hall.
    by destruct (entries m !! k).
Qed.

Lemma returns_mergeWith m merger other (R : V → V → V → Prop) :
  (∀ k a b, entries m !! k = Some a → entries other !! k = Some b →
     returns (merger a b) (R a b)) →
  returns (mergeWith m merger other) (λ r,
    (∀ k, match entries m !! k, entries other !! k with
          | o, None => entries r !! k = o
          | None, Some b => entries r !! k = Some b
          | Some a, Some b => ∃ c, R a b c ∧ entries r !! k = Some c
          end)
    ∧ (r = m ∨ r = other ∨ entries r ≠ ∅)).
Proof.
  intros Hmerge. unfold mergeWith.
  destruct (decide (entries other = ∅)) as [Ho|Ho].
  { apply returns_ret. split; [|by left]. intros k. rewrite Ho, lookup_empty.
    by destruct (entries m !! k). }
  destruct (decide (entries m = ∅)) as [Hm|Hm].
  { apply returns_ret. split; [|by right; left]. intros k. rewrite Hm, lookup_empty.
    by destruct (entries other !! k). }
  eapply returns_mono.
  - apply (returns_withMutations m _ (λ e, ∀ k,
      match entries m !! k, entries other !! k with
      | o, None => e !! k = o
      | None, Some b => e !! k = Some b
      | Some a, Some b => ∃ c, R a b c ∧ e !! k = Some c
      end)).
    eapply returns_mono.
    + apply (returns_forEach_pointwise other _
        (λ k b old new, old = entries m !! k →
           match old with
           | None => new = Some b
           | Some a => ∃ c, R a b c ∧ new = Some c
           end)).
      intros k b mm Hk Hsame. simpl in Hsame.
      destruct (mut_entries mm !! k) as [a|] eqn:Ea.
      * eapply returns_bind; [by eapply Hmerge|]. intros c Hc. simpl.
        apply returns_ret. split; [apply mut_set_step|]. rewrite mut_set_entries.
        split; [|by intros k' Hne; rewrite lookup_insert_ne].
        intros _. exists c. by rewrite lookup_insert_eq.
      * apply returns_ret. split; [apply mut_set_step|]. rewrite mut_set_entries.
        split; [|by intros k' Hne; rewrite lookup_insert_ne].
        intros _. by rewrite lookup_insert_eq.
    + intros mm [Hstep Hall]. split; [done|]. intros k. specialize (Hall k).
      simpl in Hall. destruct (entries other !! k) as [b|] eqn:Eb.
      * specialize (Hall eq_refl). by destruct (entries m !! k).
      * by destruct (entries m !! k).
  - intros r [Hall Hk]. split; [done|]. destruct Hk as [->|Hk]; [by left|].
    right; right. intros He.
    apply map_choose in Hm as (k & a & Hka). specialize (Hall k). rewrite Hka in Hall.
    rewrite He in Hall. destruct (entries other !! k); [destruct Hall as (? & _ & ?)|];
      by rewrite lookup_empty in *.
Qed.
End helper_facts.

Lemma returns_updateIn `{Countable K1} `{Countable K2} `{EqDecision V}
    (m : Map K1 (Map K2 V)) k1 k2 notSetValue updater (R : V → Prop) :
  let existing := get m k1 ≫= (λ inner, get inner k2) in
  returns (updater (match existing with Some v => Some v | None => notSetValue end)) R →
  (∀ v, R v → existing = None → Some v ≠ notSetValue) →
  returns (updateIn m k1 k2 notSetValue updater) (λ r, ∃ v inner',
    R v
    ∧ entries r = <[k1 := inner']> (entries m)
    ∧ entries inner' = <[k2 := v]> (entries (default emptyMap (get m k1)))).
Proof.
  intros existing Hup Hns. unfold updateIn. fold existing.
  eapply returns_bind; [exact Hup|]. intros v Hv. simpl.
  case_decide as Hsame.
  - apply returns_ret. pose proof (eq_refl : existing = _) as Eex. unfold existing at 2 in Eex.
    destruct existing as [v0|]; [|by destruct (Hns v Hv)].
    simplify_eq.
    destruct (get m k1) as [inner|] eqn:E1; [|done]. simpl in Eex.
    exists v0, inner. unfold get in *. by rewrite !insert_id.
  - eapply returns_bind; [apply returns_set|]. intros inner' Hinner'. simpl.
    case_decide as Hsame1.
    + apply returns_ret. exists v, inner'. split; [done|]. split; [|done].
      unfold get in Hsame1. by rewrite insert_id.
    + eapply returns_mono; [apply returns_set|]. intros r Hr. by exists v, inner'.
Qed.

(** ** Reading the index *)

Lemma idsAt_eq state streamId topic :
  idsAt state streamId topic
  = items (default emptyList (get (default emptyMap (get state streamId)) topic)).
Proof.
  unfold idsAt, getIn. destruct (get state streamId) as [perStream|]; simpl; [done|].
  unfold get. simpl. by rewrite lookup_empty.
Qed.

Lemma idsAt_Some state streamId perStream topic perTopic :
  get state streamId = Some perStream → get perStream topic = Some perTopic →
  idsAt state streamId topic = items perTopic.
Proof. intros E1 E2. unfold idsAt, getIn. rewrite E1. simpl. by rewrite E2. Qed.

Lemma idsAt_no_stream state streamId topic :
  get state streamId = None → idsAt state streamId topic = [].
Proof. intros E1. unfold idsAt, getIn. by rewrite E1. Qed.

Lemma idsAt_no_topic state streamId perStream topic :
  get state streamId = Some perStream → get perStream topic = None →
  idsAt state streamId topic = [].
Proof. intros E1 E2. unfold idsAt, getIn. rewrite E1. simpl. by rewrite E2. Qed.

Lemma idsAt_initial streamId topic : idsAt initialStreamsState streamId topic = [].
Proof. by apply idsAt_no_stream. Qed.

Lemma all_lists_initial P : all_lists P initialStreamsState.
Proof. intros a tm b l Ha. unfold get in Ha. simpl in Ha. by rewrite lookup_empty in Ha. Qed.

Lemma no_empty_stream_initial : no_empty_stream initialStreamsState.
Proof. intros a tm Ha. unfold get in Ha. simpl in Ha. by rewrite lookup_empty in Ha. Qed.

(** ** Setting the list of one topic: [updateIn] on the index *)

Lemma put_at_idsAt state streamId topic perTopic state' a b :
  put_at state streamId topic perTopic state' →
  idsAt state' a b
  = if decide (a = streamId ∧ b = topic) then items perTopic else idsAt state a b.
Proof.
  intros (tm' & Es & Etm). rewrite !idsAt_eq. unfold get. rewrite Es.
  destruct (decide (a = streamId)) as [->|Ha].
  - rewrite lookup_insert_eq. simpl. rewrite Etm.
    destruct (decide (b = topic)) as [->|Hb].
    + rewrite lookup_insert_eq. simpl. by rewrite decide_True.
    + rewrite lookup_insert_ne by done. rewrite decide_False by tauto. done.
  - rewrite lookup_insert_ne by done. rewrite decide_False by tauto. done.
Qed.

Lemma put_at_all_lists P state streamId topic perTopic state' :
  put_at state streamId topic perTopic state' →
  all_lists P state → P (items perTopic) → all_lists P state'.
Proof.
  intros (tm' & Es & Etm) Hall HP a tm b l Ha Hb. unfold get in Ha, Hb. rewrite Es in Ha.
  destruct (decide (a = streamId)) as [->|Hne].
  - rewrite lookup_insert_eq in Ha. simplify_eq. rewrite Etm in Hb.
    destruct (decide (b = topic)) as [->|Hnb].
    + rewrite lookup_insert_eq in Hb. by simplify_eq.
    + rewrite lookup_insert_ne in Hb by done.
      destruct (get state streamId) as [tm0|] eqn:E0; simpl in Hb.
      * by eapply Hall.
      * by rewrite lookup_empty in Hb.
  - rewrite lookup_insert_ne in Ha by done. by eapply Hall.
Qed.

Lemma put_at_no_empty_stream state streamId topic perTopic state' :
  put_at state streamId topic perTopic state' →
  no_empty_stream state → no_empty_stream state'.
Proof.
  intros (tm' & Es & Etm) Hne a tm Ha. unfold get in Ha. rewrite Es in Ha.
  destruct (decide (a = streamId)) as [->|Hna].
  - rewrite lookup_insert_eq in Ha. simplify_eq. rewrite Etm. apply insert_non_empty.
  - rewrite lookup_insert_ne in Ha by done. by eapply Hne.
Qed.

(** [updateIn] with an updater that pushes onto the list it is given. *)
Lemma returns_updateIn_put (state : UnreadStreamsState) streamId topic notSetValue
    updater (R : List → Prop) :
  returns (updater (match get state streamId ≫= (λ inner, get inner topic) with
                    | Some v => Some v
                    | None => notSetValue
                    end)) (λ r, R r ∧ items r ≠ []) →
  (notSetValue = None ∨ notSetValue = Some emptyList) →
  returns (updateIn state streamId topic notSetValue updater) (λ state',
    ∃ perTopic, R perTopic ∧ put_at state streamId topic perTopic state').
Proof.
  intros Hup Hns.
  eapply returns_mono.
  - eapply (returns_updateIn state streamId topic notSetValue updater); [exact Hup|].
    intros v [_ Hv] _ E. destruct Hns as [->| ->]; [done|]. by simplify_eq.
  - intros r (v & inner' & [HR _] & E1 & E2). exists v. split; [done|]. by exists inner'.
Qed.

(** ** [deleteMessagesIn] *)

Lemma returns_deleteMessagesIn state streamId topic ids :
  returns (deleteMessagesIn state streamId topic ids) (λ state',
    (∀ a b, idsAt state' a b
            = if decide (a = streamId ∧ b = topic)
              then filter (λ id, negb (has ids id) = true) (idsAt state a b)
              else idsAt state a b)
    ∧ (∀ P, filter_closed P → all_lists P state → all_lists P state')
    ∧ (no_empty_stream state → no_empty_stream state')).
Proof.
  unfold deleteMessagesIn.
  set (tm0 := default emptyMap (get state streamId)).
  set (l0 := default emptyList (get tm0 topic)).
  assert (Hl0 : items l0 = idsAt state streamId topic) by (by rewrite idsAt_eq).
  eapply returns_mono.
  { apply returns_updateAndPrune. fold tm0. apply returns_updateAndPrune. fold l0.
    apply returns_filter. }
  intros r (Hkr & tm' & (Hktm & l' & [El' Hl'] & Etm') & Er). rewrite Hl0 in El'.
  assert (Htm0 : ∀ b l, entries tm0 !! b = Some l → get state streamId = Some tm0).
  { intros b l Hb. unfold tm0 in *. destruct (get state streamId); [done|].
    simpl in Hb. by rewrite lookup_empty in Hb. }
  assert (Hl'' : l' ≠ emptyList → items l' ≠ []) by (intros Hn Hi; auto).
  assert (Etm : ∀ b, entries tm' !! b
                     = if decide (b = topic)
                       then (if decide (l' = emptyList) then None else Some l')
                       else entries tm0 !! b).
  { intros b. rewrite Etm'. destruct (decide (l' = emptyList)), (decide (b = topic)); subst;
      by rewrite ?lookup_delete_eq, ?lookup_delete_ne, ?lookup_insert_eq, ?lookup_insert_ne. }
  assert (Es : ∀ a, entries r !! a
                    = if decide (a = streamId)
                      then (if decide (tm' = emptyMap) then None else Some tm')
                      else entries state !! a).
  { intros a. rewrite Er. destruct (decide (tm' = emptyMap)), (decide (a = streamId)); subst;
      by rewrite ?lookup_delete_eq, ?lookup_delete_ne, ?lookup_insert_eq, ?lookup_insert_ne. }
  clear Etm' Er.
  split; [|split].
  - intros a b. rewrite (idsAt_eq r). unfold get. rewrite Es.
    destruct (decide (a = streamId)) as [->|Ha].
    2:{ rewrite (decide_False (P := _ ∧ _)) by tauto. by rewrite idsAt_eq. }
    assert (Hgoal : items (default emptyList (entries tm' !! b))
                    = if decide (streamId = streamId ∧ b = topic)
                      then filter (λ id, negb (has ids id) = true) (idsAt state streamId b)
                      else idsAt state streamId b).
    { rewrite Etm. destruct (decide (b = topic)) as [->|Hb].
      - rewrite (decide_True (P := _ ∧ _)) by done.
        destruct (decide (l' = emptyList)) as [->|Hz]; [by rewrite <- El'|done].
      - rewrite (decide_False (P := _ ∧ _)) by tauto. by rewrite idsAt_eq. }
    destruct (decide (tm' = emptyMap)) as [Hz|Hz]; [|done].
    simpl. rewrite lookup_empty. rewrite <- Hgoal. subst tm'. simpl. by rewrite lookup_empty.
  - intros P HP Hall a tm b l Ha Hb. unfold get in Ha, Hb. rewrite Es in Ha.
    destruct (decide (a = streamId)) as [->|Hna]; [|by eapply Hall].
    destruct (decide (tm' = emptyMap)) as [Hz|Hz]; [done|]. simplify_eq.
    rewrite Etm in Hb. destruct (decide (b = topic)) as [->|Hnb].
    + destruct (decide (l' = emptyList)) as [Hz'|Hz']; [done|]. simplify_eq.
      specialize (Hl'' Hz'). rewrite El' in *. apply HP; [|done].
      rewrite <- Hl0. unfold l0. destruct (get tm0 topic) as [l1|] eqn:E1.
      * simpl. eapply Hall; [|exact E1]. by eapply Htm0.
      * exfalso. apply Hl''. by rewrite <- Hl0.
    + eapply Hall; [by eapply Htm0|exact Hb].
  - intros Hne a tm Ha. unfold get in Ha. rewrite Es in Ha.
    destruct (decide (a = streamId)) as [->|Hna]; [|by eapply Hne].
    destruct (decide (tm' = emptyMap)) as [Hz|Hz]; [done|]. simplify_eq.
    destruct Hktm as [->|Hb]; [|by intros E; apply Hz, Hb].
    unfold tm0 in *. destruct (get state streamId) as [tm1|] eqn:E1; simpl in *.
    + by eapply Hne.
    + done.
Qed.

(** ** [deleteMessages] *)

Lemma returns_deleteMessages state ids :
  returns (deleteMessages state ids) (λ state',
    (∀ P, filter_closed P → all_lists P state → all_lists P state')
    ∧ (no_empty_stream state → no_empty_stream state')).
Proof.
  unfold deleteMessages.
  set (toDelete := has (list_to_set ids)).
  set (Rl := λ l l' : List,
    l' = l ∨ ∃ pred, items l' = filter (λ id, pred id = true) (items l)
                     ∧ (items l' = [] → l' = emptyList)).
  set (Rtm := λ tm tm' : Map string List,
    (∀ b, match entries tm !! b with
          | Some l => ∃ l', Rl l l'
              ∧ entries tm' !! b = if decide (l' = emptyList) then None else Some l'
          | None => entries tm' !! b = None
          end)
    ∧ kept_or_built tm tm').
  eapply returns_mono.
  { apply (returns_updateAllAndPrune state emptyMap _ Rtm). intros a tm Ha.
    apply (returns_updateAllAndPrune tm emptyList _ Rl). intros b l Hb.
    destruct (truthy _).
    - unfold filterNot. eapply returns_mono; [apply returns_filter|].
      intros l' Hl'. right. eexists. exact Hl'.
    - apply returns_ret. by left. }
  intros r [Hr _].
  assert (Hinv : ∀ a tmx, get r a = Some tmx →
            ∃ tm, get state a = Some tm ∧ Rtm tm tmx ∧ tmx ≠ emptyMap).
  { intros a tmx Ha. unfold get in *. specialize (Hr a).
    destruct (entries state !! a) as [tm|]; [|congruence].
    destruct Hr as (tm' & HR & E). rewrite E in Ha. case_decide; [done|].
    simplify_eq. by exists tm. }
  split.
  - intros P HP Hall a tmx b l Ha Hb. apply Hinv in Ha as (tm & Hs & [Htm _] & _).
    unfold get in Hb. specialize (Htm b).
    destruct (entries tm !! b) as [l_old|] eqn:Eold; [|congruence].
    destruct Htm as (l' & HRl & E). rewrite E in Hb. case_decide as Hz; [done|].
    simplify_eq. assert (HPold : P (items l_old)) by (by eapply Hall).
    destruct HRl as [->|(pred & Ei & He)]; [done|].
    rewrite Ei. apply HP; [done|]. rewrite <- Ei. intros Hi. by apply Hz, He.
  - intros Hne a tmx Ha. apply Hinv in Ha as (tm & Hs & [_ Hk] & Hz).
    destruct Hk as [->|Hk]; [by eapply Hne|]. intros E. by apply Hz, Hk.
Qed.

(** ** [registerComplete] *)

Section of_pairs.
Context `{Countable K} {V : Type}.
Implicit Types (pairs : list (K * V)) (e : gmap K V).

Lemma foldl_insert_lookup pairs : ∀ e k v,
  foldl (λ e kv, <[kv.1 := kv.2]> e) e pairs !! k = Some v →
  (k, v) ∈ pairs ∨ e !! k = Some v.
Proof.
  induction pairs as [|[k0 v0] pairs IH]; intros e k v Hl; simpl in *; [by right|].
  apply IH in Hl as [Hl|Hl]; [left; by right|].
  destruct (decide (k0 = k)) as [->|Hne].
  - rewrite lookup_insert_eq in Hl. simplify_eq. left. left.
  - rewrite lookup_insert_ne in Hl by done. by right.
Qed.

Lemma foldl_insert_non_empty pairs : ∀ e,
  e ≠ ∅ ∨ pairs ≠ [] → foldl (λ e kv, <[kv.1 := kv.2]> e) e pairs ≠ ∅.
Proof.
  induction pairs as [|[k0 v0] pairs IH]; intros e He; simpl.
  - by destruct He.
  - apply IH. left. apply insert_non_empty.
Qed.
End of_pairs.

Lemma Forall_getOrCreate_push {E} (Q : E → Prop) (byStream : list (Z * list E))
    stream_id entry :
  Forall (λ p, p.2 ≠ [] ∧ Forall Q p.2) byStream → Q entry →
  Forall (λ p, p.2 ≠ [] ∧ Forall Q p.2) (getOrCreate_push byStream stream_id entry).
Proof.
  intros Hall He. induction byStream as [|[k arr] rest IH]; simpl.
  - repeat constructor; done.
  - apply Forall_cons in Hall as [[Hne Harr] Hrest]. simpl in *. case_decide.
    + constructor; [|done]. simpl. split; [by destruct arr|].
      apply Forall_app. split; [done|]. by constructor.
    + constructor; [done|]. by apply IH.
Qed.

Lemma returns_registerComplete data :
  returns (registerComplete data) (λ state',
    no_empty_stream state'
    ∧ ∀ P, (∀ item, item ∈ data → P (unread_message_ids item)) → all_lists P state').
Proof.
  unfold registerComplete.
  set (Q := λ tl : string * List, ∃ item, item ∈ data ∧ items tl.2 = unread_message_ids item).
  eapply returns_bind.
  { apply (returns_foldM _ (λ _ byStream, Forall (λ p, p.2 ≠ [] ∧ Forall Q p.2) byStream)).
    - constructor.
    - intros done item rest byStream El Hinv.
      eapply returns_bind; [apply returns_List_of|]. intros l [Hl _]. simpl.
      apply returns_ret. apply Forall_getOrCreate_push; [done|].
      exists item. split; [|done]. rewrite El. apply elem_of_app. right. left. }
  intros byStream HbyStream. simpl.
  eapply returns_bind.
  { apply (returns_mapM _ (λ (entry : Z * list (string * List)) (res : Z * Map string List),
      entries res.2 ≠ ∅ ∧ ∀ b l, entries res.2 !! b = Some l → Q (b, l))).
    intros [k arr] Hin. rewrite Forall_forall in HbyStream.
    destruct (HbyStream _ Hin) as [Hne Harr]. simpl in *.
    unfold Map_ofPairs.
    eapply returns_bind; [apply returns_Map_of|]. intros tm [Etm _]. simpl.
    apply returns_ret. simpl. rewrite Etm. split.
    - apply foldl_insert_non_empty. by right.
    - intros b l Hb. apply foldl_insert_lookup in Hb as [Hb|Hb].
      + rewrite Forall_forall in Harr. by apply Harr.
      + by rewrite lookup_empty in Hb. }
  intros perStream Hper. simpl. unfold Map_ofPairs.
  eapply returns_mono; [apply returns_Map_of|]. intros r [Er _].
  assert (Hr : ∀ a tm, get r a = Some tm →
            entries tm ≠ ∅ ∧ ∀ b l, entries tm !! b = Some l → Q (b, l)).
  { intros a tm Ha. unfold get in Ha. rewrite Er in Ha.
    apply foldl_insert_lookup in Ha as [Ha|Ha]; [|by rewrite lookup_empty in Ha].
    apply list_elem_of_lookup in Ha as [n Hn].
    destruct (Forall2_lookup_r _ _ _ _ _ Hper Hn) as (entry & _ & Hres). exact Hres. }
  split.
  - intros a tm Ha. by apply Hr in Ha as [? _].
  - intros P HP a tm b l Ha Hb. apply Hr in Ha as [_ Hl].
    destruct (Hl b l Hb) as (item & Hin & Ei). simpl in Ei. rewrite Ei. by apply HP.
Qed.

(** ** [markUnread] *)

Lemma merge_sort_nil : merge_sort Z.le [] = [].
Proof. done. Qed.

Lemma merge_sort_non_empty l : l ≠ [] → merge_sort Z.le l ≠ [].
Proof.
  intros Hl E. apply Hl. apply Permutation_nil_r. rewrite <- E.
  symmetry. apply merge_sort_Permutation.
Qed.

Lemma routed_to_snoc message_details a b done id :
  routed_to message_details a b (done ++ [id])
  = routed_to message_details a b done
    ++ (if decide (message_details !! id = Some (StreamDetails a b)) then [id] else []).
Proof.
  unfold routed_to. rewrite filter_app. by f_equal.
Qed.

(** The first loop of [markUnread]: the ids grouped by stream and topic. *)
Lemma returns_group_by_topic messages message_details :
  returns
    (foldM (λ id (newlyUnreadState : UnreadStreamsState),
              match message_details !! id with
              | Some (StreamDetails stream_id topic) =>
                  updateIn newlyUnreadState stream_id topic (Some emptyList)
                    (λ messages,
                       match messages with
                       | Some messages => push messages [id]
                       | None => throw TypeError
                       end)
              | _ => ret newlyUnreadState
              end)
           messages emptyMap)
    (λ newlyUnreadState,
       (∀ a b, idsAt newlyUnreadState a b = routed_to message_details a b messages)
       ∧ all_lists (λ l, l ≠ []) newlyUnreadState
       ∧ no_empty_stream newlyUnreadState).
Proof.
  apply (returns_foldM _ (λ done (nus : UnreadStreamsState),
    (∀ a b, idsAt nus a b = routed_to message_details a b done)
    ∧ all_lists (λ l, l ≠ []) nus ∧ no_empty_stream nus)).
  { split; [|split].
    - intros a b. apply idsAt_initial.
    - apply all_lists_initial.
    - apply no_empty_stream_initial. }
  intros done id rest nus El (Hids & Hall & Hne).
  destruct (message_details !! id) as [[sid t|]|] eqn:Ed.
  - eapply returns_mono.
    { apply (returns_updateIn_put nus sid t (Some emptyList) _
               (λ l, items l = idsAt nus sid t ++ [id])); [|by right].
      assert (Hex : ∃ l0, match get nus sid ≫= (λ inner, get inner t) with
                          | Some v => Some v
                          | None => Some emptyList
                          end = Some l0 ∧ items l0 = idsAt nus sid t).
      { unfold idsAt, getIn. destruct (get nus sid ≫= _) as [l0|]; by eexists. }
      destruct Hex as (l0 & -> & El0).
      eapply returns_mono; [apply returns_push|]. intros l Hl. rewrite Hl, El0.
      split; [done|]. by destruct (idsAt nus sid t). }
    intros r (l & El' & Hput). split; [|split].
    + intros a b. rewrite (put_at_idsAt _ _ _ _ _ _ _ Hput), routed_to_snoc, El', !Hids.
      destruct (decide (a = sid ∧ b = t)) as [[-> ->]|Hn].
      * by rewrite decide_True.
      * rewrite decide_False, app_nil_r; [done|]. intros E. rewrite Ed in E.
        simplify_eq. tauto.
    + eapply put_at_all_lists; [done..|]. rewrite El'. by destruct (idsAt nus sid t).
    + by eapply put_at_no_empty_stream.
  - apply returns_ret. split; [|done]. intros a b.
    rewrite routed_to_snoc, decide_False, app_nil_r; [done|]. by rewrite Ed.
  - apply returns_ret. split; [|done]. intros a b.
    rewrite routed_to_snoc, decide_False, app_nil_r; [done|]. by rewrite Ed.
Qed.

(** The second step of [markUnread]: every group sorted. *)
Lemma returns_sort_groups (newlyUnreadState : UnreadStreamsState) :
  returns (map_ newlyUnreadState (λ e, map_ e (λ messages, sort messages)))
    (λ sorted,
       (∀ a b, idsAt sorted a b = merge_sort Z.le (idsAt newlyUnreadState a b))
       ∧ (all_lists (λ l, l ≠ []) newlyUnreadState → all_lists (λ l, l ≠ []) sorted)
       ∧ (no_empty_stream newlyUnreadState → no_empty_stream sorted)).
Proof.
  set (Rtm := λ tm tm' : Map string List,
    ∀ b, match entries tm !! b with
         | Some l => ∃ l', items l' = merge_sort Z.le (items l) ∧ entries tm' !! b = Some l'
         | None => entries tm' !! b = None
         end).
  eapply returns_mono.
  { apply (returns_map newlyUnreadState _ Rtm). intros a tm Ha.
    eapply returns_mono.
    - apply (returns_map tm _ (λ l l', items l' = merge_sort Z.le (items l))).
      intros b l Hb. eapply returns_mono; [apply returns_sort|]. by intros l' [? _].
    - by intros tm' [Htm' _]. }
  intros r [Hr _]. split; [|split].
  - intros a b. rewrite !idsAt_eq. unfold get. specialize (Hr a).
    destruct (entries newlyUnreadState !! a) as [tm|].
    + destruct Hr as (tm' & Htm' & ->). simpl. specialize (Htm' b).
      destruct (entries tm !! b) as [l|].
      * by destruct Htm' as (l' & El' & ->).
      * by rewrite Htm'.
    + rewrite Hr. simpl. by rewrite lookup_empty.
  - intros Hall a tm' b l' Ha Hb. unfold get in *. specialize (Hr a).
    destruct (entries newlyUnreadState !! a) as [tm|] eqn:Ea; [|congruence].
    destruct Hr as (tm1 & Htm' & E). simplify_eq. specialize (Htm' b).
    destruct (entries tm !! b) as [l|] eqn:Eb; [|congruence].
    destruct Htm' as (l1 & El' & E1). simplify_eq. rewrite El'.
    apply merge_sort_non_empty. by eapply Hall.
  - intros Hne a tm' Ha. unfold get in *. specialize (Hr a).
    destruct (entries newlyUnreadState !! a) as [tm|] eqn:Ea; [|congruence].
    destruct Hr as (tm1 & Htm' & E). simplify_eq.
    destruct (map_choose (entries tm)) as (b & l & Hb); [by eapply Hne|].
    specialize (Htm' b). rewrite Hb in Htm'. destruct Htm' as (l' & _ & E1).
    intros Hempty. by rewrite Hempty, lookup_empty in E1.
Qed.

(** The last step of [markUnread]: merging the sorted groups into the
    index. *)
Lemma returns_merge_index (state new : UnreadStreamsState) :
  returns
    (mergeWith state
       (λ oldTopicsMap newTopicsMap,
          mergeWith oldTopicsMap
            (λ oldUnreadMessages newUnreadMessages,
               setUnion oldUnreadMessages newUnreadMessages)
            newTopicsMap)
       new)
    (λ state',
       (∀ a b, idsAt state' a b = two_pointer_merge (idsAt state a b) (idsAt new a b))
       ∧ (∀ P : list Z → Prop,
            all_lists P state → all_lists (λ l, l ≠ []) new →
            (∀ a b, idsAt new a b ≠ [] →
               P (two_pointer_merge (idsAt state a b) (idsAt new a b))) →
            all_lists P state')
       ∧ (no_empty_stream state → no_empty_stream new → no_empty_stream state')).
Proof.
  set (Rtm := λ tm ntm tm' : Map string List,
    (∀ b, match entries tm !! b, entries ntm !! b with
          | o, None => entries tm' !! b = o
          | None, Some n => entries tm' !! b = Some n
          | Some o, Some n =>
              ∃ c, items c = two_pointer_merge (items o) (items n)
                   ∧ entries tm' !! b = Some c
          end)
    ∧ (tm' = tm ∨ tm' = ntm ∨ entries tm' ≠ ∅)).
  eapply returns_mono.
  { apply (returns_mergeWith state _ new Rtm). intros a tm ntm Ha Hna.
    apply (returns_mergeWith tm _ ntm
             (λ o n c, items c = two_pointer_merge (items o) (items n))).
    intros b o n Hb Hnb. apply returns_setUnion. }
  intros r [Hr _]. split; [|split].
  - intros a b. rewrite !idsAt_eq. unfold get. specialize (Hr a).
    destruct (entries state !! a) as [tm|], (entries new !! a) as [ntm|]; simpl.
    + destruct Hr as (tm' & [Htm' _] & ->). simpl. specialize (Htm' b).
      destruct (entries tm !! b) as [o|], (entries ntm !! b) as [n|]; simpl.
      * by destruct Htm' as (c & Ec & ->).
      * by rewrite Htm', two_pointer_merge_nil_r.
      * by rewrite Htm', two_pointer_merge_nil_l.
      * by rewrite Htm'.
    + rewrite Hr, lookup_empty. simpl. by rewrite two_pointer_merge_nil_r.
    + rewrite Hr, lookup_empty. simpl. by rewrite two_pointer_merge_nil_l.
    + by rewrite Hr, lookup_empty.
  - intros P Hall Hnew HP a tmx b l Ha Hb. unfold get in Ha, Hb. specialize (Hr a).
    destruct (entries state !! a) as [tm|] eqn:Ea, (entries new !! a) as [ntm|] eqn:Ena.
    + destruct Hr as (tm' & [Htm' _] & E). simplify_eq. specialize (Htm' b).
      destruct (entries tm !! b) as [o|] eqn:Eo, (entries ntm !! b) as [n|] eqn:En.
      * destruct Htm' as (c & Ec & E1). simplify_eq. rewrite Ec.
        rewrite <- (idsAt_Some state a tm b o), <- (idsAt_Some new a ntm b n) by done.
        apply HP. rewrite (idsAt_Some new a ntm b n) by done. by eapply Hnew.
      * simplify_eq. by eapply Hall.
      * assert (l = n) by congruence. subst l.
        rewrite <- (two_pointer_merge_nil_l (items n)).
        rewrite <- (idsAt_no_topic state a tm b), <- (idsAt_Some new a ntm b n) by done.
        apply HP. rewrite (idsAt_Some new a ntm b n) by done. by eapply Hnew.
      * congruence.
    + simplify_eq. by eapply Hall.
    + assert (tmx = ntm) by congruence. subst tmx.
      rewrite <- (two_pointer_merge_nil_l (items l)).
      rewrite <- (idsAt_no_stream state a b), <- (idsAt_Some new a ntm b l) by done.
      apply HP. rewrite (idsAt_Some new a ntm b l) by done. by eapply Hnew.
    + congruence.
  - intros Hne Hnne a tmx Ha. unfold get in Ha. specialize (Hr a).
    destruct (entries state !! a) as [tm|] eqn:Ea, (entries new !! a) as [ntm|] eqn:Ena.
    + destruct Hr as (tm' & [_ Hk] & E). simplify_eq.
      destruct Hk as [->|[->|Hk]]; [by eapply Hne|by eapply Hnne|done].
    + simplify_eq. by eapply Hne.
    + simplify_eq. by eapply Hnne.
    + congruence.
Qed.

Lemma returns_markUnread state messages message_details :
  returns (markUnread state messages message_details) (λ state',
    (∀ a b, idsAt state' a b
            = two_pointer_merge (idsAt state a b)
                (merge_sort Z.le (routed_to message_details a b messages)))
    ∧ (∀ P : list Z → Prop,
         all_lists P state →
         (∀ a b, routed_to message_details a b messages ≠ [] →
            P (two_pointer_merge (idsAt state a b)
                 (merge_sort Z.le (routed_to message_details a b messages)))) →
         all_lists P state')
    ∧ (no_empty_stream state → no_empty_stream state')).
Proof.
  unfold markUnread.
  eapply returns_bind; [apply returns_group_by_topic|].
  intros nus (Hnus & Hnus_all & Hnus_ne). simpl.
  eapply returns_bind; [apply returns_sort_groups|].
  intros sorted (Hsorted & Hsorted_all & Hsorted_ne). simpl.
  eapply returns_mono; [apply returns_merge_index|].
  intros r (Hr & Hr_all & Hr_ne). split; [|split].
  - intros a b. by rewrite Hr, Hsorted, Hnus.
  - intros P Hall HP. apply Hr_all; [done|auto|].
    intros a b Hab. rewrite Hsorted, Hnus in *. apply HP.
    intros E. rewrite E in Hab. by rewrite merge_sort_nil in Hab.
  - auto.
Qed.

(** ** [moveMessages] *)

Lemma filter_has (ids l : list Z) :
  filter (λ id, has (list_to_set ids) id = true) l = filter (λ id, id ∈ ids) l.
Proof.
  apply list_filter_iff. intros id. unfold has.
  by rewrite bool_decide_eq_true, elem_of_list_to_set.
Qed.

Lemma filter_not_has (ids l : list Z) :
  filter (λ id, negb (has (list_to_set ids) id) = true) l = filter (λ id, id ∉ ids) l.
Proof.
  apply list_filter_iff. intros id. unfold has.
  by rewrite negb_true_iff, bool_decide_eq_false, elem_of_list_to_set.
Qed.

Lemma matching_ids_filter state message_ids move (matching : List) :
  items matching
  = filter (λ id, has (list_to_set message_ids) id = true)
      (items (getIn state (orig_stream_id move) (orig_topic move) emptyList)) →
  items matching = matching_ids state message_ids move.
Proof. intros ->. by rewrite filter_has. Qed.

Lemma returns_moveMessages_none state message_ids move :
  matching_ids state message_ids move = [] →
  returns (moveMessages state message_ids move) (λ state', state' = state).
Proof.
  intros Hnone. unfold moveMessages.
  eapply returns_bind; [apply returns_filter|]. intros matching [Em _]. simpl.
  apply matching_ids_filter in Em. unfold size. rewrite Em, Hnone. simpl.
  by apply returns_ret.
Qed.

Lemma returns_moveMessages state message_ids move :
  matching_ids state message_ids move ≠ [] →
  returns (moveMessages state message_ids move) (λ state',
    ∃ mid,
      (∀ a b, idsAt mid a b
              = if decide (a = orig_stream_id move ∧ b = orig_topic move)
                then remaining_ids state message_ids move
                else idsAt state a b)
      ∧ (∀ a b, idsAt state' a b
                = if decide (a = new_stream_id move ∧ b = new_topic move)
                  then merge_sort Z.le
                         (idsAt mid (new_stream_id move) (new_topic move)
                          ++ matching_ids state message_ids move)
                  else idsAt mid a b)
      ∧ (∀ P, filter_closed P → all_lists P state →
              P (merge_sort Z.le
                   (idsAt mid (new_stream_id move) (new_topic move)
                    ++ matching_ids state message_ids move)) →
              all_lists P state')
      ∧ (no_empty_stream state → no_empty_stream state')).
Proof.
  intros Hm. unfold moveMessages.
  eapply returns_bind; [apply returns_filter|]. intros matching [Em _]. simpl.
  apply matching_ids_filter in Em. unfold size. rewrite Em.
  rewrite decide_False by (by destruct (matching_ids state message_ids move)).
  eapply returns_bind; [apply returns_deleteMessagesIn|].
  intros mid (Hmid & Hmid_all & Hmid_ne). simpl.
  eapply returns_mono.
  { apply (returns_updateIn_put mid (new_stream_id move) (new_topic move) None _
      (λ l, items l = merge_sort Z.le
                        (idsAt mid (new_stream_id move) (new_topic move)
                         ++ matching_ids state message_ids move)));
      [|by left].
    eapply returns_bind; [apply returns_push|]. intros l1 El1. simpl.
    eapply returns_mono; [apply returns_sort|]. intros l2 [El2 _].
    assert (El : items l1 = idsAt mid (new_stream_id move) (new_topic move)
                            ++ matching_ids state message_ids move).
    { rewrite El1. f_equal. unfold idsAt, getIn. by destruct (get mid _ ≫= _). }
    rewrite El2, El. split; [done|]. apply merge_sort_non_empty.
    intros E. by apply app_eq_nil in E as [_ ?]. }
  intros r (l & El & Hput). exists mid. split; [|split; [|split]].
  - intros a b. rewrite Hmid. case_decide as Hd; [|done]. destruct Hd as [-> ->].
    unfold remaining_ids. by rewrite filter_not_has.
  - intros a b. by rewrite (put_at_idsAt _ _ _ _ _ _ _ Hput), El.
  - intros P HP Hall HPl. eapply put_at_all_lists; [done|by apply Hmid_all|].
    by rewrite El.
  - intros Hne. eapply put_at_no_empty_stream; [done|auto].
Qed.

(** ** One step of the reducer keeps the invariants *)

Lemma returns_newMessage (state : UnreadStreamsState) stream_id subject id :
  returns (updateIn state stream_id subject None
             (λ perTopic, push (default emptyList perTopic) [id]))
    (λ state', ∃ l, items l = idsAt state stream_id subject ++ [id]
                    ∧ put_at state stream_id subject l state').
Proof.
  apply (returns_updateIn_put state stream_id subject None _
           (λ l, items l = idsAt state stream_id subject ++ [id])); [|by left].
  eapply returns_mono; [apply returns_push|]. intros l El.
  assert (E : items l = idsAt state stream_id subject ++ [id]).
  { rewrite El. f_equal. unfold idsAt, getIn. by destruct (get state _ ≫= _). }
  split; [done|]. rewrite E. by destruct (idsAt state stream_id subject).
Qed.

Lemma step_preserves (P : list Z → Prop) state action h state' h' :
  filter_closed P →
  all_lists P state → no_empty_stream state →
  step_obligation P state action →
  streamsReducer (Some state) action h = Ok state' h' →
  all_lists P state' ∧ no_empty_stream state'.
Proof.
  intros HP Hall Hne Hob Hrun. unfold streamsReducer in Hrun. simpl in Hrun.
  destruct action as [|data| |message|messageIds|flag all op messages details
                      |message_ids move|]; simpl in Hob.
  - inversion Hrun; subst. split; [apply all_lists_initial|apply no_empty_stream_initial].
  - apply (returns_run _ _ _ _ _ (returns_registerComplete _)) in Hrun as [[Hne' Hall'] _].
    auto.
  - by inversion Hrun; subst.
  - destruct message as [id stream_id subject flags|id flags]; [|by inversion Hrun; subst].
    unfold bind, invariant in Hrun. destruct (bool_decide (is_Some flags)); [|done].
    simpl in Hrun. destruct (includes _ _); [by inversion Hrun; subst|].
    apply (returns_run _ _ _ _ _ (returns_newMessage _ _ _ _)) in Hrun
      as [(l & El & Hput) _].
    split; [|by eapply put_at_no_empty_stream].
    eapply put_at_all_lists; [done..|]. by rewrite El.
  - apply (returns_run _ _ _ _ _ (returns_deleteMessages _ _)) in Hrun as [[Hall' Hne'] _].
    auto.
  - case_decide; [by inversion Hrun; subst|].
    destruct all.
    { inversion Hrun; subst. split; [apply all_lists_initial|apply no_empty_stream_initial]. }
    case_decide as Hop.
    + destruct details as [message_details|].
      * apply (returns_run _ _ _ _ _ (returns_markUnread _ _ _)) in Hrun
          as [(_ & Hall' & Hne') _]. auto.
      * unfold bind, warn in Hrun. by inversion Hrun; subst.
    + apply (returns_run _ _ _ _ _ (returns_deleteMessages _ _)) in Hrun
        as [[Hall' Hne'] _]. auto.
  - destruct move as [move|]; [|by inversion Hrun; subst].
    destruct (decide (matching_ids state message_ids move = [])) as [Hnone|Hsome].
    + apply (returns_run _ _ _ _ _ (returns_moveMessages_none _ _ _ Hnone)) in Hrun
        as [-> _]. done.
    + apply (returns_run _ _ _ _ _ (returns_moveMessages _ _ _ Hsome)) in Hrun
        as [(mid & Hmid & _ & Hall' & Hne') _].
      split; [|auto]. apply Hall'; [done..|]. rewrite Hmid.
      specialize (Hob Hsome). by destruct (decide (_ ∧ _)).
  - by inversion Hrun; subst.
Qed.

(** * The claims of the specification *)

(** ** Set union *)

(** C2. For strictly ascending (hence duplicate-free) lists [xs] and [ys],
    [setUnion(xs, ys)] returns a strictly ascending, duplicate-free list
    whose elements are those of [xs] together with those of [ys]; moreover
    [setUnion(xs, xs)] has the items of [xs], so has [setUnion(xs, List())],
    and [setUnion(ys, xs)] has the same elements as [setUnion(xs, ys)]. *)
Theorem setUnion_correct (xs ys : List) (h : Heap) :
  Sorted Z.lt (items xs) → Sorted Z.lt (items ys) →
  ∃ r h', setUnion xs ys h = Ok r h'
    ∧ Sorted Z.lt (items r)
    ∧ NoDup (items r)
    ∧ (∀ z, z ∈ items r ↔ z ∈ items xs ∨ z ∈ items ys)
    ∧ (∃ r1 h1, setUnion xs xs h = Ok r1 h1 ∧ items r1 = items xs)
    ∧ (∃ r2 h2, setUnion xs emptyList h = Ok r2 h2 ∧ items r2 = items xs)
    ∧ (∃ r3 h3, setUnion ys xs h = Ok r3 h3 ∧ ∀ z, z ∈ items r3 ↔ z ∈ items r).
Proof.
  intros Hxs Hys. apply ascending_Sorted in Hxs, Hys.
  destruct (returns_setUnion xs ys h) as (r & h' & E & _ & Er).
  destruct (returns_setUnion xs xs h) as (r1 & h1 & E1 & _ & Er1).
  destruct (returns_setUnion xs emptyList h) as (r2 & h2 & E2 & _ & Er2).
  destruct (returns_setUnion ys xs h) as (r3 & h3 & E3 & _ & Er3).
  exists r, h'. split; [done|].
  assert (Hasc : ascending (items r)).
  { rewrite Er. by apply ascending_two_pointer_merge. }
  split; [by apply ascending_Sorted|]. split; [by apply ascending_NoDup|].
  split; [intros z; rewrite Er; apply elem_of_two_pointer_merge|].
  split; [exists r1, h1; by rewrite Er1, two_pointer_merge_diag|].
  split; [exists r2, h2; by rewrite Er2, two_pointer_merge_nil_r|].
  exists r3, h3. split; [done|]. intros z.
  rewrite Er, Er3, !elem_of_two_pointer_merge. tauto.
Qed.

Lemma setUnion_correct_witness :
  Sorted Z.lt [1; 3; 5] ∧ Sorted Z.lt [2; 3; 6] ∧
  ∃ r h', setUnion (mkList 1 [1; 3; 5]) (mkList 2 [2; 3; 6]) heap0 = Ok r h'
    ∧ Sorted Z.lt (items r).
Proof.
  assert (H1 : Sorted Z.lt [1; 3; 5]) by (repeat constructor; lia).
  assert (H2 : Sorted Z.lt [2; 3; 6]) by (repeat constructor; lia).
  split; [exact H1|]. split; [exact H2|].
  destruct (setUnion_correct (mkList 1 [1; 3; 5]) (mkList 2 [2; 3; 6]) heap0 H1 H2)
    as (r & h' & E & Hs & _).
  by exists r, h'.
Defined.

(** ** Update and prune *)

(** C4. [updateAndPrune(map, zero, key, updater)], when the updater yields
    [newValue] for the value looked up at [key] ([undefined] if absent):
    deletes [key] if [newValue === zero]; otherwise returns [map] itself,
    allocating nothing, if [newValue] is identical to the value looked up;
    otherwise returns another map, with [key] set to [newValue].  The result
    never holds [zero] at [key], and whenever the result has the entries of
    [map] it is [map] itself and nothing was allocated. *)
Theorem updateAndPrune_spec `{Countable K} `{EqDecision V}
    (map : Map K V) (zero : V) (key : K) (updater : option V → M V)
    (h h1 : Heap) (newValue : V) :
  updater (get map key) h = Ok newValue h1 →
  ∃ r h', updateAndPrune map zero key updater h = Ok r h'
    ∧ (newValue = zero → entries r = delete key (entries map))
    ∧ (newValue ≠ zero → Some newValue = get map key → r = map ∧ h' = h1)
    ∧ (newValue ≠ zero → Some newValue ≠ get map key →
         entries r = <[key := newValue]> (entries map) ∧ r ≠ map)
    ∧ get r key ≠ Some zero
    ∧ (entries r = entries map → r = map ∧ h' = h1).
Proof.
  intros Hup. unfold updateAndPrune, bind. rewrite Hup.
  destruct (decide (newValue = zero)) as [Hz|Hz].
  - unfold delete_. destruct (entries map !! key) as [v|] eqn:Ek.
    + destruct (returns_Map_of (delete key (entries map)) h1) as (r & h' & E & _ & Er & _).
      assert (Hdiff : entries r ≠ entries map).
      { intros Heq. assert (Hl := lookup_delete_eq (entries map) key).
        rewrite <- Er, Heq, Ek in Hl. done. }
      exists r, h'. split; [done|]. unfold get. split_and!; try done.
      by rewrite Er, lookup_delete_eq.
    + exists map, h1. split; [done|]. unfold get. split_and!; try done.
      * by rewrite delete_id.
      * by rewrite Ek.
  - destruct (decide (Some newValue = get map key)) as [Hs|Hs].
    + exists map, h1. split; [done|]. split_and!; try done. rewrite <- Hs. congruence.
    + unfold set. rewrite decide_False by (unfold get in Hs; congruence).
      destruct (returns_Map_of (<[key := newValue]> (entries map)) h1)
        as (r & h' & E & _ & Er & _).
      assert (Hdiff : entries r ≠ entries map).
      { intros Heq. rewrite Er in Heq. apply Hs. unfold get. rewrite <- Heq.
        by rewrite lookup_insert_eq. }
      exists r, h'. split; [done|]. unfold get. split_and!; try done.
      * intros _ _. split; [done|]. intros ->. by apply Hdiff.
      * rewrite Er, lookup_insert_eq. congruence.
Qed.

Lemma updateAndPrune_spec_witness :
  let map : Map Z Z := mkMap 1 {[7 := 5]} in
  let updater : option Z → M Z := λ v, ret (default 0 v - 5) in
  updater (get map 7) heap0 = Ok 0 heap0
  ∧ ∃ r h', updateAndPrune map 0 7 updater heap0 = Ok r h' ∧ get r 7 ≠ Some 0.
Proof.
  intros map updater.
  assert (Hup : updater (get map 7) heap0 = Ok 0 heap0) by reflexivity.
  split; [exact Hup|].
  destruct (updateAndPrune_spec map 0 7 updater heap0 heap0 0 Hup)
    as (r & h' & E & _ & _ & _ & Hz & _).
  by exists r, h'.
Defined.

(** ** Events the reducer cannot use *)

(** C7. An update-message-flags event with flag ["read"], [all] false, op
    ["remove"] and no [message_details] does not fail: the reducer logs one
    warning, allocates nothing and returns the very state it was given. *)
Theorem mark_unread_without_details_is_ignored
    (state : UnreadStreamsState) (messages : list Z) (h : Heap) :
  streamsReducer (Some state)
    (EVENT_UPDATE_MESSAGE_FLAGS "read" false "remove" messages None) h
  = Ok state
       (mkHeap (next h)
          (log h ++ ["Got update_message_flags/remove/read event without message_details."])).
Proof. reflexivity. Qed.

Lemma streamsReducer_total state action h :
  has_flags action → ∃ state' h', streamsReducer state action h = Ok state' h'.
Proof.
  intros Hflags. unfold streamsReducer.
  set (s := default initialStreamsState state).
  assert (Hret : ∀ (m : M UnreadStreamsState) Q,
            returns m Q → ∃ state' h', m h = Ok state' h').
  { intros m Q Hm. destruct (Hm h) as (a & h' & E & _). by exists a, h'. }
  destruct action as [|data| |message|messageIds|flag all op messages details
                      |message_ids move|]; try by (eexists _, _).
  - eapply Hret, returns_registerComplete.
  - destruct message as [id stream_id subject flags|id flags]; [|by eexists _, _].
    simpl in Hflags. destruct Hflags as [fl ->]. unfold bind. simpl.
    destruct (includes fl "read"); [by eexists _, _|].
    eapply Hret, returns_newMessage.
  - eapply Hret, returns_deleteMessages.
  - case_decide; [by eexists _, _|]. destruct all; [by eexists _, _|].
    case_decide; [|eapply Hret, returns_deleteMessages].
    destruct details; [eapply Hret, returns_markUnread|by eexists _, _].
  - destruct move as [move|]; [|by eexists _, _].
    destruct (decide (matching_ids s message_ids move = [])) as [Hn|Hn].
    + eapply Hret, returns_moveMessages_none, Hn.
    + eapply Hret, returns_moveMessages, Hn.
Qed.

(** C8. A new-message event for a stream message without [flags] makes the
    reducer fail with an invariant violation, whatever the state; and if
    every new stream message has its flags, the reducer returns a state for
    every state and every action. *)
Theorem new_message_needs_flags :
  (∀ state id stream_id subject h,
     streamsReducer state (EVENT_NEW_MESSAGE (StreamMessage id stream_id subject None)) h
     = Fail (InvariantViolation "message in EVENT_NEW_MESSAGE must have flags"))
  ∧ (∀ state action h,
       has_flags action → ∃ state' h', streamsReducer state action h = Ok state' h').
Proof.
  split; [reflexivity|]. intros state action h. apply streamsReducer_total.
Qed.

Lemma new_message_needs_flags_witness :
  has_flags (EVENT_NEW_MESSAGE (StreamMessage 12 1 "a" (Some [])))
  ∧ ∃ state' h',
      streamsReducer None (EVENT_NEW_MESSAGE (StreamMessage 12 1 "a" (Some []))) heap0
      = Ok state' h'.
Proof.
  assert (Hf : has_flags (EVENT_NEW_MESSAGE (StreamMessage 12 1 "a" (Some [])))).
  { simpl. by eexists. }
  split; [exact Hf|].
  exact (proj2 new_message_needs_flags None _ heap0 Hf).
Defined.

(** ** The reducer of the whole state *)

Section reducer_facts.
Context {UnreadPmsState UnreadHuddlesState UnreadMentionsState PerAccountState : Type}.
Context `{EqDecision UnreadPmsState} `{EqDecision UnreadHuddlesState}
        `{EqDecision UnreadMentionsState}.
Variable unreadPmsReducer :
  option UnreadPmsState → Action → PerAccountState → M UnreadPmsState.
Variable unreadHuddlesReducer :
  option UnreadHuddlesState → Action → PerAccountState → M UnreadHuddlesState.
Variable unreadMentionsReducer :
  option UnreadMentionsState → Action → M UnreadMentionsState.

Local Abbreviation UnreadState :=
  (@UnreadState UnreadPmsState UnreadHuddlesState UnreadMentionsState).

(** C9. Let the four sub-reducers, run one after the other on the fields
    of a defined prior state, return [streams'], [pms'], [huddles'] and
    [mentions'].  If each is identical to the field it was computed from,
    [reducer] returns the prior state itself; otherwise it returns another
    object, the newly allocated one whose fields are the four results. *)
Theorem reducer_short_circuit (state : UnreadState) (action : Action)
    (globalState : PerAccountState) (h h1 h2 h3 h4 : Heap)
    streams' pms' huddles' mentions' :
  streamsReducer (Some (streams state)) action h = Ok streams' h1 →
  unreadPmsReducer (Some (pms state)) action globalState h1 = Ok pms' h2 →
  unreadHuddlesReducer (Some (huddles state)) action globalState h2 = Ok huddles' h3 →
  unreadMentionsReducer (Some (mentions state)) action h3 = Ok mentions' h4 →
  let unchanged :=
    streams' = streams state ∧ pms' = pms state
    ∧ huddles' = huddles state ∧ mentions' = mentions state in
  let nextState := mkUnreadState (next h4) streams' pms' huddles' mentions' in
  let result :=
    reducer unreadPmsReducer unreadHuddlesReducer unreadMentionsReducer
      (Some state) action globalState h in
  (unchanged → result = Ok state (mkHeap (N.succ (next h4)) (log h4)))
  ∧ (¬ unchanged →
       result = Ok nextState (mkHeap (N.succ (next h4)) (log h4))
       ∧ nextState ≠ state).
Proof.
  intros Hs Hp Hh Hm unchanged nextState result.
  assert (Hres : result
            = if every_key_same nextState state
              then Ok state (mkHeap (N.succ (next h4)) (log h4))
              else Ok nextState (mkHeap (N.succ (next h4)) (log h4))).
  { unfold result, reducer, bind. simpl. rewrite Hs, Hp, Hh, Hm. simpl.
    fold nextState. by destruct (every_key_same nextState state). }
  assert (Hsame : every_key_same nextState state = true ↔ unchanged).
  { unfold every_key_same, unchanged. rewrite !andb_true_iff, !bool_decide_eq_true.
    simpl. tauto. }
  rewrite Hres. split.
  - intros Hu. apply Hsame in Hu. by rewrite Hu.
  - intros Hu. destruct (every_key_same nextState state) eqn:E.
    + exfalso. by apply Hu, Hsame.
    + split; [done|]. intros Heq. apply Hu. unfold unchanged. by rewrite <- Heq.
Qed.
End reducer_facts.

Lemma reducer_short_circuit_witness :
  let keep : option () → Action → () → M () := λ _ _ _, ret () in
  let state := mkUnreadState 1 initialStreamsState () () () in
  streamsReducer (Some (streams state)) MESSAGE_FETCH_COMPLETE heap0 = Ok emptyMap heap0
  ∧ reducer keep keep (λ _ _, ret ()) (Some state) MESSAGE_FETCH_COMPLETE () heap0
    = Ok state (mkHeap 2 []).
Proof.
  intros keep state. split; [reflexivity|].
  refine (proj1 (reducer_short_circuit keep keep (λ _ _, ret ()) state
                   MESSAGE_FETCH_COMPLETE () heap0 heap0 heap0 heap0 heap0
                   emptyMap () () () eq_refl eq_refl eq_refl eq_refl) _).
  by repeat split.
Defined.

(** ** The invariants of the index *)

Lemma filter_closed_ascending : filter_closed ascending.
Proof.
  intros pred l Hl _. induction l as [|x l IH]; [done|].
  apply ascending_cons in Hl as [Hx Hl]. rewrite filter_cons.
  case_decide; [|by apply IH]. apply ascending_cons. split; [|by apply IH].
  rewrite Forall_forall in *. intros z Hz. apply list_elem_of_filter in Hz as [_ Hz]. auto.
Qed.

Lemma filter_closed_non_empty : filter_closed (λ l, l ≠ []).
Proof. by intros pred l _ H. Qed.

Lemma ascending_snoc l id : ascending l → (∀ i, i ∈ l → i < id) → ascending (l ++ [id]).
Proof.
  intros Hl Hid. apply StronglySorted_app_2; [|done|repeat constructor].
  intros x1 x2 H1 H2. apply list_elem_of_singleton in H2 as ->. auto.
Qed.

Lemma le_sorted_NoDup_ascending l : StronglySorted Z.le l → NoDup l → ascending l.
Proof.
  induction 1 as [|x l Hl IH Hx]; intros Hnd; [constructor|].
  apply NoDup_cons in Hnd as [Hnin Hnd]. apply ascending_cons. split; [|auto].
  rewrite Forall_forall in *. intros z Hz. specialize (Hx z Hz).
  assert (x ≠ z) by (by intros ->). lia.
Qed.

Lemma ascending_merge_sort l : NoDup l → ascending (merge_sort Z.le l).
Proof.
  intros Hnd. apply le_sorted_NoDup_ascending.
  - apply StronglySorted_merge_sort; apply _.
  - by rewrite merge_sort_Permutation.
Qed.

Lemma all_lists_idsAt P state a b : all_lists P state → P [] → P (idsAt state a b).
Proof.
  intros Hall Hnil. unfold idsAt, getIn.
  destruct (get state a) as [tm|] eqn:Ea; [|done]. simpl.
  destruct (get tm b) as [l|] eqn:Eb; [|done]. simpl. by eapply Hall.
Qed.

Lemma sorted_pre_obligation state action :
  all_lists ascending state → sorted_pre state action →
  step_obligation ascending state action.
Proof.
  intros Hall (Hstated & Hdistinct & Hfresh).
  assert (Hasc : ∀ a b, ascending (idsAt state a b)).
  { intros a b. apply all_lists_idsAt; [done|constructor]. }
  destruct action as [|data| |message|messageIds|flag all op messages details
                      |message_ids move|]; simpl in *; try done.
  - destruct message as [id stream_id subject flags|]; [|done].
    apply ascending_snoc; [done|]. apply Hstated.
  - destruct details as [message_details|]; [|done]. intros Hop a b _.
    apply ascending_two_pointer_merge; [done|]. apply ascending_merge_sort.
    unfold routed_to. apply NoDup_filter. auto.
  - destruct move as [move|]; [|done]. intros Hsome.
    apply ascending_merge_sort. apply NoDup_app.
    assert (Hnd : ∀ a b, NoDup (idsAt state a b)) by (intros; by apply ascending_NoDup).
    split_and!.
    + case_decide; unfold remaining_ids; [apply NoDup_filter|]; apply Hnd.
    + intros id Hin Hin'. case_decide as Hsame.
      * unfold remaining_ids, matching_ids in *.
        apply list_elem_of_filter in Hin as [Hn _].
        apply list_elem_of_filter in Hin' as [Hy _]. done.
      * eapply Hfresh; [|done..]. intros Heq. apply Hsame. by simplify_eq.
    + unfold matching_ids. apply NoDup_filter, Hnd.
Qed.

Lemma non_empty_pre_obligation state action :
  non_empty_pre state action → step_obligation (λ l, l ≠ []) state action.
Proof.
  intros Hpre.
  destruct action as [|data| |message|messageIds|flag all op messages details
                      |message_ids move|]; simpl in *; try done.
  - destruct message as [id stream_id subject flags|]; [|done].
    by destruct (idsAt state stream_id subject).
  - destruct details as [message_details|]; [|done]. intros _ a b Hr E.
    apply merge_sort_non_empty in Hr.
    destruct (merge_sort Z.le (routed_to message_details a b messages)) as [|z l] eqn:El;
      [done|].
    assert (Hz : z ∈ two_pointer_merge (idsAt state a b) (z :: l)).
    { apply elem_of_two_pointer_merge. right. left. }
    rewrite E in Hz. by apply elem_of_nil in Hz.
  - destruct move as [move|]; [|done]. intros Hsome. apply merge_sort_non_empty.
    intros E. by apply app_eq_nil in E as [_ ?].
Qed.

(** C1, as amended.  In every state reached from the empty index by actions
    that satisfy what the specification asks of them (sorted snapshot lists,
    new-message ids above all ids present, details for the messages marked
    unread), and of which moreover every mark-as-unread event lists each
    message once and every move brings no id to another topic that already
    holds it, the id list of every stream and topic is strictly ascending
    and free of duplicates. *)
Theorem sortedness_invariant (state : UnreadStreamsState) :
  reachable sorted_pre state →
  all_lists (λ l, Sorted Z.lt l ∧ NoDup l) state.
Proof.
  intros Hreach.
  assert (Hinv : all_lists ascending state ∧ no_empty_stream state).
  { induction Hreach as [|s a h s' h' Hreach [Hall Hne] Hpre Hrun].
    - split; [apply all_lists_initial|apply no_empty_stream_initial].
    - eapply step_preserves; [apply filter_closed_ascending|done..| |done].
      by apply sorted_pre_obligation. }
  destruct Hinv as [Hall _]. intros a tm b l Ha Hb.
  assert (Hl : ascending (items l)) by (by eapply Hall).
  split; [by apply ascending_Sorted|by apply ascending_NoDup].
Qed.

(** C3, as amended.  In every state reached from the empty index by actions
    whose registration snapshots carry no empty list of ids, no stream has
    an empty map of topics and no topic has an empty list of ids. *)
Theorem no_empty_branch_invariant (state : UnreadStreamsState) :
  reachable non_empty_pre state →
  no_empty_stream state ∧ all_lists (λ l, l ≠ []) state.
Proof.
  intros Hreach.
  cut (all_lists (λ l, l ≠ []) state ∧ no_empty_stream state); [tauto|].
  induction Hreach as [|s a h s' h' Hreach [Hall Hne] Hpre Hrun].
  - split; [apply all_lists_initial|apply no_empty_stream_initial].
  - eapply step_preserves; [apply filter_closed_non_empty|done..| |done].
    by apply non_empty_pre_obligation.
Qed.

Lemma after_run state h action :
  has_flags action →
  streamsReducer (Some state) action h = Ok (after state h action).1 (after state h action).2.
Proof.
  intros Hf. destruct (streamsReducer_total (Some state) action h Hf) as (s' & h' & E).
  unfold after. by rewrite E.
Qed.

Lemma reachable_after (pre : UnreadStreamsState → Action → Prop) state h action :
  reachable pre state → pre state action → has_flags action →
  reachable pre (after state h action).1.
Proof. intros Hr Hpre Hf. eapply reachable_step; [done..|]. by apply after_run. Qed.

Lemma sortedness_invariant_witness :
  let state :=
    (after initialStreamsState heap0
       (REGISTER_COMPLETE (Some [mkUnreadStream 1 "a" [5; 9]]))).1 in
  reachable sorted_pre state
  ∧ all_lists (λ l, Sorted Z.lt l ∧ NoDup l) state.
Proof.
  intros state.
  assert (Hreach : reachable sorted_pre state).
  { apply reachable_after; [apply reachable_init| |done].
    split; [|done]. intros item Hin. apply list_elem_of_singleton in Hin as ->.
    simpl. repeat constructor. }
  split; [exact Hreach|]. exact (sortedness_invariant state Hreach).
Defined.

(** C1 as stated does not hold: what the specification asks of the actions
    allows an event that marks the same message as unread twice, and allows
    messages to be marked as unread in one topic and then moved to another
    topic that holds them already; either way a list with a repeated id
    results, also when only one of the two is allowed. *)
Lemma sortedness_counterexample :
  ¬ (∀ state, reachable stated_pre state →
       all_lists (λ l, Sorted Z.lt l ∧ NoDup l) state)
  ∧ ¬ (∀ state,
         reachable (λ s a, stated_pre s a ∧ fresh_destination_pre s a) state →
         all_lists (λ l, Sorted Z.lt l ∧ NoDup l) state)
  ∧ ¬ (∀ state,
         reachable (λ s a, stated_pre s a ∧ distinct_messages_pre s a) state →
         all_lists (λ l, Sorted Z.lt l ∧ NoDup l) state).
Proof.
  set (P := λ l : list Z, Sorted Z.lt l ∧ NoDup l).
  assert (HP : P []) by (split; constructor).
  (* the same message twice in one event *)
  set (twice := EVENT_UPDATE_MESSAGE_FLAGS "read" false "remove" [20; 20]
                  (Some {[20 := StreamDetails 1 "x"]})).
  set (s1 := (after initialStreamsState heap0 twice).1).
  assert (E1 : idsAt s1 1 "x" = [20; 20]) by (vm_compute; reflexivity).
  assert (Hpre1 : stated_pre initialStreamsState twice).
  { intros id Hin. rewrite !elem_of_cons, elem_of_nil in Hin.
    assert (id = 20) as -> by tauto. by eexists. }
  assert (Hbad1 : ¬ P (idsAt s1 1 "x")).
  { rewrite E1. intros [_ Hnd]. apply NoDup_cons in Hnd as [Hnin _]. apply Hnin. left. }
  (* marked as unread elsewhere, then moved there *)
  set (new5 := EVENT_NEW_MESSAGE (StreamMessage 5 1 "a" (Some []))).
  set (unread5 := EVENT_UPDATE_MESSAGE_FLAGS "read" false "remove" [5]
                    (Some {[5 := StreamDetails 2 "b"]})).
  set (move5 := EVENT_UPDATE_MESSAGE [5] (Some (mkMove 1 "a" 2 "b"))).
  set (r1 := after initialStreamsState heap0 new5).
  set (r2 := after r1.1 r1.2 unread5).
  set (r3 := after r2.1 r2.2 move5).
  assert (E3 : idsAt r3.1 2 "b" = [5; 5]) by (vm_compute; reflexivity).
  assert (Hbad3 : ¬ P (idsAt r3.1 2 "b")).
  { rewrite E3. intros [_ Hnd]. apply NoDup_cons in Hnd as [Hnin _]. apply Hnin. left. }
  assert (Hnew5 : stated_pre initialStreamsState new5).
  { intros a b id' Hin. rewrite idsAt_initial in Hin. by apply elem_of_nil in Hin. }
  assert (Hunread5 : stated_pre r1.1 unread5).
  { intros id Hin. apply list_elem_of_singleton in Hin as ->. by eexists. }
  split; [|split].
  - intros Hall. apply Hbad1. apply all_lists_idsAt; [|done]. apply Hall.
    by apply reachable_after; [apply reachable_init|..].
  - intros Hall. apply Hbad1. apply all_lists_idsAt; [|done]. apply Hall.
    by apply reachable_after; [apply reachable_init|..].
  - intros Hall. apply Hbad3. apply all_lists_idsAt; [|done]. apply Hall.
    apply reachable_after; [|done..].
    apply reachable_after; [|split; [done|]|done].
    + apply reachable_after; [apply reachable_init|by split|by eexists].
    + intros _. apply NoDup_singleton.
Qed.

Lemma no_empty_branch_invariant_witness :
  let state :=
    (after initialStreamsState heap0
       (REGISTER_COMPLETE (Some [mkUnreadStream 1 "a" [5; 9]]))).1 in
  reachable non_empty_pre state
  ∧ no_empty_stream state ∧ all_lists (λ l, l ≠ []) state.
Proof.
  intros state.
  assert (Hreach : reachable non_empty_pre state).
  { apply reachable_after; [apply reachable_init| |done].
    intros item Hin. apply list_elem_of_singleton in Hin as ->. done. }
  split; [exact Hreach|]. exact (no_empty_branch_invariant state Hreach).
Defined.

(** C3 as stated does not hold: a registration snapshot with an empty list
    of ids for a topic leaves that topic in the index, with the empty
    list. *)
Lemma no_empty_branch_counterexample :
  ¬ (∀ state, reachable (λ _ _, True) state →
       no_empty_stream state ∧ all_lists (λ l, l ≠ []) state).
Proof.
  intros Hall.
  set (snapshot := REGISTER_COMPLETE (Some [mkUnreadStream 1 "a" []])).
  set (state := (after initialStreamsState heap0 snapshot).1).
  assert (E : get state 1 ≫= (λ perStream, get perStream "a") = Some emptyList)
    by (vm_compute; reflexivity).
  destruct (Hall state) as [_ Hlists].
  { by apply reachable_after; [apply reachable_init|..]. }
  destruct (get state 1) as [perStream|] eqn:E1; [|done]. simpl in E.
  by apply (Hlists 1 perStream "a" emptyList).
Qed.

(** ** Moving messages *)

(** C5. For an update-message event with a move: if none of its message ids
    is unread in the origin topic, the reducer returns the state it was
    given.  Otherwise the ids of the event are removed from the origin
    topic, and exactly those that were unread there are appended to the list
    of the destination topic, which is then sorted; every other topic is as
    before.  In particular, with [3,7,10] in topic "a" of stream 1 and [1]
    in topic "b" of stream 2, moving the ids 7 and 10 from the one to the
    other leaves [3] and gives [1,7,10]. *)
Theorem move_messages_spec (state : UnreadStreamsState) (message_ids : list Z)
    (move : MessageMove) (h : Heap) :
  let matching := matching_ids state message_ids move in
  let remaining := remaining_ids state message_ids move in
  let orig := (orig_stream_id move, orig_topic move) in
  let dest := (new_stream_id move, new_topic move) in
  (∃ state' h',
     streamsReducer (Some state) (EVENT_UPDATE_MESSAGE message_ids (Some move)) h
     = Ok state' h'
     ∧ (matching = [] → state' = state)
     ∧ (matching ≠ [] →
          (orig ≠ dest →
             idsAt state' orig.1 orig.2 = remaining
             ∧ idsAt state' dest.1 dest.2
               = merge_sort Z.le (idsAt state dest.1 dest.2 ++ matching))
          ∧ (orig = dest →
               idsAt state' dest.1 dest.2 = merge_sort Z.le (remaining ++ matching))
          ∧ (∀ a b, (a, b) ≠ orig → (a, b) ≠ dest → idsAt state' a b = idsAt state a b)
          ∧ Sorted Z.le (idsAt state' dest.1 dest.2)
          ∧ (∀ id, id ∈ idsAt state' dest.1 dest.2
                   ↔ id ∈ idsAt state dest.1 dest.2 ∨ id ∈ matching)))
  ∧ (∀ s h0, idsAt s 1 "a" = [3; 7; 10] → idsAt s 2 "b" = [1] →
       ∃ s' h',
         streamsReducer (Some s) (EVENT_UPDATE_MESSAGE [7; 10] (Some (mkMove 1 "a" 2 "b"))) h0
         = Ok s' h'
         ∧ idsAt s' 1 "a" = [3] ∧ idsAt s' 2 "b" = [1; 7; 10]).
Proof.
  assert (Hgen : ∀ state message_ids move h,
    let matching := matching_ids state message_ids move in
    let remaining := remaining_ids state message_ids move in
    ∃ state' h',
      streamsReducer (Some state) (EVENT_UPDATE_MESSAGE message_ids (Some move)) h
      = Ok state' h'
      ∧ (matching = [] → state' = state)
      ∧ (matching ≠ [] →
           (∀ a b, idsAt state' a b
                   = if decide (a = new_stream_id move ∧ b = new_topic move)
                     then merge_sort Z.le
                            ((if decide (new_stream_id move = orig_stream_id move
                                         ∧ new_topic move = orig_topic move)
                              then remaining
                              else idsAt state (new_stream_id move) (new_topic move))
                             ++ matching)
                     else if decide (a = orig_stream_id move ∧ b = orig_topic move)
                          then remaining
                          else idsAt state a b))).
  { clear. intros state message_ids move h matching remaining. simpl.
    destruct (decide (matching = [])) as [Hn|Hn].
    - destruct (returns_moveMessages_none _ _ _ Hn h) as (s' & h' & E & _ & ->).
      by exists state, h'.
    - destruct (returns_moveMessages _ _ _ Hn h) as (s' & h' & E & _ & mid & Hmid & Hs' & _).
      exists s', h'. split; [done|]. split; [done|]. intros _ a b.
      by rewrite Hs', !Hmid. }
  intros matching remaining orig dest. split.
  - destruct (Hgen state message_ids move h) as (s' & h' & E & Hnone & Hsome).
    exists s', h'. split; [done|]. split; [done|]. intros Hm. specialize (Hsome Hm).
    fold matching remaining in Hsome. unfold orig, dest. simpl.
    set (same := new_stream_id move = orig_stream_id move
                 ∧ new_topic move = orig_topic move) in *.
    assert (Hdest : idsAt s' (new_stream_id move) (new_topic move)
              = merge_sort Z.le
                  ((if decide same then remaining
                    else idsAt state (new_stream_id move) (new_topic move)) ++ matching)).
    { rewrite Hsome. by rewrite (decide_True (P := _ = new_stream_id move ∧ _)). }
    split_and!.
    + intros Hne. assert (Hns : ¬ same) by (intros [E1 E2]; apply Hne; by rewrite E1, E2).
      split.
      * rewrite Hsome. rewrite decide_False by (intros [E1 E2]; apply Hns; by split).
        by rewrite decide_True.
      * rewrite Hdest. by rewrite decide_False.
    + intros Heq. rewrite Hdest. rewrite decide_True; [done|]. by simplify_eq.
    + intros a b Ho Hd. rewrite Hsome.
      rewrite decide_False by (intros [-> ->]; by apply Hd).
      by rewrite decide_False by (intros [-> ->]; by apply Ho).
    + rewrite Hdest. apply Sorted_merge_sort. apply _.
    + intros id. rewrite Hdest, merge_sort_Permutation, elem_of_app.
      destruct (decide same) as [[E1 E2]|Hns]; [|done].
      unfold remaining, matching, remaining_ids, matching_ids. rewrite E1, E2.
      rewrite !list_elem_of_filter.
      destruct (decide (id ∈ message_ids)); tauto.
  - intros s h0 Ha Hb.
    destruct (Hgen s [7; 10] (mkMove 1 "a" 2 "b") h0) as (s' & h' & E & _ & Hsome).
    unfold matching_ids, remaining_ids in Hsome. simpl in Hsome. rewrite Ha, Hb in Hsome.
    exists s', h'. split; [done|]. split.
    + rewrite Hsome by done. reflexivity.
    + rewrite Hsome by done. reflexivity.
Qed.

Lemma move_messages_spec_witness :
  let state :=
    (after initialStreamsState heap0
       (REGISTER_COMPLETE (Some [mkUnreadStream 1 "a" [3; 7; 10];
                                 mkUnreadStream 2 "b" [1]]))).1 in
  idsAt state 1 "a" = [3; 7; 10] ∧ idsAt state 2 "b" = [1]
  ∧ ∃ s' h',
      streamsReducer (Some state)
        (EVENT_UPDATE_MESSAGE [7; 10] (Some (mkMove 1 "a" 2 "b"))) heap0
      = Ok s' h'
      ∧ idsAt s' 1 "a" = [3] ∧ idsAt s' 2 "b" = [1; 7; 10].
Proof.
  intros state.
  assert (Ha : idsAt state 1 "a" = [3; 7; 10]) by (vm_compute; reflexivity).
  assert (Hb : idsAt state 2 "b" = [1]) by (vm_compute; reflexivity).
  split; [exact Ha|]. split; [exact Hb|].
  exact (proj2 (move_messages_spec state [7; 10] (mkMove 1 "a" 2 "b") heap0)
           state heap0 Ha Hb).
Defined.

(** ** Marking messages as unread again *)

(** Messages without stream details do nothing in the first loop of
    [markUnread]. *)
Lemma group_by_topic_skip {Acc} (f : Z → Acc → M Acc) (keep : Z → bool)
    (messages : list Z) :
  (∀ id acc h, keep id = false → f id acc h = Ok acc h) →
  ∀ acc h, foldM f (filter (λ id, keep id = true) messages) acc h = foldM f messages acc h.
Proof.
  intros Hskip. induction messages as [|id messages IH]; intros acc h; [done|].
  rewrite filter_cons. destruct (keep id) eqn:Ek.
  - rewrite decide_True by done. simpl. unfold bind. destruct (f id acc h); [apply IH|done].
  - rewrite decide_False by done. simpl. unfold bind. rewrite Hskip by done. apply IH.
Qed.

Lemma routed_to_is_routed message_details a b messages :
  routed_to message_details a b
    (filter (λ id, is_routed message_details id = true) messages)
  = routed_to message_details a b messages.
Proof.
  unfold routed_to. rewrite list_filter_filter. apply list_filter_iff.
  intros id. unfold is_routed. split; [tauto|]. intros E. by rewrite E.
Qed.

(** C6. For an update-message-flags event with flag ["read"], [all] false,
    op ["remove"] and [message_details]: in the state returned, the ids of
    each topic are the union, computed as by [setUnion], of the ids the
    topic had and the sorted group of the event's ids that the details place
    in it.  So a topic without ids before holds its sorted group; and where
    the old list is strictly ascending and the group free of duplicates the
    new list is strictly ascending and holds the ids of both.  In
    particular, from the empty index the messages 20 and 21, both of topic
    "x" of stream 1, give [20,21] there in whichever order they are
    listed. *)
Theorem mark_unread_merges_groups (state : UnreadStreamsState) (messages : list Z)
    (message_details : gmap Z MessageDetails) (h : Heap) :
  (∃ state' h',
     streamsReducer (Some state)
       (EVENT_UPDATE_MESSAGE_FLAGS "read" false "remove" messages (Some message_details)) h
     = Ok state' h'
     ∧ ∀ a b,
         let group := merge_sort Z.le (routed_to message_details a b messages) in
         Sorted Z.le group
         ∧ idsAt state' a b = two_pointer_merge (idsAt state a b) group
         ∧ (idsAt state a b = [] → idsAt state' a b = group)
         ∧ (Sorted Z.lt (idsAt state a b) →
            NoDup (routed_to message_details a b messages) →
            Sorted Z.lt (idsAt state' a b)
            ∧ ∀ id, id ∈ idsAt state' a b
                    ↔ id ∈ idsAt state a b ∨ id ∈ routed_to message_details a b messages))
  ∧ (∀ order h0, order = [20; 21] ∨ order = [21; 20] →
       ∃ state' h',
         streamsReducer (Some initialStreamsState)
           (EVENT_UPDATE_MESSAGE_FLAGS "read" false "remove" order
              (Some {[20 := StreamDetails 1 "x"; 21 := StreamDetails 1 "x"]})) h0
         = Ok state' h'
         ∧ idsAt state' 1 "x" = [20; 21]).
Proof.
  assert (Hgen : ∀ state messages message_details h,
    ∃ state' h',
      streamsReducer (Some state)
        (EVENT_UPDATE_MESSAGE_FLAGS "read" false "remove" messages (Some message_details)) h
      = Ok state' h'
      ∧ ∀ a b, idsAt state' a b
               = two_pointer_merge (idsAt state a b)
                   (merge_sort Z.le (routed_to message_details a b messages))).
  { clear. intros state messages message_details h.
    destruct (returns_markUnread state messages message_details h)
      as (s' & h' & E & _ & Hs' & _).
    by exists s', h'. }
  split.
  - destruct (Hgen state messages message_details h) as (s' & h' & E & Hs').
    exists s', h'. split; [done|]. intros a b group. split_and!.
    + apply Sorted_merge_sort. apply _.
    + apply Hs'.
    + intros Hnil. by rewrite Hs', Hnil, two_pointer_merge_nil_l.
    + intros Hold Hnd. rewrite Hs'. split.
      * apply ascending_Sorted, ascending_two_pointer_merge;
          [by apply ascending_Sorted|by apply ascending_merge_sort].
      * intros id. by rewrite elem_of_two_pointer_merge, merge_sort_Permutation.
  - intros order h0 Horder.
    destruct (Hgen initialStreamsState order
                {[20 := StreamDetails 1 "x"; 21 := StreamDetails 1 "x"]} h0)
      as (s' & h' & E & Hs').
    exists s', h'. split; [done|]. rewrite Hs', idsAt_initial.
    by destruct Horder as [-> | ->].
Qed.

Lemma mark_unread_merges_groups_witness :
  ([21; 20] = [20; 21] ∨ [21; 20] = [21; 20])
  ∧ ∃ state' h',
      streamsReducer (Some initialStreamsState)
        (EVENT_UPDATE_MESSAGE_FLAGS "read" false "remove" [21; 20]
           (Some {[20 := StreamDetails 1 "x"; 21 := StreamDetails 1 "x"]})) heap0
      = Ok state' h'
      ∧ idsAt state' 1 "x" = [20; 21].
Proof.
  assert (Horder : [21; 20] = [20; 21] ∨ [21; 20] = [21; 20]) by (by right).
  split; [exact Horder|].
  exact (proj2 (mark_unread_merges_groups initialStreamsState [21; 20]
                  {[20 := StreamDetails 1 "x"; 21 := StreamDetails 1 "x"]} heap0)
           [21; 20] heap0 Horder).
Defined.

(** C10. In such an event, a message id that [message_details] has no
    entry for, or an entry that is not of type 'stream', is passed over:
    the reducer does not fail and logs nothing, and heap and state come out
    exactly as for the event without those ids, the ids with stream details
    being grouped and merged as usual.  A warning is logged only when
    [message_details] is missing altogether. *)
Theorem mark_unread_skips_unrouted (state : UnreadStreamsState) (messages : list Z)
    (message_details : gmap Z MessageDetails) (h : Heap) :
  let event msgs details := EVENT_UPDATE_MESSAGE_FLAGS "read" false "remove" msgs details in
  let routed := filter (λ id, is_routed message_details id = true) messages in
  ∃ state' h',
    streamsReducer (Some state) (event messages (Some message_details)) h = Ok state' h'
    ∧ log h' = log h
    ∧ streamsReducer (Some state) (event routed (Some message_details)) h = Ok state' h'
    ∧ (∀ a b, idsAt state' a b
              = two_pointer_merge (idsAt state a b)
                  (merge_sort Z.le (routed_to message_details a b routed)))
    ∧ (∃ h'', streamsReducer (Some state) (event messages None) h = Ok state h''
              ∧ log h'' ≠ log h).
Proof.
  intros event routed.
  destruct (returns_markUnread state messages message_details h)
    as (s' & h' & E & Hlog & Hs' & _).
  exists s', h'. split; [exact E|]. split; [exact Hlog|]. split; [|split].
  - rewrite <- E. unfold event, streamsReducer. simpl. unfold markUnread, bind.
    unfold routed. rewrite group_by_topic_skip; [done|].
    intros id acc h0 Hk. unfold is_routed in Hk.
    by destruct (message_details !! id) as [[?|]|].
  - intros a b. unfold routed. by rewrite routed_to_is_routed.
  - eexists. split; [reflexivity|]. simpl. intros Heq.
    apply (f_equal length) in Heq. rewrite length_app in Heq. simpl in Heq. lia.
Qed.

(** C6 as stated does not hold for every event: when an event lists a
    message twice, its group holds the id twice, and the merge into the
    empty index keeps both copies. *)
Lemma mark_unread_counterexample :
  let event := EVENT_UPDATE_MESSAGE_FLAGS "read" false "remove" [20; 20]
                 (Some {[20 := StreamDetails 1 "x"]}) in
  let state := (after initialStreamsState heap0 event).1 in
  streamsReducer (Some initialStreamsState) event heap0
  = Ok state (after initialStreamsState heap0 event).2
  ∧ idsAt state 1 "x" = [20; 20]
  ∧ ¬ NoDup (idsAt state 1 "x")
  ∧ ¬ (∀ (s : UnreadStreamsState) messages message_details h a b,
         Sorted Z.lt (idsAt s a b) →
         ∃ s' h',
           streamsReducer (Some s)
             (EVENT_UPDATE_MESSAGE_FLAGS "read" false "remove" messages
                (Some message_details)) h
           = Ok s' h'
           ∧ Sorted Z.lt (idsAt s' a b)).
Proof.
  intros event state.
  assert (E : idsAt state 1 "x" = [20; 20]) by (vm_compute; reflexivity).
  assert (Hrun : streamsReducer (Some initialStreamsState) event heap0
                 = Ok state (after initialStreamsState heap0 event).2)
    by (by apply after_run).
  assert (Hdup : ¬ NoDup [20; 20]).
  { intros Hnd. apply NoDup_cons in Hnd as [Hnin _]. apply Hnin. left. }
  split_and!.
  - exact Hrun.
  - exact E.
  - by rewrite E.
  - intros Hall.
    destruct (Hall initialStreamsState [20; 20] {[20 := StreamDetails 1 "x"]} heap0 1 "x")
      as (s' & h' & E' & Hs').
    { rewrite idsAt_initial. constructor. }
    fold event in E'. rewrite Hrun in E'. simplify_eq. rewrite E in Hs'.
    apply Hdup, ascending_NoDup, ascending_Sorted, Hs'.
Qed.

(** * Further properties of the code *)

(** ** [setUnion] beyond its precondition, and its algebra *)

Lemma ascending_ext l1 l2 :
  ascending l1 → ascending l2 → (∀ z, z ∈ l1 ↔ z ∈ l2) → l1 = l2.
Proof.
  intros H1 H2 Hel. apply (StronglySorted_unique_strong Z.lt); [|done..|].
  - intros x1 x2 _ _ ? ?. lia.
  - by apply NoDup_Permutation; [apply ascending_NoDup..|].
Qed.

Lemma length_two_pointer_merge xs : ∀ ys,
  (length xs `max` length ys ≤ length (two_pointer_merge xs ys) ≤ length xs + length ys)%nat.
Proof.
  induction xs as [|x xs IHx]; intros ys.
  - rewrite two_pointer_merge_nil_l. simpl. lia.
  - induction ys as [|y ys IHy].
    + rewrite two_pointer_merge_nil_r. simpl. lia.
    + rewrite two_pointer_merge_cons. repeat case_decide; simpl.
      * specialize (IHx (y :: ys)). simpl in IHx. lia.
      * simpl in IHy. lia.
      * specialize (IHx ys). lia.
Qed.

(** On strictly ascending lists [setUnion] is commutative and associative,
    as far as the items go: [setUnion(xs, ys)] and [setUnion(ys, xs)] hold
    the same items in the same order, and so do
    [setUnion(setUnion(xs, ys), zs)] and [setUnion(xs, setUnion(ys, zs))]. *)
Theorem setUnion_comm_assoc (xs ys zs : List) (h : Heap) :
  Sorted Z.lt (items xs) → Sorted Z.lt (items ys) → Sorted Z.lt (items zs) →
  (∃ r1 h1 r2 h2,
     setUnion xs ys h = Ok r1 h1 ∧ setUnion ys xs h = Ok r2 h2 ∧ items r1 = items r2)
  ∧ (∃ xy h1 r h2 yz h3 r' h4,
       setUnion xs ys h = Ok xy h1 ∧ setUnion xy zs h1 = Ok r h2
       ∧ setUnion ys zs h = Ok yz h3 ∧ setUnion xs yz h3 = Ok r' h4
       ∧ items r = items r').
Proof.
  intros Hxs Hys Hzs. apply ascending_Sorted in Hxs, Hys, Hzs.
  destruct (returns_setUnion xs ys h) as (xy & h1 & Exy & _ & Ixy).
  destruct (returns_setUnion ys xs h) as (yx & h1' & Eyx & _ & Iyx).
  destruct (returns_setUnion xy zs h1) as (r & h2 & Er & _ & Ir).
  destruct (returns_setUnion ys zs h) as (yz & h3 & Eyz & _ & Iyz).
  destruct (returns_setUnion xs yz h3) as (r' & h4 & Er' & _ & Ir').
  split.
  - exists xy, h1, yx, h1'. split; [done|]. split; [done|]. rewrite Ixy, Iyx.
    apply ascending_ext; [by apply ascending_two_pointer_merge..|].
    intros z. rewrite !elem_of_two_pointer_merge. tauto.
  - exists xy, h1, r, h2, yz, h3, r', h4. split_and!; try done.
    rewrite Ir, Ir', Ixy, Iyz.
    apply ascending_ext; [by repeat apply ascending_two_pointer_merge..|].
    intros z. rewrite !elem_of_two_pointer_merge. tauto.
Qed.

Lemma setUnion_comm_assoc_witness :
  Sorted Z.lt [1; 4] ∧ Sorted Z.lt [2; 4; 9] ∧ Sorted Z.lt [3] ∧
  ∃ r1 h1 r2 h2,
    setUnion (mkList 1 [1; 4]) (mkList 2 [2; 4; 9]) heap0 = Ok r1 h1
    ∧ setUnion (mkList 2 [2; 4; 9]) (mkList 1 [1; 4]) heap0 = Ok r2 h2
    ∧ items r1 = items r2.
Proof.
  assert (H1 : Sorted Z.lt [1; 4]) by (repeat constructor; lia).
  assert (H2 : Sorted Z.lt [2; 4; 9]) by (repeat constructor; lia).
  assert (H3 : Sorted Z.lt [3]) by (repeat constructor).
  split_and!; [exact H1|exact H2|exact H3|].
  exact (proj1 (setUnion_comm_assoc (mkList 1 [1; 4]) (mkList 2 [2; 4; 9]) (mkList 3 [3])
                  heap0 H1 H2 H3)).
Defined.

(** Whatever lists it is given, sorted or not, [setUnion] returns: the
    result holds exactly the elements of the two inputs, it is at least as
    long as the longer input and at most as long as both together, and it is
    the shared empty list, with nothing allocated, when both inputs are
    empty, and a newly allocated list otherwise. *)
Theorem setUnion_any_lists (xs ys : List) (h : Heap) :
  ∃ r h', setUnion xs ys h = Ok r h'
    ∧ (∀ z, z ∈ items r ↔ z ∈ items xs ∨ z ∈ items ys)
    ∧ (size xs `max` size ys ≤ size r ≤ size xs + size ys)%nat
    ∧ (if decide (items xs = [] ∧ items ys = [])
       then r = emptyList ∧ h' = h
       else list_tag r = next h ∧ h' = mkHeap (N.succ (next h)) (log h)).
Proof.
  unfold setUnion. rewrite setUnion_array_merge.
  pose proof (elem_of_two_pointer_merge (items xs) (items ys)) as Hel.
  pose proof (length_two_pointer_merge (items xs) (items ys)) as Hlen.
  destruct (two_pointer_merge (items xs) (items ys)) as [|z l] eqn:E.
  - exists emptyList, h. split; [done|]. split; [done|]. split; [done|].
    simpl in Hlen. assert (items xs = [] ∧ items ys = []) as Hnil.
    { split; apply length_zero_iff_nil; lia. }
    by rewrite decide_True.
  - exists (mkList (next h) (z :: l)), (mkHeap (N.succ (next h)) (log h)).
    split; [done|]. split; [done|]. split; [done|].
    rewrite decide_False; [done|]. intros [Hx Hy]. rewrite Hx, Hy in E. done.
Qed.

(** ** [updateAll] and [updateAllAndPrune] *)

Lemma foldM_ext_in {X Acc} (f g : X → Acc → M Acc) (l : list X) :
  (∀ x acc h, x ∈ l → f x acc h = g x acc h) →
  ∀ acc h, foldM f l acc h = foldM g l acc h.
Proof.
  induction l as [|x l IH]; intros Hfg acc h; [done|].
  simpl. unfold bind. rewrite Hfg by left.
  destruct (g x acc h); [|done]. apply IH. intros. apply Hfg. by right.
Qed.

Lemma foldM_unchanged {X Acc} (f : X → Acc → M Acc) (l : list X) (acc : Acc) :
  (∀ x h, x ∈ l → f x acc h = Ok acc h) →
  ∀ h, foldM f l acc h = Ok acc h.
Proof.
  induction l as [|x l IH]; intros Hf h; [done|].
  simpl. unfold bind. rewrite Hf by left. apply IH. intros. apply Hf. by right.
Qed.

Section prune_facts.
Context `{Countable K} `{EqDecision V}.
Implicit Types (m : Map K V).

(** When the updater leaves every value of the map as it is, and no value
    is [zero], the map itself comes back and nothing is allocated. *)
Lemma updateAllAndPrune_unchanged m zero updater :
  (∀ k v, entries m !! k = Some v → v ≠ zero ∧ ∀ h, updater v h = Ok v h) →
  ∀ h, updateAllAndPrune m zero updater h = Ok m h.
Proof.
  intros Hsame h. unfold updateAllAndPrune, withMutations, forEach, bind.
  rewrite foldM_unchanged; [done|].
  intros [k v] h0 Hin. apply elem_of_map_to_list in Hin.
  destruct (Hsame k v Hin) as [Hz Hup]. simpl. unfold bind. rewrite Hup.
  rewrite decide_False by done. by rewrite decide_True.
Qed.

(** [updateAllAndPrune] is [updateAll] as long as the updater never yields
    [zero] on a value of the map: state, heap and failures agree. *)
Theorem updateAllAndPrune_as_updateAll m zero updater h :
  (∀ k v h0 v' h', entries m !! k = Some v → updater v h0 = Ok v' h' → v' ≠ zero) →
  updateAllAndPrune m zero updater h = updateAll m updater h.
Proof.
  intros Hnz. unfold updateAllAndPrune, updateAll, withMutations, forEach, bind.
  rewrite (foldM_ext_in _ (λ kv : K * V, (λ value key mapMut,
             let* newValue := updater value in
             if decide (newValue ≠ value) then ret (mut_set mapMut key newValue)
             else ret mapMut) kv.2 kv.1)); [done|].
  intros [k v] acc h0 Hin. apply elem_of_map_to_list in Hin. simpl. unfold bind.
  destruct (updater v h0) as [v' h'|e] eqn:E; [|done].
  rewrite decide_False by (by eapply Hnz).
  by destruct (decide (v' = v)), (decide (v' ≠ v)).
Qed.

(** With an updater that computes [g] and does nothing else,
    [updateAllAndPrune] maps [g] over the values and drops the entries whose
    new value is [zero]; and it returns the map itself, allocating nothing,
    when [g] fixes every value of the map and none of them is [zero]. *)
Theorem updateAllAndPrune_pure m zero (g : V → V) h :
  ∃ r h', updateAllAndPrune m zero (λ v, ret (g v)) h = Ok r h'
    ∧ entries r
      = omap (λ v, if decide (g v = zero) then None else Some (g v)) (entries m)
    ∧ (entries r = ∅ → r = m ∨ r = emptyMap)
    ∧ ((∀ k v, entries m !! k = Some v → g v = v ∧ v ≠ zero) → r = m ∧ h' = h).
Proof.
  destruct (returns_updateAllAndPrune m zero (λ v, ret (g v)) (λ v v', v' = g v)) with (h := h)
    as (r & h' & E & _ & Hr & Hk).
  { intros k v _. by apply returns_ret. }
  exists r, h'. split; [done|]. split_and!.
  - apply map_eq. intros k. rewrite lookup_omap. specialize (Hr k).
    destruct (entries m !! k) as [v|]; simpl; [|done].
    by destruct Hr as (v' & -> & ->).
  - intros He. destruct Hk as [->|Hk]; [by left|right; auto].
  - intros Hfix. rewrite updateAllAndPrune_unchanged in E; [by simplify_eq|].
    intros k v Hkv. destruct (Hfix k v Hkv) as [Hg Hz]. split; [done|].
    intros h0. unfold ret. by rewrite Hg.
Qed.
End prune_facts.

Lemma updateAllAndPrune_as_updateAll_witness :
  let m : Map Z Z := mkMap 1 {[1 := 5; 2 := 7]} in
  let updater : Z → M Z := λ v, ret (v + 1) in
  (∀ k v h0 v' h', entries m !! k = Some v → updater v h0 = Ok v' h' → v' ≠ 0)
  ∧ updateAllAndPrune m 0 updater heap0 = updateAll m updater heap0.
Proof.
  intros m updater.
  assert (Hnz : ∀ k v h0 v' h',
            entries m !! k = Some v → updater v h0 = Ok v' h' → v' ≠ 0).
  { intros k v h0 v' h' Hk Hup. inversion Hup; subst. simpl in Hk.
    apply lookup_insert_Some in Hk as [[<- <-]|[_ Hk]]; [lia|].
    apply lookup_singleton_Some in Hk as [<- <-]. lia. }
  split; [exact Hnz|]. exact (updateAllAndPrune_as_updateAll m 0 updater heap0 Hnz).
Defined.

(** ** [deleteMessages], path by path *)

Lemma find_in_filter_not pred l :
  find_in pred (filter (λ id, negb (pred id) = true) l) = None.
Proof.
  induction l as [|x l IH]; [done|]. rewrite filter_cons.
  destruct (pred x) eqn:E; simpl; [done|]. by rewrite E.
Qed.

Lemma find_in_Some pred l x : find_in pred l = Some x → x ∈ l ∧ pred x = true.
Proof.
  induction l as [|y l IH]; [done|]. simpl. destruct (pred y) eqn:E.
  - intros [= ->]. split; [left|done].
  - intros Hf. destruct (IH Hf). split; [by right|done].
Qed.

Lemma find_in_None pred l : find_in pred l = None ↔ ∀ x, x ∈ l → pred x = false.
Proof.
  induction l as [|y l IH]; simpl.
  - split; [|done]. intros _ x Hx. by apply elem_of_nil in Hx.
  - destruct (pred y) eqn:E.
    + split; [done|]. intros Hall. specialize (Hall y). rewrite E in Hall.
      discriminate Hall. left.
    + rewrite IH. split.
      * intros Hall x Hx. apply elem_of_cons in Hx as [->|Hx]; auto.
      * intros Hall x Hx. apply Hall. by right.
Qed.

Lemma idsAt_entryAt state a b :
  idsAt state a b = items (default emptyList (entryAt state a b)).
Proof. done. Qed.

Lemma returns_deleteMessages_paths state ids :
  returns (deleteMessages state ids) (λ state',
    (∀ a b, match entryAt state a b with
            | None => entryAt state' a b = None
            | Some l => deleted_at ids l (entryAt state' a b)
            end)
    ∧ (∀ a perStream, get state' a = Some perStream →
         perStream ≠ emptyMap
         ∧ ∀ b l, get perStream b = Some l →
             l ≠ emptyList ∧ truthy (find (has (list_to_set ids)) l) = false)).
Proof.
  unfold deleteMessages.
  set (toDelete := has (list_to_set ids)).
  set (Rl := λ l l' : List,
    if truthy (find toDelete l)
    then items l' = filter (λ id, id ∉ ids) (items l) ∧ (items l' = [] → l' = emptyList)
    else l' = l).
  set (Rtm := λ tm tm' : Map string List,
    ∀ b, match entries tm !! b with
         | Some l => ∃ l', Rl l l'
             ∧ entries tm' !! b = if decide (l' = emptyList) then None else Some l'
         | None => entries tm' !! b = None
         end).
  eapply returns_mono.
  { apply (returns_updateAllAndPrune state emptyMap _ Rtm). intros a tm Ha.
    eapply returns_mono.
    - apply (returns_updateAllAndPrune tm emptyList _ Rl). intros b l Hb.
      unfold Rl. destruct (truthy _).
      + unfold filterNot. eapply returns_mono; [apply returns_filter|].
        intros l' [E1 E2]. unfold toDelete in E1. by rewrite filter_not_has in E1.
      + by apply returns_ret.
    - by intros tm' [Htm' _]. }
  intros r [Hr _]. split.
  - intros a b. unfold entryAt, get. specialize (Hr a).
    destruct (entries state !! a) as [tm|] eqn:Ea; simpl; [|by rewrite Hr].
    destruct Hr as (tm' & Htm' & ->). specialize (Htm' b).
    assert (Hb : (if decide (tm' = emptyMap) then None else Some tm')
                 ≫= (λ perStream, entries perStream !! b) = entries tm' !! b).
    { case_decide as Hz; [|done]. subst tm'. simpl. by rewrite lookup_empty. }
    rewrite Hb. clear Hb. destruct (entries tm !! b) as [l|] eqn:El; [|done].
    destruct Htm' as (l' & HRl & ->). unfold deleted_at, Rl in *. fold toDelete.
    destruct (truthy (find toDelete l)).
    + destruct HRl as [Ei He]. destruct (decide (l' = emptyList)) as [Hz|Hz].
      * subst l'. by rewrite <- Ei.
      * split; [done|]. intros Hi. by apply Hz, He.
    + simpl in HRl. by subst l'.
  - intros a tm' Ha. unfold get in Ha. specialize (Hr a).
    destruct (entries state !! a) as [tm|] eqn:Ea; [|congruence].
    destruct Hr as (tm1 & Htm' & E). rewrite E in Ha. case_decide as Hz; [done|].
    simplify_eq. split; [done|]. intros b l' Hb. unfold get in Hb.
    specialize (Htm' b). destruct (entries tm !! b) as [l|] eqn:El; [|congruence].
    destruct Htm' as (l1 & HRl & E1). rewrite E1 in Hb. case_decide as Hz'; [done|].
    simplify_eq. split; [done|]. unfold Rl in HRl.
    destruct (truthy (find toDelete l)) eqn:Et; [|by simpl in HRl; subst].
    destruct HRl as [Ei _]. unfold find. rewrite Ei.
    rewrite <- (filter_not_has ids). fold toDelete. by rewrite find_in_filter_not.
Qed.

Lemma truthy_find_false ids l :
  0 ∉ ids →
  truthy (find (has (list_to_set ids)) l) = false → ∀ x, x ∈ items l → x ∉ ids.
Proof.
  intros H0 Ht. unfold find in Ht.
  destruct (find_in (has (list_to_set ids)) (items l)) as [v|] eqn:Ef.
  - apply find_in_Some in Ef as [_ Hv]. unfold has in Hv.
    apply bool_decide_eq_true, elem_of_list_to_set in Hv.
    simpl in Ht. apply bool_decide_eq_false in Ht.
    assert (v = 0) as -> by (destruct (decide (v = 0)); [done|by destruct Ht]). done.
  - intros x Hx. rewrite find_in_None in Ef. specialize (Ef x Hx). unfold has in Ef.
    by apply bool_decide_eq_false in Ef; rewrite elem_of_list_to_set in Ef.
Qed.

Lemma filter_all (P : Z → Prop) `{∀ x, Decision (P x)} (l : list Z) :
  (∀ x, x ∈ l → P x) → filter P l = l.
Proof.
  induction l as [|x l IH]; intros Hall; [done|].
  rewrite filter_cons, decide_True by (apply Hall; left).
  f_equal. apply IH. intros. apply Hall. by right.
Qed.

Lemma filter_none (P : Z → Prop) `{∀ x, Decision (P x)} (l : list Z) :
  filter P l = [] ↔ ∀ x, x ∈ l → ¬ P x.
Proof.
  split.
  - intros E x Hx HP. assert (x ∈ filter P l) as Hin by (by apply list_elem_of_filter).
    rewrite E in Hin. by apply elem_of_nil in Hin.
  - intros Hall. destruct (filter P l) as [|x l'] eqn:E; [done|].
    assert (x ∈ filter P l) as Hin by (rewrite E; left).
    apply list_elem_of_filter in Hin as [HP Hx]. by destruct (Hall x Hx).
Qed.

Lemma returns_deleteMessages_nonzero state ids :
  0 ∉ ids →
  returns (deleteMessages state ids) (λ state',
    (∀ a b, idsAt state' a b = filter (λ id, id ∉ ids) (idsAt state a b))
    ∧ (∀ a b, idsAt state a b ≠ [] → (∀ id, id ∈ idsAt state a b → id ∈ ids) →
         entryAt state' a b = None)).
Proof.
  intros H0. eapply returns_mono; [apply returns_deleteMessages_paths|].
  intros s' [Hpath _]. split.
  - intros a b. rewrite !idsAt_entryAt. specialize (Hpath a b).
    destruct (entryAt state a b) as [l|]; simpl; [|by rewrite Hpath].
    unfold deleted_at in Hpath.
    destruct (truthy (find (has (list_to_set ids)) l)) eqn:Et.
    + destruct (entryAt s' a b) as [l'|]; simpl; [by destruct Hpath|by rewrite Hpath].
    + rewrite Hpath, filter_all by (by apply truthy_find_false).
      case_decide; [by subst|done].
  - intros a b Hne Hall. specialize (Hpath a b). rewrite idsAt_entryAt in Hne, Hall.
    destruct (entryAt state a b) as [l|]; simpl in *; [|done].
    assert (Hf : filter (λ id, id ∉ ids) (items l) = []).
    { apply filter_none. intros x Hx Hn. by apply Hn, Hall. }
    unfold deleted_at in Hpath.
    destruct (truthy (find (has (list_to_set ids)) l)) eqn:Et.
    + destruct (entryAt s' a b) as [l'|]; [|done]. destruct Hpath as [Ei Hn].
      by rewrite Ei, Hf in Hn.
    + destruct (items l) as [|x l0] eqn:El; [done|].
      pose proof (truthy_find_false ids l H0 Et x) as Hx. rewrite El in Hx.
      destruct Hx; [left|]. apply Hall. left.
Qed.

(** As long as 0 is not among the ids to delete, [deleteMessages] removes
    the ids from the list of every topic and leaves the other ids in their
    order; a topic that loses all its ids has no entry afterwards; and in an
    index without empty branches a stream that loses all its ids has no
    entry afterwards. *)
Theorem deleteMessages_removes (state : UnreadStreamsState) (ids : list Z) (h : Heap) :
  0 ∉ ids →
  ∃ state' h', deleteMessages state ids h = Ok state' h'
    ∧ (∀ a b, idsAt state' a b = filter (λ id, id ∉ ids) (idsAt state a b))
    ∧ (∀ a b, idsAt state a b ≠ [] → (∀ id, id ∈ idsAt state a b → id ∈ ids) →
         entryAt state' a b = None)
    ∧ (no_empty_stream state → all_lists (λ l, l ≠ []) state →
       ∀ a, (∀ b id, id ∈ idsAt state a b → id ∈ ids) → get state' a = None).
Proof.
  intros H0.
  destruct (returns_deleteMessages_paths state ids h) as (s' & h' & E & _ & Hpath & _).
  destruct (returns_run _ _ _ _ _ (returns_deleteMessages state ids) E) as [[_ Hne'] _].
  destruct (returns_run _ _ _ _ _ (returns_deleteMessages_nonzero state ids H0) E)
    as [[Hids Hgone] _].
  exists s', h'. split; [done|].
  split; [done|]. split; [done|].
  intros Hne Hall a Ha. destruct (get s' a) as [tm'|] eqn:Ea; [|done].
  exfalso. destruct (map_choose (entries tm')) as (b & l' & Hb); [by eapply Hne'|].
  assert (Hentry : entryAt s' a b = Some l') by (unfold entryAt; by rewrite Ea).
  specialize (Hpath a b). rewrite Hentry in Hpath.
  destruct (entryAt state a b) as [l|] eqn:El; [|done].
  rewrite Hgone in Hentry; [done| |by apply Ha].
  rewrite idsAt_entryAt, El. simpl. unfold entryAt in El.
  destruct (get state a) as [tm|] eqn:Etm; [|done]. simpl in El. by eapply Hall.
Qed.

Lemma deleteMessages_removes_witness :
  (0 ∉ [9])
  ∧ ∃ state' h',
      deleteMessages
        (after initialStreamsState heap0
           (REGISTER_COMPLETE (Some [mkUnreadStream 1 "a" [5; 9]]))).1 [9] heap0
      = Ok state' h'
      ∧ idsAt state' 1 "a" = [5].
Proof.
  assert (H0 : 0 ∉ [9]).
  { intros Hin. apply list_elem_of_singleton in Hin. done. }
  split; [exact H0|].
  destruct (deleteMessages_removes
              (after initialStreamsState heap0
                 (REGISTER_COMPLETE (Some [mkUnreadStream 1 "a" [5; 9]]))).1 [9] heap0 H0)
    as (s' & h' & E & Hids & _).
  exists s', h'. split; [exact E|]. rewrite Hids. vm_compute. reflexivity.
Defined.

(** The test [perTopic.find(toDelete) ? ...] takes the id it finds for a
    truth value.  So when the first id of a list that is to be deleted is 0,
    [deleteMessages] leaves the whole list in place, the very same
    instance, with 0 and with every other id that was to be deleted. *)
Theorem deleteMessages_zero_first (state : UnreadStreamsState) (ids : list Z)
    (h : Heap) a b (l : List) (before after : list Z) :
  entryAt state a b = Some l →
  items l = before ++ 0 :: after →
  (∀ id, id ∈ before → id ∉ ids) →
  0 ∈ ids →
  ∃ state' h', deleteMessages state ids h = Ok state' h'
    ∧ entryAt state' a b = Some l.
Proof.
  intros El Hitems Hbefore H0.
  destruct (returns_deleteMessages_paths state ids h) as (s' & h' & E & _ & Hpath & _).
  exists s', h'. split; [done|]. specialize (Hpath a b). rewrite El in Hpath.
  unfold deleted_at in Hpath.
  assert (Hfind : find (has (list_to_set ids)) l = Some 0).
  { unfold find. rewrite Hitems. clear Hitems. induction before as [|x before IH]; simpl.
    - unfold has. by rewrite bool_decide_eq_true_2 by (by apply elem_of_list_to_set).
    - unfold has at 1. rewrite bool_decide_eq_false_2.
      + apply IH. intros id Hid. apply Hbefore. by right.
      + rewrite elem_of_list_to_set. apply Hbefore. left. }
  rewrite Hfind in Hpath. simpl in Hpath. rewrite Hpath.
  rewrite decide_False; [done|]. intros ->. by destruct before.
Qed.

Lemma deleteMessages_zero_first_witness :
  let state :=
    (after initialStreamsState heap0
       (REGISTER_COMPLETE (Some [mkUnreadStream 1 "a" [0; 5]]))).1 in
  entryAt state 1 "a" = Some (mkList 1 [0; 5])
  ∧ ∃ state' h', deleteMessages state [0; 5] heap0 = Ok state' h'
      ∧ entryAt state' 1 "a" = Some (mkList 1 [0; 5]).
Proof.
  intros state.
  assert (El : entryAt state 1 "a" = Some (mkList 1 [0; 5])) by (vm_compute; reflexivity).
  split; [exact El|].
  apply (deleteMessages_zero_first state [0; 5] heap0 1 "a" (mkList 1 [0; 5]) [] [5] El).
  - reflexivity.
  - intros id Hid. by apply elem_of_nil in Hid.
  - left.
Defined.

Lemma deleteMessages_same state ids :
  (∀ a perStream, get state a = Some perStream →
     perStream ≠ emptyMap
     ∧ ∀ b l, get perStream b = Some l →
         l ≠ emptyList ∧ truthy (find (has (list_to_set ids)) l) = false) →
  ∀ h, deleteMessages state ids h = Ok state h.
Proof.
  intros Hsame h. unfold deleteMessages.
  apply updateAllAndPrune_unchanged. intros a tm Ha.
  destruct (Hsame a tm Ha) as [Hz Hlists]. split; [done|]. intros h0.
  apply updateAllAndPrune_unchanged. intros b l Hb.
  destruct (Hlists b l Hb) as [Hzl Ht]. split; [done|]. intros h1. by rewrite Ht.
Qed.

(** In an index without empty branches, deleting ids that no topic holds
    returns the very state that was given, and allocates nothing: every
    branch is reference-stable. *)
Theorem deleteMessages_untouched (state : UnreadStreamsState) (ids : list Z) (h : Heap) :
  no_empty_stream state → all_lists (λ l, l ≠ []) state →
  (∀ a b id, id ∈ idsAt state a b → id ∉ ids) →
  deleteMessages state ids h = Ok state h.
Proof.
  intros Hne Hall Hnone. apply deleteMessages_same. intros a tm Ha. split.
  - intros ->. by apply (Hne a emptyMap).
  - intros b l Hb. split.
    + intros ->. by apply (Hall a tm b emptyList).
    + unfold find. rewrite (proj2 (find_in_None _ _)); [done|].
      intros x Hx. unfold has. apply bool_decide_eq_false. rewrite elem_of_list_to_set.
      apply (Hnone a b). by rewrite (idsAt_Some state a tm b l).
Qed.

Lemma deleteMessages_untouched_witness :
  let state :=
    (after initialStreamsState heap0
       (REGISTER_COMPLETE (Some [mkUnreadStream 1 "a" [5; 9]]))).1 in
  deleteMessages state [7] heap0 = Ok state heap0.
Proof.
  intros state.
  assert (Hstate : state = mkMap 3 {[1 := mkMap 2 {["a" := mkList 1 [5; 9]]}]})
    by (vm_compute; reflexivity).
  apply deleteMessages_untouched.
  - rewrite Hstate. intros a tm Ha. unfold get in Ha. simpl in Ha.
    apply lookup_singleton_Some in Ha as [_ <-]. simpl. apply insert_non_empty.
  - rewrite Hstate. intros a tm b l Ha Hb. unfold get in Ha, Hb. simpl in Ha.
    apply lookup_singleton_Some in Ha as [_ <-]. simpl in Hb.
    apply lookup_singleton_Some in Hb as [_ <-]. done.
  - intros a b id Hin Hid. apply list_elem_of_singleton in Hid as ->.
    rewrite Hstate in Hin. unfold idsAt, getIn, get in Hin. simpl in Hin.
    destruct (decide (a = 1)) as [->|Ha].
    + rewrite lookup_singleton_eq in Hin. simpl in Hin.
      destruct (decide (b = "a")) as [->|Hb].
      * rewrite lookup_singleton_eq in Hin. simpl in Hin.
        rewrite !elem_of_cons, elem_of_nil in Hin. lia.
      * rewrite lookup_singleton_ne in Hin by done. by apply elem_of_nil in Hin.
    + rewrite lookup_singleton_ne in Hin by done. by apply elem_of_nil in Hin.
Defined.

(** Deleting the same ids a second time changes nothing: the second
    [deleteMessages] returns the very state the first one returned and
    allocates nothing. *)
Theorem deleteMessages_idempotent (state state' : UnreadStreamsState) (ids : list Z)
    (h h' : Heap) :
  deleteMessages state ids h = Ok state' h' →
  ∀ h2, deleteMessages state' ids h2 = Ok state' h2.
Proof.
  intros E.
  destruct (returns_run _ _ _ _ _ (returns_deleteMessages_paths state ids) E)
    as [[_ Hkept] _].
  by apply deleteMessages_same.
Qed.

Lemma deleteMessages_idempotent_witness :
  let state :=
    (after initialStreamsState heap0
       (REGISTER_COMPLETE (Some [mkUnreadStream 1 "a" [5; 9]]))).1 in
  let once := after state heap0 (EVENT_MESSAGE_DELETE [9]) in
  deleteMessages state [9] heap0 = Ok once.1 once.2
  ∧ deleteMessages once.1 [9] once.2 = Ok once.1 once.2.
Proof.
  intros state once.
  assert (E : deleteMessages state [9] heap0 = Ok once.1 once.2)
    by (by apply (after_run state heap0 (EVENT_MESSAGE_DELETE [9]))).
  split; [exact E|].
  exact (deleteMessages_idempotent state once.1 [9] heap0 once.2 E once.2).
Defined.

(** ** [deleteMessagesIn], path by path *)

(** [deleteMessagesIn] touches one path only.  Every other path keeps the
    list instance it had.  The path itself holds the ids that are not in
    [ids], in a new list, or nothing at all when no id is left.  And when
    the path held nothing, in an index without empty streams, the very
    state comes back and nothing is allocated. *)
Theorem deleteMessagesIn_paths (state : UnreadStreamsState) (streamId : Z)
    (topic : string) (ids : gset Z) (h : Heap) :
  ∃ state' h', deleteMessagesIn state streamId topic ids h = Ok state' h'
    ∧ (∀ a b, (a, b) ≠ (streamId, topic) → entryAt state' a b = entryAt state a b)
    ∧ match entryAt state' streamId topic with
      | None => filter (λ id, id ∉ ids) (idsAt state streamId topic) = []
      | Some l' =>
          items l' = filter (λ id, id ∉ ids) (idsAt state streamId topic)
          ∧ items l' ≠ []
      end
    ∧ (entryAt state streamId topic = None → no_empty_stream state →
       state' = state ∧ h' = h).
Proof.
  assert (Hf : ∀ l : list Z,
            filter (λ id, negb (has ids id) = true) l = filter (λ id, id ∉ ids) l).
  { intros l. apply list_filter_iff. intros id. unfold has.
    by rewrite negb_true_iff, bool_decide_eq_false. }
  unfold deleteMessagesIn.
  set (tm0 := default emptyMap (get state streamId)).
  set (l0 := default emptyList (get tm0 topic)).
  assert (Hl0 : items l0 = idsAt state streamId topic) by (by rewrite idsAt_eq).
  destruct (returns_updateAndPrune state emptyMap streamId
              (λ perStream, updateAndPrune (default emptyMap perStream) emptyList topic
                 (λ perTopic, filter_ (λ id, negb (has ids id)) (default emptyList perTopic)))
              (λ tm', ∃ l', (items l' = filter (λ id, id ∉ ids) (idsAt state streamId topic)
                             ∧ (items l' = [] → l' = emptyList))
                 ∧ entries tm' = if decide (l' = emptyList) then delete topic (entries tm0)
                                 else <[topic := l']> (entries tm0))) with (h := h)
    as (r & h' & E & _ & _ & tm' & (l' & [El' Hl'] & Etm') & Er).
  { fold tm0. eapply returns_mono; [apply returns_updateAndPrune, returns_filter|].
    fold l0. intros tm' (_ & l' & [El' Hl'] & Etm'). exists l'.
    rewrite Hl0, Hf in El'. done. }
  exists r, h'. split; [exact E|].
  assert (Etm : ∀ b, entries tm' !! b
                     = if decide (b = topic)
                       then (if decide (l' = emptyList) then None else Some l')
                       else entries tm0 !! b).
  { intros b. rewrite Etm'. destruct (decide (l' = emptyList)), (decide (b = topic)); subst;
      by rewrite ?lookup_delete_eq, ?lookup_delete_ne, ?lookup_insert_eq, ?lookup_insert_ne. }
  assert (Es : ∀ a, entries r !! a
                    = if decide (a = streamId)
                      then (if decide (tm' = emptyMap) then None else Some tm')
                      else entries state !! a).
  { intros a. rewrite Er. destruct (decide (tm' = emptyMap)), (decide (a = streamId)); subst;
      by rewrite ?lookup_delete_eq, ?lookup_delete_ne, ?lookup_insert_eq, ?lookup_insert_ne. }
  assert (Hin : ∀ b, entryAt r streamId b = entries tm' !! b).
  { intros b. unfold entryAt, get. rewrite Es, decide_True by done.
    case_decide as Hz; [|done]. subst tm'. simpl. by rewrite lookup_empty. }
  assert (Hold : ∀ b, entryAt state streamId b = entries tm0 !! b).
  { intros b. unfold entryAt, tm0, get. destruct (entries state !! streamId); [done|].
    simpl. by rewrite lookup_empty. }
  clear Etm' Er. split_and!.
  - intros a b Hne. destruct (decide (a = streamId)) as [->|Ha].
    + rewrite Hin, Hold, Etm. rewrite decide_False; [done|]. by intros ->.
    + unfold entryAt, get. rewrite Es. by rewrite decide_False.
  - rewrite Hin, Etm, decide_True by done.
    destruct (decide (l' = emptyList)) as [->|Hz]; [by rewrite <- El'|].
    split; [done|]. intros Hi. by apply Hz, Hl'.
  - intros Hnone Hne. clear Etm Es Hin.
    unfold updateAndPrune, bind in E. fold tm0 in E.
    assert (Htopic : get tm0 topic = None) by (unfold get; by rewrite <- Hold).
    rewrite Htopic in E. simpl in E. unfold delete_ in E. unfold get in Htopic.
    rewrite Htopic in E. simpl in E. unfold ret in E.
    destruct (decide (tm0 = emptyMap)) as [Hz|Hz].
    + unfold tm0 in Hz. destruct (get state streamId) as [tm|] eqn:Eg; simpl in Hz.
      * exfalso. apply (Hne streamId tm Eg). by subst.
      * unfold get in Eg. rewrite Eg in E. by simplify_eq.
    + rewrite decide_True in E; [by simplify_eq|].
      unfold tm0 in *. destruct (get state streamId) as [tm|] eqn:Eg; [done|].
      by destruct Hz.
Qed.

Lemma deleteMessagesIn_paths_witness :
  let state :=
    (after initialStreamsState heap0
       (REGISTER_COMPLETE (Some [mkUnreadStream 1 "a" [5; 9]]))).1 in
  entryAt state 2 "b" = None ∧ no_empty_stream state
  ∧ deleteMessagesIn state 2 "b" {[5]} heap0 = Ok state heap0.
Proof.
  intros state.
  assert (Hnone : entryAt state 2 "b" = None) by (vm_compute; reflexivity).
  assert (Hne : no_empty_stream state).
  { eapply (step_preserves (λ _, True)), after_run; done. }
  split; [exact Hnone|]. split; [exact Hne|].
  destruct (deleteMessagesIn_paths state 2 "b" {[5]} heap0)
    as (s' & h' & E & _ & _ & Hsame).
  destruct (Hsame Hnone Hne) as [-> ->]. exact E.
Defined.

(** ** The cases of [streamsReducer] *)

(** A new stream message that is not flagged as read is appended to the
    list of its topic, at the end whatever its id, and a topic without an
    entry gets one; all other topics keep their lists, and the state
    returned is never the state given. *)
Theorem new_message_appends (state : UnreadStreamsState) (id stream_id : Z)
    (subject : string) (flags : list string) (h : Heap) :
  "read" ∉ flags →
  ∃ state' h',
    streamsReducer (Some state)
      (EVENT_NEW_MESSAGE (StreamMessage id stream_id subject (Some flags))) h
    = Ok state' h'
    ∧ idsAt state' stream_id subject = idsAt state stream_id subject ++ [id]
    ∧ (∀ a b, (a, b) ≠ (stream_id, subject) → idsAt state' a b = idsAt state a b)
    ∧ is_Some (entryAt state' stream_id subject)
    ∧ state' ≠ state.
Proof.
  intros Hread. unfold streamsReducer, bind. simpl.
  unfold includes. rewrite bool_decide_eq_false_2 by done.
  destruct (returns_newMessage state stream_id subject id h)
    as (s' & h' & E & _ & l & El & Hput).
  exists s', h'. split; [exact E|].
  assert (Hat : idsAt s' stream_id subject = idsAt state stream_id subject ++ [id]).
  { rewrite (put_at_idsAt _ _ _ _ _ _ _ Hput), decide_True by done. exact El. }
  split_and!.
  - exact Hat.
  - intros a b Hne. rewrite (put_at_idsAt _ _ _ _ _ _ _ Hput), decide_False; [done|].
    intros [-> ->]. done.
  - rewrite idsAt_entryAt in Hat. destruct (entryAt s' stream_id subject); [done|].
    simpl in Hat. by destruct (idsAt state stream_id subject).
  - intros ->. apply (f_equal length) in Hat. rewrite length_app in Hat. simpl in Hat. lia.
Qed.

Lemma new_message_appends_witness :
  let state :=
    (after initialStreamsState heap0
       (REGISTER_COMPLETE (Some [mkUnreadStream 1 "a" [5; 9]]))).1 in
  ("read" ∉ ["mentioned"])
  ∧ ∃ state' h',
      streamsReducer (Some state)
        (EVENT_NEW_MESSAGE (StreamMessage 3 1 "a" (Some ["mentioned"]))) heap0
      = Ok state' h'
      ∧ idsAt state' 1 "a" = [5; 9; 3].
Proof.
  intros state.
  assert (Hread : "read" ∉ ["mentioned"]).
  { intros Hin. apply list_elem_of_singleton in Hin. done. }
  split; [exact Hread|].
  destruct (new_message_appends state 3 1 "a" ["mentioned"] heap0 Hread)
    as (s' & h' & E & Hat & _).
  exists s', h'. split; [exact E|]. rewrite Hat. vm_compute. reflexivity.
Defined.

(** The reducer writes to the log in one case only: whenever it returns
    with a log other than the one it started with, the action is a
    read-flag removal without [message_details], the log has grown by the
    one warning, and the state is the one that was given. *)
Theorem streamsReducer_logs_only_missing_details (state : UnreadStreamsState)
    (action : Action) (h h' : Heap) (state' : UnreadStreamsState) :
  streamsReducer (Some state) action h = Ok state' h' →
  log h' ≠ log h →
  (∃ messages,
     action = EVENT_UPDATE_MESSAGE_FLAGS "read" false "remove" messages None)
  ∧ log h' = log h ++ ["Got update_message_flags/remove/read event without message_details."]
  ∧ state' = state.
Proof.
  intros Hrun Hlog. unfold streamsReducer in Hrun. simpl in Hrun.
  assert (Hquiet : ∀ (m : M UnreadStreamsState) Q, returns m Q → m h = Ok state' h' → False).
  { intros m Q Hm E. by destruct (returns_run _ _ _ _ _ Hm E) as [_ ?]. }
  destruct action as [|data| |message|messageIds|flag all op messages details
                      |message_ids move|].
  - by inversion Hrun; subst.
  - destruct (Hquiet _ _ (returns_registerComplete _) Hrun).
  - by inversion Hrun; subst.
  - destruct message as [id stream_id subject flags|id flags]; [|by inversion Hrun; subst].
    unfold bind, invariant in Hrun. destruct (bool_decide (is_Some flags)); [|done].
    simpl in Hrun. destruct (includes _ _); [by inversion Hrun; subst|].
    destruct (Hquiet _ _ (returns_newMessage _ _ _ _) Hrun).
  - destruct (Hquiet _ _ (returns_deleteMessages _ _) Hrun).
  - destruct (decide (flag ≠ "read")) as [Hflag|Hflag]; [by inversion Hrun; subst|].
    apply dec_stable in Hflag. subst flag.
    destruct all; [by inversion Hrun; subst|].
    destruct (decide (op = "remove")) as [->|Hop];
      [|destruct (Hquiet _ _ (returns_deleteMessages _ _) Hrun)].
    destruct details as [message_details|];
      [destruct (Hquiet _ _ (returns_markUnread _ _ _) Hrun)|].
    unfold bind, warn, ret in Hrun. inversion Hrun; subst. simpl.
    split; [by exists messages|done].
  - destruct move as [move|]; [|by inversion Hrun; subst].
    destruct (decide (matching_ids state message_ids move = [])) as [Hnone|Hsome].
    + destruct (Hquiet _ _ (returns_moveMessages_none _ _ _ Hnone) Hrun).
    + destruct (Hquiet _ _ (returns_moveMessages _ _ _ Hsome) Hrun).
  - by inversion Hrun; subst.
Qed.

Lemma streamsReducer_logs_only_missing_details_witness :
  let action := EVENT_UPDATE_MESSAGE_FLAGS "read" false "remove" [5] None in
  let h' := mkHeap 1 ["Got update_message_flags/remove/read event without message_details."] in
  streamsReducer (Some initialStreamsState) action heap0 = Ok initialStreamsState h'
  ∧ log h' ≠ log heap0
  ∧ ∃ messages,
      action = EVENT_UPDATE_MESSAGE_FLAGS "read" false "remove" messages None.
Proof.
  intros action h'.
  assert (Hrun : streamsReducer (Some initialStreamsState) action heap0
                 = Ok initialStreamsState h') by reflexivity.
  assert (Hlog : log h' ≠ log heap0) by done.
  split; [exact Hrun|]. split; [exact Hlog|].
  exact (proj1 (streamsReducer_logs_only_missing_details initialStreamsState action
                  heap0 h' initialStreamsState Hrun Hlog)).
Defined.

(** An event that marks messages as unread, none of which has stream
    details, changes nothing: the very state comes back and nothing is
    allocated or logged. *)
Theorem mark_unread_nothing_routed (state : UnreadStreamsState) (messages : list Z)
    (message_details : gmap Z MessageDetails) (h : Heap) :
  (∀ id, id ∈ messages → is_routed message_details id = false) →
  streamsReducer (Some state)
    (EVENT_UPDATE_MESSAGE_FLAGS "read" false "remove" messages (Some message_details)) h
  = Ok state h.
Proof.
  intros Hnone. unfold streamsReducer. simpl. unfold markUnread, bind.
  rewrite foldM_unchanged.
  - unfold map_, withMutations, forEach, bind. simpl. rewrite map_to_list_empty. simpl.
    unfold mergeWith. by rewrite decide_True.
  - intros id h0 Hin. specialize (Hnone id Hin). unfold is_routed in Hnone.
    by destruct (message_details !! id) as [[?|]|].
Qed.

Lemma mark_unread_nothing_routed_witness :
  let details : gmap Z MessageDetails := {[7 := PmDetails]} in
  (∀ id, id ∈ [7; 8] → is_routed details id = false)
  ∧ streamsReducer (Some initialStreamsState)
      (EVENT_UPDATE_MESSAGE_FLAGS "read" false "remove" [7; 8] (Some details)) heap0
    = Ok initialStreamsState heap0.
Proof.
  intros details.
  assert (Hnone : ∀ id, id ∈ [7; 8] → is_routed details id = false).
  { intros id Hin. rewrite !elem_of_cons, elem_of_nil in Hin.
    destruct Hin as [->|[->|[]]]; reflexivity. }
  split; [exact Hnone|].
  exact (mark_unread_nothing_routed initialStreamsState [7; 8] details heap0 Hnone).
Defined.

(** ** Actions one after the other *)

Lemma filter_two_pointer_merge (P : Z → Prop) `{∀ x, Decision (P x)} xs : ∀ ys,
  (∀ y, y ∈ ys → ¬ P y) →
  filter P (two_pointer_merge xs ys) = filter P xs.
Proof.
  induction xs as [|x xs IHx]; intros ys Hys.
  - rewrite two_pointer_merge_nil_l. by apply filter_none.
  - induction ys as [|y ys IHy].
    + by rewrite two_pointer_merge_nil_r.
    + rewrite two_pointer_merge_cons. repeat case_decide.
      * rewrite !(filter_cons _ x). by rewrite IHx.
      * rewrite filter_cons, decide_False by (apply Hys; left).
        apply IHy. intros. apply Hys. by right.
      * assert (x = y) by lia. subst y.
        rewrite !(filter_cons _ x), !decide_False by (apply Hys; left).
        apply IHx. intros. apply Hys. by right.
Qed.

(** Marking messages as unread and then as read again leaves in every
    topic what marking them as read alone would leave: the ids the topic had
    before, without those of the event.  (0 is not among the ids.) *)
Theorem mark_unread_then_read (state : UnreadStreamsState) (messages : list Z)
    (message_details : gmap Z MessageDetails) (h : Heap) :
  0 ∉ messages →
  ∃ s1 h1 s2 h2,
    streamsReducer (Some state)
      (EVENT_UPDATE_MESSAGE_FLAGS "read" false "remove" messages (Some message_details)) h
    = Ok s1 h1
    ∧ streamsReducer (Some s1)
        (EVENT_UPDATE_MESSAGE_FLAGS "read" false "add" messages None) h1
      = Ok s2 h2
    ∧ (∀ a b, idsAt s2 a b = filter (λ id, id ∉ messages) (idsAt state a b))
    ∧ ((∀ a b id, id ∈ idsAt state a b → id ∉ messages) →
       ∀ a b, idsAt s2 a b = idsAt state a b).
Proof.
  intros H0.
  destruct (returns_markUnread state messages message_details h)
    as (s1 & h1 & E1 & _ & Hs1 & _).
  destruct (returns_deleteMessages_nonzero s1 messages H0 h1)
    as (s2 & h2 & E2 & _ & Hs2 & _).
  exists s1, h1, s2, h2. split; [exact E1|]. split; [exact E2|].
  assert (Hids : ∀ a b, idsAt s2 a b = filter (λ id, id ∉ messages) (idsAt state a b)).
  { intros a b. rewrite Hs2, Hs1. apply filter_two_pointer_merge.
    intros y Hy Hn. apply Hn. rewrite merge_sort_Permutation in Hy.
    unfold routed_to in Hy. by apply list_elem_of_filter in Hy as [_ ?]. }
  split; [exact Hids|]. intros Hfresh a b. rewrite Hids. apply filter_all.
  intros x Hx. by eapply Hfresh.
Qed.

Lemma mark_unread_then_read_witness :
  (0 ∉ [21; 20])
  ∧ ∃ s1 h1 s2 h2,
      streamsReducer (Some initialStreamsState)
        (EVENT_UPDATE_MESSAGE_FLAGS "read" false "remove" [21; 20]
           (Some {[20 := StreamDetails 1 "x"; 21 := StreamDetails 1 "x"]})) heap0
      = Ok s1 h1
      ∧ streamsReducer (Some s1)
          (EVENT_UPDATE_MESSAGE_FLAGS "read" false "add" [21; 20] None) h1
        = Ok s2 h2
      ∧ idsAt s2 1 "x" = [].
Proof.
  assert (H0 : 0 ∉ [21; 20]).
  { intros Hin. rewrite !elem_of_cons, elem_of_nil in Hin. lia. }
  split; [exact H0|].
  destruct (mark_unread_then_read initialStreamsState [21; 20]
              {[20 := StreamDetails 1 "x"; 21 := StreamDetails 1 "x"]} heap0 H0)
    as (s1 & h1 & s2 & h2 & E1 & E2 & Hids & _).
  exists s1, h1, s2, h2. split; [exact E1|]. split; [exact E2|].
  by rewrite Hids, idsAt_initial.
Defined.

(** A new unread stream message followed by the deletion of that message
    restores every list of the index, provided the id is not 0 and was not
    in the index; and a topic that had no entry has none again. *)
Theorem new_message_then_delete (state : UnreadStreamsState) (id stream_id : Z)
    (subject : string) (flags : list string) (h : Heap) :
  "read" ∉ flags → id ≠ 0 →
  (∀ a b, id ∉ idsAt state a b) →
  ∃ s1 h1 s2 h2,
    streamsReducer (Some state)
      (EVENT_NEW_MESSAGE (StreamMessage id stream_id subject (Some flags))) h
    = Ok s1 h1
    ∧ streamsReducer (Some s1) (EVENT_MESSAGE_DELETE [id]) h1 = Ok s2 h2
    ∧ (∀ a b, idsAt s2 a b = idsAt state a b)
    ∧ (entryAt state stream_id subject = None → entryAt s2 stream_id subject = None).
Proof.
  intros Hread Hid Hfresh.
  assert (H0 : 0 ∉ [id]).
  { intros Hin. apply list_elem_of_singleton in Hin. done. }
  assert (E1 : ∃ s1 h1,
            streamsReducer (Some state)
              (EVENT_NEW_MESSAGE (StreamMessage id stream_id subject (Some flags))) h
            = Ok s1 h1
            ∧ ∀ a b, idsAt s1 a b
                     = if decide (a = stream_id ∧ b = subject)
                       then idsAt state a b ++ [id] else idsAt state a b).
  { unfold streamsReducer, bind. simpl.
    unfold includes. rewrite bool_decide_eq_false_2 by done.
    destruct (returns_newMessage state stream_id subject id h)
      as (s' & h' & E & _ & l & El & Hput).
    exists s', h'. split; [exact E|]. intros a b.
    rewrite (put_at_idsAt _ _ _ _ _ _ _ Hput). case_decide as Hd; [|done].
    by destruct Hd as [-> ->]. }
  destruct E1 as (s1 & h1 & E1 & Hs1).
  destruct (returns_deleteMessages_nonzero s1 [id] H0 h1)
    as (s2 & h2 & E2 & _ & Hs2 & Hgone).
  exists s1, h1, s2, h2. split; [exact E1|]. split; [exact E2|]. split.
  - intros a b. rewrite Hs2, Hs1.
    assert (Hold : filter (λ id0, id0 ∉ [id]) (idsAt state a b) = idsAt state a b).
    { apply filter_all. intros x Hx Hin. apply list_elem_of_singleton in Hin as ->.
      by apply (Hfresh a b). }
    case_decide; [|done]. rewrite filter_app, Hold.
    rewrite filter_cons, decide_False, filter_nil, app_nil_r; [done|].
    intros Hn. apply Hn. left.
  - intros Hnone. apply Hgone.
    + rewrite Hs1, decide_True by done. by destruct (idsAt state stream_id subject).
    + intros x. rewrite Hs1, decide_True by done.
      rewrite idsAt_entryAt, Hnone. simpl. intros Hx.
      by apply list_elem_of_singleton in Hx as ->; left.
Qed.

Lemma new_message_then_delete_witness :
  ("read" ∉ @nil string) ∧ 12 ≠ 0 ∧ (∀ a b, 12 ∉ idsAt initialStreamsState a b)
  ∧ ∃ s1 h1 s2 h2,
      streamsReducer (Some initialStreamsState)
        (EVENT_NEW_MESSAGE (StreamMessage 12 1 "a" (Some []))) heap0
      = Ok s1 h1
      ∧ streamsReducer (Some s1) (EVENT_MESSAGE_DELETE [12]) h1 = Ok s2 h2
      ∧ entryAt s2 1 "a" = None.
Proof.
  assert (Hread : "read" ∉ @nil string) by (intros Hin; by apply elem_of_nil in Hin).
  assert (Hid : 12 ≠ 0) by lia.
  assert (Hfresh : ∀ a b, 12 ∉ idsAt initialStreamsState a b).
  { intros a b Hin. rewrite idsAt_initial in Hin. by apply elem_of_nil in Hin. }
  split; [exact Hread|]. split; [exact Hid|]. split; [exact Hfresh|].
  destruct (new_message_then_delete initialStreamsState 12 1 "a" [] heap0
              Hread Hid Hfresh)
    as (s1 & h1 & s2 & h2 & E1 & E2 & _ & Hgone).
  exists s1, h1, s2, h2. split; [exact E1|]. split; [exact E2|]. by apply Hgone.
Defined.

Lemma ascending_filter (P : Z → Prop) `{∀ x, Decision (P x)} l :
  ascending l → ascending (filter P l).
Proof.
  induction l as [|x l IH]; intros Hl; [done|].
  apply ascending_cons in Hl as [Hx Hl]. rewrite filter_cons.
  case_decide; [|by apply IH]. apply ascending_cons. split; [|by apply IH].
  rewrite Forall_forall in *. intros z Hz. apply list_elem_of_filter in Hz as [_ Hz]. auto.
Qed.

Lemma returns_moveMessages_idsAt state message_ids move :
  matching_ids state message_ids move ≠ [] →
  returns (moveMessages state message_ids move) (λ state',
    ∀ a b, idsAt state' a b
           = if decide (a = new_stream_id move ∧ b = new_topic move)
             then merge_sort Z.le
                    ((if decide (new_stream_id move = orig_stream_id move
                                 ∧ new_topic move = orig_topic move)
                      then remaining_ids state message_ids move
                      else idsAt state (new_stream_id move) (new_topic move))
                     ++ matching_ids state message_ids move)
             else if decide (a = orig_stream_id move ∧ b = orig_topic move)
                  then remaining_ids state message_ids move
                  else idsAt state a b).
Proof.
  intros Hm. eapply returns_mono; [by apply returns_moveMessages|].
  intros s' (mid & Hmid & Hs' & _) a b. by rewrite Hs', !Hmid.
Qed.

(** Moving messages to another topic and back restores every list of the
    index, when the lists of the two topics are strictly ascending and the
    destination holds none of the ids of the event. *)
Theorem move_there_and_back (state : UnreadStreamsState) (message_ids : list Z)
    (move : MessageMove) (h : Heap) :
  let back := mkMove (new_stream_id move) (new_topic move)
                     (orig_stream_id move) (orig_topic move) in
  (orig_stream_id move, orig_topic move) ≠ (new_stream_id move, new_topic move) →
  Sorted Z.lt (idsAt state (orig_stream_id move) (orig_topic move)) →
  Sorted Z.lt (idsAt state (new_stream_id move) (new_topic move)) →
  (∀ id, id ∈ message_ids → id ∉ idsAt state (new_stream_id move) (new_topic move)) →
  ∃ s1 h1 s2 h2,
    streamsReducer (Some state) (EVENT_UPDATE_MESSAGE message_ids (Some move)) h
    = Ok s1 h1
    ∧ streamsReducer (Some s1) (EVENT_UPDATE_MESSAGE message_ids (Some back)) h1
      = Ok s2 h2
    ∧ ∀ a b, idsAt s2 a b = idsAt state a b.
Proof.
  intros back Hdiff HO HD Hfresh. apply ascending_Sorted in HO, HD.
  set (O := idsAt state (orig_stream_id move) (orig_topic move)) in *.
  set (D := idsAt state (new_stream_id move) (new_topic move)) in *.
  set (Mt := matching_ids state message_ids move).
  set (R := remaining_ids state message_ids move).
  assert (HMt : ∀ x, x ∈ Mt ↔ x ∈ message_ids ∧ x ∈ O).
  { intros x. unfold Mt, matching_ids. by rewrite list_elem_of_filter. }
  assert (HR : ∀ x, x ∈ R ↔ x ∉ message_ids ∧ x ∈ O).
  { intros x. unfold R, remaining_ids. by rewrite list_elem_of_filter. }
  simpl.
  destruct (decide (Mt = [])) as [Hnone|Hsome].
  { (* nothing to move, either way *)
    destruct (returns_moveMessages_none state message_ids move Hnone h)
      as (s1 & h1 & E1 & _ & ->).
    assert (Hnone' : matching_ids state message_ids back = []).
    { unfold matching_ids, back. simpl. fold D. apply filter_none.
      intros x Hx Hin. by apply (Hfresh x). }
    destruct (returns_moveMessages_none state message_ids back Hnone' h1)
      as (s2 & h2 & E2 & _ & ->).
    by exists state, h1, state, h2. }
  assert (Hns : ¬ (new_stream_id move = orig_stream_id move
                   ∧ new_topic move = orig_topic move)).
  { intros [E1 E2]. apply Hdiff. by rewrite E1, E2. }
  assert (Hns' : ¬ (orig_stream_id move = new_stream_id move
                    ∧ orig_topic move = new_topic move)).
  { intros [E1 E2]. apply Hdiff. by rewrite E1, E2. }
  destruct (returns_moveMessages_idsAt state message_ids move Hsome h)
    as (s1 & h1 & E1 & _ & Hs1).
  fold Mt R D in Hs1. rewrite (decide_False (P := new_stream_id move = _ ∧ _)) in Hs1 by done.
  set (S1 := merge_sort Z.le (D ++ Mt)) in *.
  assert (HndDM : NoDup (D ++ Mt)).
  { apply NoDup_app. split_and!.
    - by apply ascending_NoDup.
    - intros x Hx Hin. apply HMt in Hin as [Hin _]. by apply (Hfresh x).
    - unfold Mt, matching_ids. by apply NoDup_filter, ascending_NoDup. }
  assert (HS1 : ascending S1) by (by apply ascending_merge_sort).
  assert (HS1el : ∀ x, x ∈ S1 ↔ x ∈ D ∨ x ∈ Mt).
  { intros x. unfold S1. by rewrite merge_sort_Permutation, elem_of_app. }
  assert (Hd1 : idsAt s1 (new_stream_id move) (new_topic move) = S1).
  { rewrite Hs1. by rewrite decide_True. }
  assert (Ho1 : idsAt s1 (orig_stream_id move) (orig_topic move) = R).
  { rewrite Hs1. rewrite decide_False by done. by rewrite decide_True. }
  assert (Hm2 : matching_ids s1 message_ids back = Mt).
  { unfold matching_ids, back. simpl. rewrite Hd1.
    apply ascending_ext.
    - by apply ascending_filter.
    - unfold Mt, matching_ids. by apply ascending_filter.
    - intros x. rewrite list_elem_of_filter, HS1el, HMt.
      split; [|tauto]. intros [Hin [Hx|Hx]]; [by destruct (Hfresh x)|tauto]. }
  assert (Hr2 : remaining_ids s1 message_ids back = D).
  { unfold remaining_ids, back. simpl. rewrite Hd1.
    apply ascending_ext; [by apply ascending_filter|done|].
    intros x. rewrite list_elem_of_filter, HS1el, HMt.
    split; [tauto|]. intros Hx. split; [|by left]. intros Hin. by apply (Hfresh x). }
  assert (Hsome2 : matching_ids s1 message_ids back ≠ []) by (by rewrite Hm2).
  destruct (returns_moveMessages_idsAt s1 message_ids back Hsome2 h1)
    as (s2 & h2 & E2 & _ & Hs2).
  rewrite Hm2, Hr2 in Hs2. unfold back in Hs2. simpl in Hs2.
  rewrite (decide_False (P := orig_stream_id move = _ ∧ _)) in Hs2 by done.
  rewrite Ho1 in Hs2.
  assert (HRM : merge_sort Z.le (R ++ Mt) = O).
  { apply ascending_ext; [|done|].
    - apply ascending_merge_sort, NoDup_app. split_and!.
      + unfold R, remaining_ids. by apply NoDup_filter, ascending_NoDup.
      + intros x Hx Hin. apply HR in Hx. apply HMt in Hin. tauto.
      + unfold Mt, matching_ids. by apply NoDup_filter, ascending_NoDup.
    - intros x. rewrite merge_sort_Permutation, elem_of_app, HR, HMt.
      destruct (decide (x ∈ message_ids)); tauto. }
  exists s1, h1, s2, h2. split; [exact E1|]. split; [exact E2|].
  intros a b. rewrite Hs2.
  destruct (decide (a = orig_stream_id move ∧ b = orig_topic move)) as [[-> ->]|Ho].
  { by rewrite HRM. }
  destruct (decide (a = new_stream_id move ∧ b = new_topic move)) as [[-> ->]|Hd].
  { done. }
  rewrite Hs1. by rewrite !decide_False.
Qed.

Lemma move_there_and_back_witness :
  let state :=
    (after initialStreamsState heap0
       (REGISTER_COMPLETE (Some [mkUnreadStream 1 "a" [3; 7; 10];
                                 mkUnreadStream 2 "b" [1]]))).1 in
  let move := mkMove 1 "a" 2 "b" in
  ∃ s1 h1 s2 h2,
    streamsReducer (Some state) (EVENT_UPDATE_MESSAGE [7; 10] (Some move)) heap0
    = Ok s1 h1
    ∧ streamsReducer (Some s1)
        (EVENT_UPDATE_MESSAGE [7; 10] (Some (mkMove 2 "b" 1 "a"))) h1
      = Ok s2 h2
    ∧ idsAt s2 1 "a" = [3; 7; 10] ∧ idsAt s2 2 "b" = [1].
Proof.
  intros state move.
  assert (Ha : idsAt state 1 "a" = [3; 7; 10]) by (vm_compute; reflexivity).
  assert (Hb : idsAt state 2 "b" = [1]) by (vm_compute; reflexivity).
  destruct (move_there_and_back state [7; 10] move heap0)
    as (s1 & h1 & s2 & h2 & E1 & E2 & Hids).
  - simpl. congruence.
  - simpl. rewrite Ha. repeat constructor; lia.
  - simpl. rewrite Hb. repeat constructor.
  - intros id Hin. simpl. rewrite Hb. rewrite !elem_of_cons, elem_of_nil in *. lia.
  - exists s1, h1, s2, h2. split; [exact E1|]. split; [exact E2|].
    by rewrite !Hids, Ha, Hb.
Defined.

(** ** The registration snapshot *)

Lemma arrayOf_getOrCreate_push {E} (byStream : list (Z * list E)) stream_id entry k :
  arrayOf (getOrCreate_push byStream stream_id entry) k
  = if decide (k = stream_id)
    then Some (default [] (arrayOf byStream stream_id) ++ [entry])
    else arrayOf byStream k.
Proof.
  induction byStream as [|[k0 arr] rest IH]; simpl.
  - destruct (decide (stream_id = k)), (decide (k = stream_id)); congruence.
  - destruct (decide (k0 = stream_id)) as [->|Hne]; simpl.
    + destruct (decide (stream_id = k)), (decide (k = stream_id)); congruence.
    + rewrite IH. destruct (decide (k0 = k)), (decide (k = stream_id)); congruence.
Qed.

Lemma arrayOf_None {E} (byStream : list (Z * list E)) k :
  arrayOf byStream k = None ↔ k ∉ byStream.*1.
Proof.
  induction byStream as [|[k0 arr] rest IH]; simpl.
  - split; [|done]. intros _ Hin. by apply elem_of_nil in Hin.
  - rewrite not_elem_of_cons. case_decide; [|rewrite IH]; naive_solver.
Qed.

Lemma NoDup_getOrCreate_push {E} (byStream : list (Z * list E)) stream_id entry :
  NoDup byStream.*1 → NoDup (getOrCreate_push byStream stream_id entry).*1.
Proof.
  intros Hnd. induction byStream as [|[k0 arr] rest IH]; simpl.
  - apply NoDup_singleton.
  - simpl in Hnd. apply NoDup_cons in Hnd as [Hk0 Hnd]. case_decide; simpl.
    + by apply NoDup_cons.
    + apply NoDup_cons. split; [|by apply IH].
      rewrite <- arrayOf_None, arrayOf_getOrCreate_push, decide_False by done.
      by apply arrayOf_None.
Qed.

Section of_pairs_last.
Context `{Countable K} {V : Type}.

(** [Immutable.Map(pairs)] holds for a key the value of the last pair with
    that key. *)
Lemma foldl_insert_last (pairs : list (K * V)) : ∀ (e : gmap K V) k,
  foldl (λ e kv, <[kv.1 := kv.2]> e) e pairs !! k
  = match last (filter (λ p, p.1 = k) pairs) with
    | Some p => Some p.2
    | None => e !! k
    end.
Proof.
  induction pairs as [|[k0 v0] pairs IH]; intros e k; [done|].
  simpl. rewrite IH, filter_cons. simpl.
  destruct (decide (k0 = k)) as [->|Hne].
  - destruct (filter (λ p, p.1 = k) pairs) as [|p l] eqn:Ef; simpl.
    + by rewrite lookup_insert_eq.
    + by destruct (last (p :: l)) eqn:El;
        [|apply last_None in El].
  - destruct (last _); [done|]. by rewrite lookup_insert_ne.
Qed.
End of_pairs_last.

Lemma Forall2_filter_topic arr its b :
  Forall2 made_from arr its →
  Forall2 made_from (filter (λ p, p.1 = b) arr) (filter (λ it, us_topic it = b) its).
Proof.
  induction 1 as [|tl item arr its [Ht Hi] _ IH]; [constructor|].
  rewrite !filter_cons. destruct (decide (tl.1 = b)) as [Hb|Hb].
  - rewrite decide_True by congruence. constructor; [done|exact IH].
  - rewrite decide_False by congruence. exact IH.
Qed.

Lemma Forall2_last {A B} (R : A → B → Prop) l1 l2 :
  Forall2 R l1 l2 →
  match last l1, last l2 with
  | Some x, Some y => R x y
  | None, None => True
  | _, _ => False
  end.
Proof.
  induction 1 as [|x y l1 l2 HR Hall IH]; [done|].
  destruct Hall as [|x' y' l1' l2' HR' Hall']; [done|]. exact IH.
Qed.

Lemma returns_registerComplete_paths data :
  returns (registerComplete data) (λ state',
    ∀ a b,
      match last (filter (λ item, us_stream_id item = a ∧ us_topic item = b) data) with
      | Some item =>
          ∃ l, entryAt state' a b = Some l ∧ items l = unread_message_ids item
      | None => entryAt state' a b = None
      end).
Proof.
  unfold registerComplete.
  set (Inv := λ (done : list UnreadStream) (bs : list (Z * list (string * List))),
    NoDup bs.*1
    ∧ ∀ k, match arrayOf bs k with
           | Some arr =>
               Forall2 made_from arr (filter (λ item, us_stream_id item = k) done)
           | None => filter (λ item, us_stream_id item = k) done = []
           end).
  eapply returns_bind.
  { apply (returns_foldM _ Inv).
    - split; [constructor|done].
    - intros done item rest bs El [Hnd Hinv].
      eapply returns_bind; [apply returns_List_of|]. intros l [Hl _]. simpl.
      apply returns_ret. split; [by apply NoDup_getOrCreate_push|]. intros k.
      rewrite arrayOf_getOrCreate_push, filter_app, filter_cons, filter_nil.
      specialize (Hinv k). destruct (decide (k = us_stream_id item)) as [->|Hk].
      + rewrite decide_True by done. apply Forall2_app; [|by repeat constructor].
        destruct (arrayOf bs (us_stream_id item)); simpl; [done|].
        rewrite Hinv. constructor.
      + rewrite decide_False by congruence. by rewrite app_nil_r. }
  intros bs [Hnd Hbs]. simpl.
  eapply returns_bind.
  { apply (returns_mapM _ (λ (entry : Z * list (string * List)) (res : Z * Map string List),
      res.1 = entry.1
      ∧ entries res.2 = foldl (λ e kv, <[kv.1 := kv.2]> e) ∅ entry.2)).
    intros [k arr] _. unfold Map_ofPairs.
    eapply returns_bind; [apply returns_Map_of|]. intros tm [Etm _]. simpl.
    by apply returns_ret. }
  intros perStream Hper. simpl. unfold Map_ofPairs.
  eapply returns_mono; [apply returns_Map_of|]. intros r [Er _].
  assert (Hstream : ∀ (e : gmap Z (Map string List)) k,
            match arrayOf bs k with
            | Some arr =>
                ∃ tm, foldl (λ e kv, <[kv.1 := kv.2]> e) e perStream !! k = Some tm
                      ∧ entries tm = foldl (λ e kv, <[kv.1 := kv.2]> e) ∅ arr
            | None => foldl (λ e kv, <[kv.1 := kv.2]> e) e perStream !! k = e !! k
            end).
  { clear Er Hbs. induction Hper as [|[k0 arr0] [k1 tm0] bs ps [Ek Etm] Hper IH];
      intros e k; [done|].
    simpl in *. subst k1. apply NoDup_cons in Hnd as [Hk0 Hnd].
    specialize (IH Hnd (<[k0 := tm0]> e) k).
    destruct (decide (k0 = k)) as [->|Hne].
    - apply arrayOf_None in Hk0. rewrite Hk0 in IH. exists tm0.
      by rewrite IH, lookup_insert_eq.
    - destruct (arrayOf bs k); [done|]. by rewrite IH, lookup_insert_ne. }
  intros a b. specialize (Hstream ∅ a). specialize (Hbs a). rewrite <- Er in Hstream.
  assert (Hf : filter (λ item, us_stream_id item = a ∧ us_topic item = b) data
               = filter (λ item, us_topic item = b)
                   (filter (λ item, us_stream_id item = a) data)).
  { rewrite list_filter_filter. apply list_filter_iff. tauto. }
  rewrite Hf. unfold entryAt, get.
  destruct (arrayOf bs a) as [arr|].
  - destruct Hstream as (tm & -> & Etm). simpl. rewrite Etm, foldl_insert_last.
    pose proof (Forall2_last _ _ _ (Forall2_filter_topic _ _ b Hbs)) as Hlast.
    destruct (last (filter (λ p, p.1 = b) arr)) as [tl|],
             (last (filter (λ it, us_topic it = b) _)) as [item|]; try done.
    destruct Hlast as [_ Hi]. by exists tl.2.
  - rewrite Hstream, lookup_empty, Hbs. done.
Qed.

(** A registration snapshot replaces the index, whatever it was: every
    topic holds the ids that the last element of the snapshot for its
    stream and topic lists, a later element overriding an earlier one, and a
    path has an entry exactly when the snapshot has an element for it.
    Nothing is logged. *)
Theorem register_complete_snapshot (state : option UnreadStreamsState)
    (data : list UnreadStream) (h : Heap) :
  ∃ state' h',
    streamsReducer state (REGISTER_COMPLETE (Some data)) h = Ok state' h'
    ∧ log h' = log h
    ∧ (∀ a b, idsAt state' a b = snapshot_ids data a b)
    ∧ (∀ a b, is_Some (entryAt state' a b)
              ↔ ∃ item, item ∈ data ∧ us_stream_id item = a ∧ us_topic item = b).
Proof.
  destruct (returns_registerComplete_paths data h) as (s' & h' & E & Hlog & Hpath).
  exists s', h'. split; [exact E|]. split; [exact Hlog|]. split.
  - intros a b. rewrite idsAt_entryAt. unfold snapshot_ids. specialize (Hpath a b).
    destruct (last _) as [item|]; simpl.
    + by destruct Hpath as (l & -> & ?).
    + by rewrite Hpath.
  - intros a b. specialize (Hpath a b).
    destruct (last _) as [item|] eqn:El.
    + destruct Hpath as (l & -> & _). split; [|done]. intros _.
      apply last_Some_elem_of, list_elem_of_filter in El as [[? ?] ?]. by exists item.
    + rewrite Hpath. split; [by intros [? ?]|]. intros (item & Hin & Ha & Hb).
      apply last_None in El.
      assert (item ∈ filter (λ item, us_stream_id item = a ∧ us_topic item = b) data)
        as Hf by (by apply list_elem_of_filter).
      rewrite El in Hf. by apply elem_of_nil in Hf.
Qed.

(** ** The getters *)

Lemma Array_find_first {A} (pred : A → bool) before item rest :
  Forall (λ x, pred x = false) before → pred item = true →
  Array_find pred (before ++ item :: rest) = Some item.
Proof.
  induction 1 as [|x before Hx _ IH]; intros Hitem; simpl.
  - by rewrite Hitem.
  - rewrite Hx. by apply IH.
Qed.

Lemma Array_find_none {A} (pred : A → bool) xs :
  Forall (λ x, pred x = false) xs → Array_find pred xs = None.
Proof. induction 1 as [|x xs Hx _ IH]; simpl; [done|]. by rewrite Hx. Qed.

Section getter_facts.
Context {UnreadPmsState UnreadHuddlesState UnreadMentionsState PerAccountState : Type}.
Context `{EqDecision UnreadPmsState} `{EqDecision UnreadHuddlesState}
        `{EqDecision UnreadMentionsState}.
Variable unreadPmsReducer :
  option UnreadPmsState → Action → PerAccountState → M UnreadPmsState.
Variable unreadHuddlesReducer :
  option UnreadHuddlesState → Action → PerAccountState → M UnreadHuddlesState.
Variable unreadMentionsReducer :
  option UnreadMentionsState → Action → M UnreadMentionsState.

Lemma getUnreadCountForTopic_idsAt
    (unread : @UnreadState UnreadPmsState UnreadHuddlesState UnreadMentionsState) a b :
  getUnreadCountForTopic unread a b = length (idsAt (streams unread) a b).
Proof.
  unfold getUnreadCountForTopic, idsAt, getIn.
  destruct (get (streams unread) a) as [tm|]; simpl; [|done].
  by destruct (get tm b).
Qed.

(** When [reducer] handles a new stream message that is not flagged as
    read, and the three other reducers return, the unread count of the
    topic of the message goes up by one, the count of every other topic
    stays, and the state returned is another object than the state given. *)
Theorem new_message_counts
    (state : @UnreadState UnreadPmsState UnreadHuddlesState UnreadMentionsState)
    (id stream_id : Z) (subject : string) (flags : list string)
    (globalState : PerAccountState) (h h1 h2 h3 h4 : Heap)
    streams' pms' huddles' mentions' :
  let action := EVENT_NEW_MESSAGE (StreamMessage id stream_id subject (Some flags)) in
  "read" ∉ flags →
  streamsReducer (Some (streams state)) action h = Ok streams' h1 →
  unreadPmsReducer (Some (pms state)) action globalState h1 = Ok pms' h2 →
  unreadHuddlesReducer (Some (huddles state)) action globalState h2 = Ok huddles' h3 →
  unreadMentionsReducer (Some (mentions state)) action h3 = Ok mentions' h4 →
  ∃ state' h',
    reducer unreadPmsReducer unreadHuddlesReducer unreadMentionsReducer
      (Some state) action globalState h = Ok state' h'
    ∧ getUnreadCountForTopic state' stream_id subject
      = S (getUnreadCountForTopic state stream_id subject)
    ∧ (∀ a b, (a, b) ≠ (stream_id, subject) →
         getUnreadCountForTopic state' a b = getUnreadCountForTopic state a b)
    ∧ state' ≠ state.
Proof.
  intros action Hread Hs Hp Hh Hm.
  assert (Hids : idsAt streams' stream_id subject
                 = idsAt (streams state) stream_id subject ++ [id]
                 ∧ ∀ a b, (a, b) ≠ (stream_id, subject) →
                     idsAt streams' a b = idsAt (streams state) a b).
  { unfold action, streamsReducer, bind in Hs. simpl in Hs. unfold includes in Hs.
    rewrite bool_decide_eq_false_2 in Hs by done.
    destruct (returns_run _ _ _ _ _ (returns_newMessage _ _ _ _) Hs)
      as [(l & El & Hput) _].
    split.
    - rewrite (put_at_idsAt _ _ _ _ _ _ _ Hput), decide_True by done. exact El.
    - intros a b Hne. rewrite (put_at_idsAt _ _ _ _ _ _ _ Hput), decide_False; [done|].
      intros [-> ->]. done. }
  destruct Hids as [Hat Hother].
  assert (Hdiff : streams' ≠ streams state).
  { intros Heq. rewrite Heq in Hat. apply (f_equal length) in Hat.
    rewrite length_app in Hat. simpl in Hat. lia. }
  exists (mkUnreadState (next h4) streams' pms' huddles' mentions'),
         (mkHeap (N.succ (next h4)) (log h4)).
  split; [|split_and!].
  - unfold reducer, bind.
    change (streams <$> Some state) with (Some (streams state)).
    change (pms <$> Some state) with (Some (pms state)).
    change (huddles <$> Some state) with (Some (huddles state)).
    change (mentions <$> Some state) with (Some (mentions state)).
    rewrite Hs, Hp, Hh, Hm. unfold fresh, every_key_same, ret.
    cbn [streams pms huddles mentions].
    by rewrite (bool_decide_eq_false_2 (streams' = _)).
  - rewrite !getUnreadCountForTopic_idsAt. simpl. rewrite Hat, length_app. simpl. lia.
  - intros a b Hne. rewrite !getUnreadCountForTopic_idsAt. simpl. by rewrite Hother.
  - intros Heq. apply Hdiff. by rewrite <- Heq.
Qed.
End getter_facts.

Lemma new_message_counts_witness :
  let keep : option () → Action → () → M () := λ _ _ _, ret () in
  let state := mkUnreadState 1 initialStreamsState () () () in
  let action := EVENT_NEW_MESSAGE (StreamMessage 12 1 "a" (Some [])) in
  let run := after initialStreamsState heap0 action in
  ∃ state' h',
    reducer keep keep (λ _ _, ret ()) (Some state) action () heap0 = Ok state' h'
    ∧ getUnreadCountForTopic state' 1 "a" = 1%nat.
Proof.
  intros keep state action run.
  assert (Hread : "read" ∉ @nil string) by (intros Hin; by apply elem_of_nil in Hin).
  assert (Hs : streamsReducer (Some (streams state)) action heap0 = Ok run.1 run.2).
  { apply after_run. simpl. by eexists. }
  destruct (new_message_counts keep keep (λ _ _, ret ()) state 12 1 "a" [] ()
              heap0 run.2 run.2 run.2 run.2 run.1 () () ()
              Hread Hs eq_refl eq_refl eq_refl)
    as (state' & h' & E & Hcount & _).
  exists state', h'. split; [exact E|]. rewrite Hcount. reflexivity.
Defined.

Section pm_narrow_facts.
Context {Narrow UnreadMentionsState : Type}.
Variable userIdsOfPmNarrow : Narrow → list Z.
Variable pmUnreadsKeyFromPmKeyIds : list Z → Z → string.

(** [getUnreadIdsForPmNarrow] answers from the first record that matches.
    For a narrow with one user it reads [pms] only and gives the ids of the
    first record of that sender, for a narrow with several users it reads
    [huddles] only and gives the ids of the first record with the key of the
    conversation; it gives no ids when no record matches, and none for a
    narrow without users. *)
Theorem getUnreadIdsForPmNarrow_first_match
    (unread : @UnreadState (list PmsUnreadItem) (list HuddlesUnreadItem)
                           UnreadMentionsState)
    (narrow : Narrow) (ownUserId : Z) :
  let userIds := userIdsOfPmNarrow narrow in
  let key := pmUnreadsKeyFromPmKeyIds userIds ownUserId in
  let result :=
    getUnreadIdsForPmNarrow userIdsOfPmNarrow pmUnreadsKeyFromPmKeyIds
      unread narrow ownUserId in
  (userIds = [] → result = [])
  ∧ (∀ u, userIds = [u] →
       (Forall (λ x, sender_id x ≠ u) (pms unread) → result = [])
       ∧ (∀ before item rest,
            pms unread = before ++ item :: rest →
            Forall (λ x, sender_id x ≠ u) before → sender_id item = u →
            result = pm_unread_message_ids item))
  ∧ ((1 < length userIds)%nat →
       (Forall (λ x, user_ids_string x ≠ key) (huddles unread) → result = [])
       ∧ (∀ before item rest,
            huddles unread = before ++ item :: rest →
            Forall (λ x, user_ids_string x ≠ key) before → user_ids_string item = key →
            result = huddle_unread_message_ids item)).
Proof.
  intros userIds key result. unfold result, getUnreadIdsForPmNarrow. fold userIds key.
  split_and!.
  - intros E. rewrite E. rewrite decide_False by (simpl; lia).
    rewrite Array_find_none; [done|].
    apply Forall_forall. intros x _. by apply bool_decide_eq_false.
  - intros u E. rewrite E. rewrite decide_False by (simpl; lia).
    change ([u] !! 0%nat) with (Some u). split.
    + intros Hnone. rewrite Array_find_none; [done|].
      eapply Forall_impl; [exact Hnone|]. intros x Hx.
      apply bool_decide_eq_false. congruence.
    + intros before item rest Hpms Hbefore Hitem. rewrite Hpms.
      rewrite (Array_find_first _ before item rest); [done| |].
      * eapply Forall_impl; [exact Hbefore|]. intros x Hx.
        apply bool_decide_eq_false. congruence.
      * apply bool_decide_eq_true. congruence.
  - intros Hlen. rewrite decide_True by done. split.
    + intros Hnone. rewrite Array_find_none; [done|].
      eapply Forall_impl; [exact Hnone|]. intros x Hx. by apply bool_decide_eq_false.
    + intros before item rest Hh Hbefore Hitem. rewrite Hh.
      rewrite (Array_find_first _ before item rest); [done| |].
      * eapply Forall_impl; [exact Hbefore|]. intros x Hx. by apply bool_decide_eq_false.
      * by apply bool_decide_eq_true.
Qed.
End pm_narrow_facts.

Lemma getUnreadIdsForPmNarrow_first_match_witness :
  let unread : @UnreadState (list PmsUnreadItem) (list HuddlesUnreadItem) () :=
    mkUnreadState 1 initialStreamsState
      [mkPmsUnreadItem 7 [1; 2]; mkPmsUnreadItem 8 [3]; mkPmsUnreadItem 8 [4]]
      [] () in
  getUnreadIdsForPmNarrow (λ narrow : list Z, narrow) (λ _ _, "") unread [8] 0 = [3].
Proof.
  intros unread.
  apply (proj2 (proj1 (proj2 (getUnreadIdsForPmNarrow_first_match
                         (λ narrow : list Z, narrow) (λ _ _, "") unread [8] 0))
                  8 eq_refl)
           [mkPmsUnreadItem 7 [1; 2]] (mkPmsUnreadItem 8 [3]) [mkPmsUnreadItem 8 [4]]).
  - reflexivity.
  - repeat constructor. simpl. lia.
  - reflexivity.
Defined.
